(** * Tiling and labelling engine of [tile_generator.py]

    A shallow embedding of the algorithmic core of [WSIHandler]:
    [check_for_label] (label classifier), [extract_patches] (coordinate
    scaling and patch subdivision) and [get_relevant_tiles] (grid tiler).

    Conventions of the embedding.
    - Python integers are [Z]; [//] is [Z.div] (both round towards minus
      infinity).
    - A finite Python float (a threshold, the overlap fraction, the
      downsample factor) is the rational [Q] it stands for.  Every float
      operation is the exact operation followed by [round64], the rounding
      to the nearest binary64 number, ties to even; an integer operand is
      converted to a float first.  Comparisons, [int(...)] (truncation
      towards zero) and [np.ceil] ([Qceiling]) are exact.  Overflow to
      infinity (magnitudes of [2^1024] and more) is not modelled.
    - The quotient [np.count_nonzero(m) / m.size] is a Python float under
      NumPy 1.x and a [np.float64] under NumPy 2.x, see [NumPy].
    - NumPy arrays are lists of rows; slicing follows NumPy's rules for
      negative and out-of-range bounds.
    - A Python [dict] is an association list in its iteration (insertion)
      order; its keys are distinct.
    - Exceptions are values of [exn], threaded through the [result] monad. *)

From Stdlib Require Import String ZArith QArith Qround List Bool Lia.
Import ListNotations.
Local Open Scope Z_scope.

(** ** Exceptions *)

Inductive exn : Type :=
| ZeroDivisionError
| TypeError
| IndexError
| Cv2Error
| OpenSlideError.

Inductive result (A : Type) : Type :=
| Ok (a : A)
| Raise (e : exn).
Arguments Ok {A} a.
Arguments Raise {A} e.

Definition bind {A B : Type} (r : result A) (k : A -> result B) : result B :=
  match r with
  | Ok a => k a
  | Raise e => Raise e
  end.

Notation "x <- r ;; k" := (bind r (fun x => k))
  (at level 61, r at next level, right associativity).

(** ** NumPy fragments *)

Module Np.

(** Normalisation of one slice bound against an axis of length [n]. *)
Definition clip_index (n i : Z) : Z :=
  if i <? 0 then Z.max (i + n) 0 else Z.min i n.

(** [l[start:stop]] *)
Definition slice {A : Type} (start stop : Z) (l : list A) : list A :=
  let n := Z.of_nat (length l) in
  let a := clip_index n start in
  let b := clip_index n stop in
  firstn (Z.to_nat (b - a)) (skipn (Z.to_nat a) l).

(** [m[r0:r1, c0:c1]] (any trailing axis is kept whole). *)
Definition slice2d {A : Type} (r0 r1 c0 c1 : Z) (m : list (list A))
  : list (list A) :=
  map (slice c0 c1) (slice r0 r1 m).

(** [range(n)] *)
Definition range (n : Z) : list Z := map Z.of_nat (seq 0 (Z.to_nat n)).

(** [np.zeros(shape=(h, w))] *)
Definition zeros (h w : Z) : list (list Z) :=
  repeat (repeat 0 (Z.to_nat w)) (Z.to_nat h).

Definition nonzero (v : Z) : bool := negb (v =? 0).

(** [np.count_nonzero(m)] and [m.size] of a two-dimensional array. *)
Definition count_nonzero (m : list (list Z)) : nat :=
  length (filter nonzero (concat m)).

Definition size (m : list (list Z)) : nat := length (concat m).

(** An array of [h] rows and [w] columns. *)
Definition has_shape {A : Type} (h w : Z) (m : list (list A)) : Prop :=
  Z.of_nat (length m) = h /\ Forall (fun r => Z.of_nat (length r) = w) m.

End Np.

(** ** Floats *)

Module Binary64.

(** Rounding to the nearest integer, ties to the even one. *)
Definition round_half_even (q : Q) : Z :=
  let f := Qfloor q in
  match (q - inject_Z f ?= 1 # 2)%Q with
  | Lt => f
  | Gt => f + 1
  | Eq => if Z.even f then f else f + 1
  end.

(** [floor (log2 q)] for a positive [q]. *)
Definition ilog2 (q : Q) : Z :=
  if Qle_bool 1 q then Z.log2 (Qfloor q)
  else - Z.log2_up (Qceiling (/ q)).

(** Exponent of the last place of a positive [q]: 53 significant bits,
    and no exponent below that of the subnormal numbers. *)
Definition ulp_exponent (q : Q) : Z := Z.max (ilog2 q - 52) (-1074).

(** [q / 2^e] *)
Definition scale_down (q : Q) (e : Z) : Q :=
  if 0 <=? e then (q / inject_Z (2 ^ e))%Q else (q * inject_Z (2 ^ (- e)))%Q.

(** [m * 2^e] *)
Definition scale_up (m e : Z) : Q :=
  if 0 <=? e then inject_Z (m * 2 ^ e)
  else (inject_Z m / inject_Z (2 ^ (- e)))%Q.

Definition round_pos (q : Q) : Q :=
  let e := ulp_exponent q in
  scale_up (round_half_even (scale_down q e)) e.

(** The binary64 number nearest to [q], ties to even. *)
Definition round (q : Q) : Q :=
  match (q ?= 0)%Q with
  | Eq => 0%Q
  | Gt => round_pos q
  | Lt => (- round_pos (- q))%Q
  end.

End Binary64.

Definition round64 : Q -> Q := Binary64.round.

(** [float(n)] of a Python integer. *)
Definition float_of_int (n : Z) : Q := round64 (inject_Z n).

(** [int(x)] on a float: truncation towards zero. *)
Definition int_of_float (q : Q) : Z := Z.quot (Qnum q) (Zpos (Qden q)).

(** [np.count_nonzero] returns a Python [int] in NumPy 1.x and a NumPy
    integer in NumPy 2.x.  The quotient [count / size] is a Python [float]
    in the first case and a [np.float64] in the second; the two differ when
    the size is zero and when the quotient is subscripted. *)
Inductive NumPy : Type :=
| NumPy1
| NumPy2.

(** A float that may be [nan]; only a quotient [0 / 0] is. *)
Inductive PyFloat : Type :=
| Finite (q : Q)
| NaN.

(** [a == b] and [a >= b] on floats; both are false when an operand is
    [nan]. *)
Definition float_eqb (a b : PyFloat) : bool :=
  match a, b with
  | Finite x, Finite y => Qeq_bool x y
  | _, _ => false
  end.

Definition float_geb (a b : PyFloat) : bool :=
  match a, b with
  | Finite x, Finite y => Qle_bool y x
  | _, _ => false
  end.

(** [count / size] for [count = np.count_nonzero(m)], which is at most
    [size = m.size]: the correctly rounded quotient.  With a size of zero
    (and so a count of zero) the Python integer division raises, the NumPy
    one yields [nan]. *)
Definition true_div (np : NumPy) (count size : nat) : result PyFloat :=
  match size with
  | O => match np with
         | NumPy1 => Raise ZeroDivisionError
         | NumPy2 => Ok NaN
         end
  | S _ => Ok (Finite (round64 (Z.of_nat count # Pos.of_nat size)))
  end.

(** [x[key]] for a quotient [x] and a string [key]: a Python [float] is
    not subscriptable, a [np.float64] takes no index. *)
Definition subscript_error (np : NumPy) : exn :=
  match np with
  | NumPy1 => TypeError
  | NumPy2 => IndexError
  end.

(** ** Label classifier: [WSIHandler.check_for_label] *)

Record LabelRule : Type := mkRule {
  rule_type : string;
  rule_threshold : Q
}.

(** [label_dict]: label name mapped to its rule, in iteration order. *)
Definition LabelDict : Type := list (string * LabelRule).

Definition label_percentage (np : NumPy) (annotation_mask : list (list Z))
  : result PyFloat :=
  true_div np (Np.count_nonzero annotation_mask) (Np.size annotation_mask).

(** The [for label in label_dict] loop, for a computed [label_percentage].
    In the ["<="] branch the source subscripts [label_percentage], the
    quotient, which raises before any comparison is made. *)
Fixpoint scan_rules (np : NumPy) (label_percentage : PyFloat)
  (label_dict : LabelDict) : result (option string) :=
  match label_dict with
  | [] => Ok None
  | (label, rule) :: rest =>
      if String.eqb (rule_type rule) "==" then
        if float_eqb (Finite (rule_threshold rule)) label_percentage
        then Ok (Some label)
        else scan_rules np label_percentage rest
      else if String.eqb (rule_type rule) ">=" then
        if float_geb (Finite (rule_threshold rule)) label_percentage
        then Ok (Some label)
        else scan_rules np label_percentage rest
      else if String.eqb (rule_type rule) "<=" then
        Raise (subscript_error np)
      else scan_rules np label_percentage rest
  end.

Definition check_for_label (np : NumPy) (label_dict : LabelDict)
  (annotation_mask : list (list Z)) : result (option string) :=
  p <- label_percentage np annotation_mask ;;
  scan_rules np p label_dict.

(** ** Data produced by the pipeline *)

(** One entry of [relevant_tiles_dict]: ["x"], ["y"], ["size"], ["level"]. *)
Record TileDescriptor : Type := mkTile {
  td_x : Z;
  td_y : Z;
  td_size : Z;
  td_level : Z
}.

(** One entry of a tile's ["patches"] dictionary. *)
Record PatchRecord : Type := mkPatch {
  pr_x_pos : Z;
  pr_y_pos : Z;
  pr_patch_size : Z;
  pr_label : string;
  pr_slide_name : option string
}.

(** One entry of [patch_dict]. *)
Record TileEntry : Type := mkEntry {
  te_x_pos : Z;
  te_y_pos : Z;
  te_size : Z;
  te_patches : list (nat * PatchRecord)
}.

Definition rgb : Type := (Z * Z * Z)%type.

(** A patch image written below [file_dir]: the label directory, the tile
    and patch numbers of its file name, and the pixels. *)
Record SavedPatch : Type := mkSaved {
  sp_label : string;
  sp_tile_nb : nat;
  sp_patch_nb : nat;
  sp_pixels : list (list rgb)
}.

(** ** Coordinate scaling and patch subdivision:
       [WSIHandler.extract_patches] *)

(** [scaling_factor = int(self.slide.level_downsamples[level])] *)
Definition scaling_factor (level_downsample : Q) : Z :=
  int_of_float level_downsample.

(** [tile_x], [tile_y], [tile_size] of a tile descriptor. *)
Definition scale_tile (f : Z) (td : TileDescriptor) : Z * Z * Z :=
  (td_x td * f, td_y td * f, td_size td * f).

(** [px_overlap = int(patch_size * overlap)]: the product is a float
    product, rounded before it is truncated. *)
Definition px_overlap (patch_size : Z) (overlap : Q) : Z :=
  int_of_float (round64 (float_of_int patch_size * overlap)).

(** [patch_size - px_overlap], the stride of the grid walk. *)
Definition grid_step (patch_size : Z) (overlap : Q) : Z :=
  patch_size - px_overlap patch_size overlap.

(** [int(np.ceil((tile_size + overlap) / (patch_size - px_overlap)))],
    the value of both [rows] and [cols]: a float sum divided by the
    stride. *)
Definition candidate_steps (tile_size patch_size : Z) (overlap : Q)
  : result Z :=
  let step := grid_step patch_size overlap in
  if step =? 0 then Raise ZeroDivisionError
  else Ok (Qceiling
             (round64 (round64 (float_of_int tile_size + overlap)
                       / float_of_int step))).

(** The mutable variables of the two nested loops. *)
Record WalkState : Type := mkWalk {
  stop_x : bool;
  stop_y : bool;
  patch_nb : nat;
  patches : list (nat * PatchRecord);
  saved : list SavedPatch
}.

Section PatchWalk.

Variable np : NumPy.
Variable tile_size patch_size step : Z.
Variable tile : list (list rgb).
Variable tile_annotation_mask : list (list Z).
Variable label_dict : LabelDict.
Variable file_dir : option string.
Variable slide_name : option string.
Variable tile_nb : nat.

(** Body of [for col in range(cols)]; the flag [stop_x st'] tells the
    loop to [break]. *)
Definition patch_body (row col : Z) (st : WalkState) : result WalkState :=
  let patch_x := col * step in
  let patch_y := row * step in
  let '(stop_y1, patch_y1) :=
    if patch_y + patch_size >=? tile_size
    then (true, tile_size - patch_size) else (stop_y st, patch_y) in
  let '(stop_x1, patch_x1) :=
    if patch_x + patch_size >=? tile_size
    then (true, tile_size - patch_size) else (stop_x st, patch_x) in
  let patch :=
    Np.slice2d patch_y1 (patch_y1 + patch_size)
               patch_x1 (patch_x1 + patch_size) tile in
  let patch_mask :=
    Np.slice2d patch_y1 (patch_y1 + patch_size)
               patch_x1 (patch_x1 + patch_size) tile_annotation_mask in
  label <- check_for_label np label_dict patch_mask ;;
  match label with
  | Some l =>
      Ok (mkWalk stop_x1 stop_y1 (S (patch_nb st))
            (patches st ++
               [(patch_nb st,
                 mkPatch patch_x1 patch_y1 patch_size l slide_name)])
            (match file_dir with
             | Some _ => saved st ++ [mkSaved l tile_nb (patch_nb st) patch]
             | None => saved st
             end))
  | None => Ok (mkWalk stop_x1 stop_y1 (patch_nb st) (patches st) (saved st))
  end.

Fixpoint cols_loop (cols : list Z) (row : Z) (st : WalkState)
  : result WalkState :=
  match cols with
  | [] => Ok st
  | col :: cols' =>
      st' <- patch_body row col st ;;
      if stop_x st' then Ok st' else cols_loop cols' row st'
  end.

(** [for row in range(rows)]: [stop_x] is reset, the columns are walked,
    and the loop breaks once [stop_y] is set. *)
Fixpoint rows_loop (rows : list Z) (cols : list Z) (st : WalkState)
  : result WalkState :=
  match rows with
  | [] => Ok st
  | row :: rows' =>
      st' <- cols_loop cols row
               (mkWalk false (stop_y st) (patch_nb st) (patches st)
                  (saved st)) ;;
      if stop_y st' then Ok st' else rows_loop rows' cols st'
  end.

End PatchWalk.

(** The state at [patch_nb = 0], [stop_y = False]. *)
Definition walk_init (sv : list SavedPatch) : WalkState :=
  mkWalk false false 0 [] sv.

Section ExtractPatches.

Variable np : NumPy.
(** [self.slide.level_downsamples[level]] *)
Variable level_downsample : Q.
(** [np.array(self.slide.read_region((x, y), level=0, size=(s, s)))[:, :, 0:3]]
    for a non-negative [s]. *)
Variable read_region : Z -> Z -> Z -> list (list rgb).
(** [cv2.fillPoly(mask, [np.array(polygon).astype(np.int32)], 1)]: the
    mask after the polygon, given by its float vertices, is converted and
    filled. *)
Variable fillPoly : list (list Z) -> list (Q * Q) -> list (list Z).

Variable annotations : list (list (Q * Q)).
Variable label_dict : LabelDict.
Variable overlap : Q.
Variable patch_size : Z.
Variable file_dir : option string.
Variable slide_name : option string.

(** World coordinates to tile coordinates:
    [[point[0] - tile_x, point[1] - tile_y]]. *)
Definition tile_annotation_list (tile_x tile_y : Z)
  : list (list (Q * Q)) :=
  map (map (fun point : Q * Q =>
              (round64 (fst point - float_of_int tile_x),
               round64 (snd point - float_of_int tile_y))))
      annotations.

Definition tile_annotation_mask_of (tile_x tile_y tile_size : Z)
  : list (list Z) :=
  fold_left fillPoly (tile_annotation_list tile_x tile_y)
    (Np.zeros tile_size tile_size).

(** One iteration of [for tile_key in tile_dict]. *)
Definition extract_tile (td : TileDescriptor) (tile_nb : nat)
  (sv : list SavedPatch) : result (TileEntry * list SavedPatch) :=
  let '(tile_x, tile_y, tile_size) :=
    scale_tile (scaling_factor level_downsample) td in
  rows <- candidate_steps tile_size patch_size overlap ;;
  cols <- candidate_steps tile_size patch_size overlap ;;
  if tile_size <? 0 then Raise OpenSlideError else
  let tile := read_region tile_x tile_y tile_size in
  let mask := tile_annotation_mask_of tile_x tile_y tile_size in
  st <- rows_loop np tile_size patch_size (grid_step patch_size overlap)
          tile mask label_dict file_dir slide_name tile_nb
          (Np.range rows) (Np.range cols) (walk_init sv) ;;
  Ok (mkEntry tile_x tile_y tile_size (patches st), saved st).

Fixpoint tiles_loop (tile_dict : list (nat * TileDescriptor))
  (tile_nb : nat) (patch_dict : list (nat * TileEntry))
  (sv : list SavedPatch)
  : result (list (nat * TileEntry) * list SavedPatch) :=
  match tile_dict with
  | [] => Ok (patch_dict, sv)
  | (_, td) :: rest =>
      r <- extract_tile td tile_nb sv ;;
      tiles_loop rest (S tile_nb) (patch_dict ++ [(tile_nb, fst r)])
        (snd r)
  end.

Definition extract_patches (tile_dict : list (nat * TileDescriptor))
  : result (list (nat * TileEntry) * list SavedPatch) :=
  tiles_loop tile_dict 0%nat [] [].

End ExtractPatches.

(** ** Grid tiler: [WSIHandler.get_relevant_tiles] *)

Module Cv2.

(** [cv2.cvtColor(m, cv2.COLOR_GRAY2RGB)]: a new three-channel image. *)
Definition gray2rgb (m : list (list Z)) : list (list rgb) :=
  map (map (fun v => (v, v, v))) m.

Fixpoint imap {A B : Type} (f : Z -> A -> B) (i : Z) (l : list A)
  : list B :=
  match l with
  | [] => []
  | a :: l' => f i a :: imap f (i + 1) l'
  end.

(** Pixel [(x, y)] lies on the one-pixel outline of the rectangle with
    corners [(x1, y1)] and [(x2, y2)], both included. *)
Definition on_outline (x1 y1 x2 y2 x y : Z) : bool :=
  (x1 <=? x) && (x <=? x2) && (y1 <=? y) && (y <=? y2)
  && ((x =? x1) || (x =? x2) || (y =? y1) || (y =? y2)).

(** [cv2.rectangle(img, (x1, y1), (x2, y2), color, 1)]: the outline is
    drawn into [img], clipped to the image; the image is returned. *)
Definition rectangle (img : list (list rgb)) (x1 y1 x2 y2 : Z)
  (color : rgb) : list (list rgb) :=
  imap (fun y row =>
          imap (fun x px => if on_outline x1 y1 x2 y2 x y
                            then color else px) 0 row)
       0 img.

Definition channels (px : rgb) : list Z :=
  let '(r, g, b) := px in [r; g; b].

(** [np.count_nonzero] and [.size] of a three-channel array. *)
Definition count_nonzero (m : list (list rgb)) : nat :=
  length (filter Np.nonzero (flat_map channels (concat m))).

Definition size (m : list (list rgb)) : nat :=
  (length (concat m) * 3)%nat.

End Cv2.

(** What the name [tissue_mask] is bound to: the argument, or (after the
    assignment of [cv2.rectangle]'s result) the image object [colored]. *)
Inductive MaskRef : Type :=
| InputMask
| ColoredImage.

Record TilerState : Type := mkTiler {
  tissue_mask_ref : MaskRef;
  colored : list (list rgb);
  relevant_tiles_dict : list (nat * TileDescriptor);
  tile_nb : nat
}.

(** [tissue_mask.shape] *)
Definition shape0 {A : Type} (m : list (list A)) : Z := Z.of_nat (length m).
Definition shape1 {A : Type} (m : list (list A)) : Z :=
  match m with
  | [] => 0
  | r :: _ => Z.of_nat (length r)
  end.

(** The state before the loops: [tissue_mask] is the argument, [colored]
    its three-channel copy, the dictionary is empty and [tile_nb = 0]. *)
Definition tiler_init (input_mask : list (list Z)) : TilerState :=
  mkTiler InputMask (Cv2.gray2rgb input_mask) [] 0%nat.

Section GridTiler.

Variable np : NumPy.
Variable input_mask : list (list Z).
Variable tile_size : Z.
Variable min_coverage : Q.
Variable level : Z.

(** [np.count_nonzero(tile) / tile.size] for the slice of whatever
    [tissue_mask] currently names. *)
Definition tissue_coverage (st : TilerState) (row col : Z)
  : result PyFloat :=
  let r0 := row * tile_size in
  let c0 := col * tile_size in
  match tissue_mask_ref st with
  | InputMask =>
      let tile := Np.slice2d r0 (r0 + tile_size) c0 (c0 + tile_size)
                    input_mask in
      true_div np (Np.count_nonzero tile) (Np.size tile)
  | ColoredImage =>
      let tile := Np.slice2d r0 (r0 + tile_size) c0 (c0 + tile_size)
                    (colored st) in
      true_div np (Cv2.count_nonzero tile) (Cv2.size tile)
  end.

(** Body of [for col in range(cols)]. *)
Definition tiler_body (row col : Z) (st : TilerState) : result TilerState :=
  cov <- tissue_coverage st row col ;;
  if float_geb cov (Finite min_coverage) then
    let colored' :=
      Cv2.rectangle (colored st) (col * tile_size) (row * tile_size)
        (col * tile_size + tile_size) (row * tile_size + tile_size)
        (255, 0, 0) in
    Ok (mkTiler ColoredImage colored'
          (relevant_tiles_dict st ++
             [(tile_nb st,
               mkTile (col * tile_size) (row * tile_size) tile_size level)])
          (S (tile_nb st)))
  else Ok st.

Fixpoint tiler_cols (cols : list Z) (row : Z) (st : TilerState)
  : result TilerState :=
  match cols with
  | [] => Ok st
  | col :: cols' =>
      st' <- tiler_body row col st ;;
      tiler_cols cols' row st'
  end.

Fixpoint tiler_rows (rows : list Z) (cols : list Z) (st : TilerState)
  : result TilerState :=
  match rows with
  | [] => Ok st
  | row :: rows' =>
      st' <- tiler_cols cols row st ;;
      tiler_rows rows' cols st'
  end.

(** [divmod] raises for a tile size of zero; [cv2.cvtColor] then raises
    [cv2.error] for a mask without pixels. *)
Definition get_relevant_tiles : result (list (nat * TileDescriptor)) :=
  if tile_size =? 0 then Raise ZeroDivisionError else
  let rows := shape0 input_mask / tile_size in
  let cols := shape1 input_mask / tile_size in
  if (Np.size input_mask =? 0)%nat then Raise Cv2Error else
  st <- tiler_rows (Np.range rows) (Np.range cols)
          (tiler_init input_mask) ;;
  Ok (relevant_tiles_dict st).

(** *** The grid tiler as the specification words it

    Every full cell of the grid, in row-major order, is kept when the
    nonzero fraction of that cell in the input mask is at least
    [min_coverage]; kept cells are numbered densely from zero. *)

Definition spec_cell_coverage (row col : Z) : result Q :=
  let tile := Np.slice2d (row * tile_size) (row * tile_size + tile_size)
                (col * tile_size) (col * tile_size + tile_size)
                input_mask in
  match Np.size tile with
  | O => Raise ZeroDivisionError
  | S _ => Ok (Z.of_nat (Np.count_nonzero tile) # Pos.of_nat (Np.size tile))
  end.

Definition spec_cell_kept (cell : Z * Z) : bool :=
  match spec_cell_coverage (fst cell) (snd cell) with
  | Ok cov => Qle_bool min_coverage cov
  | Raise _ => false
  end.

Definition spec_grid_cells : list (Z * Z) :=
  list_prod (Np.range (shape0 input_mask / tile_size))
            (Np.range (shape1 input_mask / tile_size)).

Definition spec_relevant_tiles : list (nat * TileDescriptor) :=
  let kept := filter spec_cell_kept spec_grid_cells in
  combine (seq 0 (length kept))
    (map (fun cell : Z * Z =>
            mkTile (snd cell * tile_size) (fst cell * tile_size)
              tile_size level)
         kept).

End GridTiler.

(** ** Notions used to state the properties *)

(** *** Label rules *)

Definition known_operator (ty : string) : bool :=
  String.eqb ty "==" || String.eqb ty ">=" || String.eqb ty "<=".

(** The comparison of an ["=="] or [">="] rule is evaluated and is false. *)
Definition comparison_fails (p : Q) (r : LabelRule) : Prop :=
  (rule_type r = "=="%string /\ ~ (rule_threshold r == p)%Q)
  \/ (rule_type r = ">="%string /\ ~ (p <= rule_threshold r)%Q).

Definition skipped_or_fails (p : Q) (r : LabelRule) : Prop :=
  known_operator (rule_type r) = false \/ comparison_fails p r.

(** The comparison a rule stands for, as the specification words it:
    ["=="] is [threshold == p], [">="] is [threshold >= p], and ["<="] is
    the intended [p <= threshold]. *)
Definition spec_rule_holds (p : Q) (r : LabelRule) : bool :=
  if String.eqb (rule_type r) "==" then Qeq_bool (rule_threshold r) p
  else if String.eqb (rule_type r) ">=" then Qle_bool p (rule_threshold r)
  else if String.eqb (rule_type r) "<=" then Qle_bool p (rule_threshold r)
  else false.

(** The label of the first rule, in order, whose comparison holds. *)
Fixpoint spec_first_match (p : Q) (rules : LabelDict) : option string :=
  match rules with
  | [] => None
  | (label, r) :: rest =>
      if spec_rule_holds p r then Some label else spec_first_match p rest
  end.

Definition has_le_rule (rules : LabelDict) : bool :=
  existsb (fun lr => String.eqb (rule_type (snd lr)) "<=") rules.

(** *** Patch walk *)

(** The stride and the candidate count as the specification words them:
    [step = P - floor(P * o)] and [ceil(S / step)], in exact arithmetic. *)
Definition spec_grid_step (patch_size : Z) (overlap : Q) : Z :=
  patch_size - Qfloor (inject_Z patch_size * overlap).

Definition spec_candidate_steps (tile_size patch_size : Z) (overlap : Q)
  : Z :=
  Qceiling (inject_Z tile_size
            / inject_Z (spec_grid_step patch_size overlap)).

(** Index of the first candidate that reaches the tile boundary:
    the least [c] with [c * step + P >= S]. *)
Definition clamp_index (tile_size patch_size step : Z) : Z :=
  (tile_size - patch_size + step - 1) / step.

(** Flag and coordinate that one axis receives from candidate index [i]. *)
Definition clamped (tile_size patch_size step i : Z) : bool :=
  i * step + patch_size >=? tile_size.

Definition coord (tile_size patch_size step i : Z) : Z :=
  if clamped tile_size patch_size step i
  then tile_size - patch_size else i * step.

(** Coordinates visited on one axis: the unclamped candidates, then the
    clamped one. *)
Definition axis_coords (tile_size patch_size step : Z) : list Z :=
  map (fun c => c * step) (Np.range (clamp_index tile_size patch_size step))
  ++ [tile_size - patch_size].

(** Coordinates visited on one axis when [n] candidates are offered: the
    walk ends at the clamped candidate if [n] reaches it, and at the last
    candidate otherwise. *)
Definition visited_coords (tile_size patch_size step n : Z) : list Z :=
  if clamp_index tile_size patch_size step <? n
  then axis_coords tile_size patch_size step
  else map (fun c => c * step) (Np.range n).

(** What a walk has produced so far, without the loop flags. *)
Record Emitted : Type := mkEmitted {
  e_patch_nb : nat;
  e_patches : list (nat * PatchRecord);
  e_saved : list SavedPatch
}.

Definition emitted (st : WalkState) : Emitted :=
  mkEmitted (patch_nb st) (patches st) (saved st).

Definition with_flags (sx sy : bool) (e : Emitted) : WalkState :=
  mkWalk sx sy (e_patch_nb e) (e_patches e) (e_saved e).

Section Visit.

Variable np : NumPy.
Variable patch_size : Z.
Variable tile : list (list rgb).
Variable tile_annotation_mask : list (list Z).
Variable label_dict : LabelDict.
Variable file_dir : option string.
Variable slide_name : option string.
Variable tile_nb : nat.

(** Classify the patch whose top-left corner is [(x, y)] and record it
    when it receives a label. *)
Definition visit (x y : Z) (e : Emitted) : result Emitted :=
  let patch :=
    Np.slice2d y (y + patch_size) x (x + patch_size) tile in
  let patch_mask :=
    Np.slice2d y (y + patch_size) x (x + patch_size)
      tile_annotation_mask in
  label <- check_for_label np label_dict patch_mask ;;
  match label with
  | Some l =>
      Ok (mkEmitted (S (e_patch_nb e))
            (e_patches e ++
               [(e_patch_nb e, mkPatch x y patch_size l slide_name)])
            (match file_dir with
             | Some _ =>
                 e_saved e ++ [mkSaved l tile_nb (e_patch_nb e) patch]
             | None => e_saved e
             end))
  | None => Ok e
  end.

Fixpoint visit_row (xs : list Z) (y : Z) (e : Emitted) : result Emitted :=
  match xs with
  | [] => Ok e
  | x :: xs' => e' <- visit x y e ;; visit_row xs' y e'
  end.

(** Row-major visit of the grid [ys x xs]. *)
Fixpoint visit_grid (ys xs : list Z) (e : Emitted) : result Emitted :=
  match ys with
  | [] => Ok e
  | y :: ys' => e' <- visit_row xs y e ;; visit_grid ys' xs e'
  end.

End Visit.

(** A patch record of size [P] inside a tile of size [S]. *)
Definition patch_in_tile (S P : Z) (r : PatchRecord) : Prop :=
  pr_patch_size r = P
  /\ 0 <= pr_x_pos r /\ pr_x_pos r + P <= S
  /\ 0 <= pr_y_pos r /\ pr_y_pos r + P <= S.

(** Every recorded patch lies in the tile and every saved image is
    [P x P]. *)
Definition walk_inv (S P : Z) (st : WalkState) : Prop :=
  Forall (fun ir => patch_in_tile S P (snd ir)) (patches st)
  /\ Forall (fun s => Np.has_shape P P (sp_pixels s)) (saved st).

(** The region of an array that a patch record designates. *)
Definition patch_region {A : Type} (r : PatchRecord) (m : list (list A))
  : list (list A) :=
  Np.slice2d (pr_y_pos r) (pr_y_pos r + pr_patch_size r)
             (pr_x_pos r) (pr_x_pos r + pr_patch_size r) m.

(** *** Inputs used in the examples *)

(** A mask of [h] rows and [w] columns, every pixel set. *)
Definition full_mask (h w : Z) : list (list Z) :=
  repeat (repeat 255 (Z.to_nat w)) (Z.to_nat h).

(** Two tiles wide, the left one set and the right one empty. *)
Definition left_half_mask (h w : Z) : list (list Z) :=
  repeat (repeat 255 (Z.to_nat w) ++ repeat 0 (Z.to_nat w)) (Z.to_nat h).

(** 100x100 with only the top-left 50x50 quadrant set. *)
Definition top_left_quadrant_mask : list (list Z) :=
  repeat (repeat 255 50%nat ++ repeat 0 50%nat) 50%nat ++ Np.zeros 50 100.

(** A rule set that labels every patch. *)
Definition accept_all : LabelDict := [("any"%string, mkRule ">=" 1)].

(** A 5x5 tile walked with patch size 3 and no overlap, every patch
    labelled and saved. *)
Definition example_walk : result WalkState :=
  rows_loop NumPy1 5 3 (grid_step 3 0) (Cv2.gray2rgb (Np.zeros 5 5))
    (Np.zeros 5 5)
    accept_all (Some "out"%string) None 0 (Np.range 2) (Np.range 2)
    (walk_init []).

Definition example_walk_state : WalkState :=
  Eval vm_compute in
    match example_walk with
    | Ok st => st
    | Raise _ => walk_init []
    end.

(** *** Grid tiler *)

(** A descriptor of the full grid cell [(row, col)]. *)
Definition is_grid_cell (tile_size level rows cols : Z)
  (td : TileDescriptor) : Prop :=
  exists row col : Z,
    0 <= row < rows /\ 0 <= col < cols
    /\ td = mkTile (col * tile_size) (row * tile_size) tile_size level.

(** Tiles are numbered densely and each describes a full grid cell. *)
Definition tiler_inv (tile_size level rows cols : Z) (st : TilerState)
  : Prop :=
  map fst (relevant_tiles_dict st) = seq 0 (tile_nb st)
  /\ Forall (fun ir => is_grid_cell tile_size level rows cols (snd ir))
            (relevant_tiles_dict st).

(** *** Records of a walk *)

(** Positions [(x, y)] of the grid [ys x xs] in row-major order. *)
Definition grid_positions (ys xs : list Z) : list (Z * Z) :=
  flat_map (fun y => map (fun x => (x, y)) xs) ys.

(** Records of size [P] with one label at the given positions, numbered
    from [start]. *)
Definition records_at (P : Z) (label : string) (slide_name : option string)
  (start : nat) (pos : list (Z * Z)) : list (nat * PatchRecord) :=
  combine (seq start (length pos))
    (map (fun xy => mkPatch (fst xy) (snd xy) P label slide_name) pos).

(** The image file that belongs to a numbered record. *)
Definition saved_of (tile : list (list rgb)) (tile_nb : nat)
  (ir : nat * PatchRecord) : SavedPatch :=
  mkSaved (pr_label (snd ir)) tile_nb (fst ir) (patch_region (snd ir) tile).

(** Records are numbered densely from zero, and the saved images are those
    of the records, in order (none when no directory is given). *)
Definition emitted_consistent (tile : list (list rgb)) (tile_nb : nat)
  (file_dir : option string) (e : Emitted) : Prop :=
  map fst (e_patches e) = seq 0 (e_patch_nb e)
  /\ e_saved e = match file_dir with
                 | Some _ => map (saved_of tile tile_nb) (e_patches e)
                 | None => []
                 end.

Section VisitList.

Variable np : NumPy.
Variable patch_size : Z.
Variable tile : list (list rgb).
Variable tile_annotation_mask : list (list Z).
Variable label_dict : LabelDict.
Variable file_dir : option string.
Variable slide_name : option string.
Variable tile_nb : nat.

(** [visit] along a list of positions. *)
Fixpoint visit_list (pos : list (Z * Z)) (e : Emitted) : result Emitted :=
  match pos with
  | [] => Ok e
  | xy :: pos' =>
      e' <- visit np patch_size tile tile_annotation_mask label_dict file_dir
              slide_name tile_nb (fst xy) (snd xy) e ;;
      visit_list pos' e'
  end.

(** The answer of the classifier for the patch at a position. *)
Definition label_at (xy : Z * Z) : result (option string) :=
  check_for_label np label_dict
    (Np.slice2d (snd xy) (snd xy + patch_size) (fst xy)
       (fst xy + patch_size) tile_annotation_mask).

End VisitList.

(** The effect of visiting a position whose patch receives label [l]. *)
Definition record_labelled (P : Z) (tile : list (list rgb))
  (file_dir slide_name : option string) (tile_nb : nat) (l : string)
  (e : Emitted) (xy : Z * Z) : Emitted :=
  mkEmitted (S (e_patch_nb e))
    (e_patches e ++
       [(e_patch_nb e, mkPatch (fst xy) (snd xy) P l slide_name)])
    (match file_dir with
     | Some _ =>
         e_saved e ++
           [mkSaved l tile_nb (e_patch_nb e)
              (Np.slice2d (snd xy) (snd xy + P) (fst xy) (fst xy + P) tile)]
     | None => e_saved e
     end).

(** A mask without any annotated pixel. *)
Definition all_zero (m : list (list Z)) : Prop :=
  Forall (Forall (fun v => v = 0)) m.

(** A position whose [P x P] patch lies inside a tile of size [S]. *)
Definition in_tile (S P : Z) (xy : Z * Z) : Prop :=
  0 <= fst xy /\ fst xy + P <= S /\ 0 <= snd xy /\ snd xy + P <= S.

(** Position and size stored in an entry of [patch_dict]. *)
Definition entry_header (entry : TileEntry) : Z * Z * Z :=
  (te_x_pos entry, te_y_pos entry, te_size entry).

(** The patches of an entry are numbered densely from zero. *)
Definition densely_numbered (entry : TileEntry) : Prop :=
  map fst (te_patches entry) = seq 0 (length (te_patches entry)).

(** *** Grid cells and tiles *)

(** 10x10 with only the first row set: one tenth of the pixels. *)
Definition tenth_mask : list (list Z) := full_mask 1 10 ++ Np.zeros 9 10.

(** The descriptor the tiler makes for the cell [(row, col)]. *)
Definition cell_descriptor (tile_size level : Z) (cell : Z * Z)
  : TileDescriptor :=
  mkTile (snd cell * tile_size) (fst cell * tile_size) tile_size level.

(** Row-major order of cells and of tiles. *)
Definition cell_before (c1 c2 : Z * Z) : Prop :=
  fst c1 < fst c2 \/ (fst c1 = fst c2 /\ snd c1 < snd c2).

Definition tile_before (a b : TileDescriptor) : Prop :=
  td_y a < td_y b \/ (td_y a = td_y b /\ td_x a < td_x b).

(** The squares of two tiles share no pixel. *)
Definition tiles_disjoint (a b : TileDescriptor) : Prop :=
  td_x a + td_size a <= td_x b \/ td_x b + td_size b <= td_x a
  \/ td_y a + td_size a <= td_y b \/ td_y b + td_size b <= td_y a.

(** A tile of the requested size and level, aligned to the grid and inside
    a mask of [h] rows and [w] columns. *)
Definition tile_in_mask (tile_size level h w : Z) (td : TileDescriptor)
  : Prop :=
  td_size td = tile_size /\ td_level td = level /\ 0 < tile_size
  /\ 0 <= td_x td /\ td_x td + tile_size <= w
  /\ 0 <= td_y td /\ td_y td + tile_size <= h
  /\ td_x td mod tile_size = 0 /\ td_y td mod tile_size = 0.

(** The float coverage of the cell [(row, col)] of the input mask, as the
    tiler computes it while [tissue_mask] still names that mask, and
    whether it reaches [min_coverage]. *)
Definition input_coverage (np : NumPy) (input_mask : list (list Z))
  (tile_size row col : Z) : result PyFloat :=
  let tile := Np.slice2d (row * tile_size) (row * tile_size + tile_size)
                (col * tile_size) (col * tile_size + tile_size)
                input_mask in
  true_div np (Np.count_nonzero tile) (Np.size tile).

Definition input_cell_kept (np : NumPy) (input_mask : list (list Z))
  (tile_size : Z) (min_coverage : Q) (cell : Z * Z) : bool :=
  match input_coverage np input_mask tile_size (fst cell) (snd cell) with
  | Ok cov => float_geb cov (Finite min_coverage)
  | Raise _ => false
  end.

(** The cells kept on the input mask, numbered from zero. *)
Definition kept_on_input (np : NumPy) (input_mask : list (list Z))
  (tile_size : Z) (min_coverage : Q) (level : Z)
  : list (nat * TileDescriptor) :=
  let kept := filter (input_cell_kept np input_mask tile_size min_coverage)
                (spec_grid_cells input_mask tile_size) in
  combine (seq 0 (length kept))
    (map (cell_descriptor tile_size level) kept).

Section TilerCells.

Variable np : NumPy.
Variable input_mask : list (list Z).
Variable tile_size : Z.
Variable min_coverage : Q.
Variable level : Z.

(** The body of the tiler along a list of cells [(row, col)]. *)
Fixpoint tiler_cells (cells : list (Z * Z)) (st : TilerState)
  : result TilerState :=
  match cells with
  | [] => Ok st
  | cell :: cells' =>
      st' <- tiler_body np input_mask tile_size min_coverage level
               (fst cell) (snd cell) st ;;
      tiler_cells cells' st'
  end.

End TilerCells.

(** *** One slide: tiles, then patches *)

Section SlidePatches.

Variable np : NumPy.
Variable level_downsample : Q.
Variable read_region : Z -> Z -> Z -> list (list rgb).
Variable fillPoly : list (list Z) -> list (Q * Q) -> list (list Z).

(** The two calls at the heart of [slides2patches]: the tiles of the tissue
    mask are handed to [extract_patches] together with the level the mask
    was made at. *)
Definition slide_patches (mask : list (list Z)) (tile_size : Z)
  (tissue_coverage : Q) (level : Z) (annotations : list (list (Q * Q)))
  (label_dict : LabelDict) (overlap : Q) (patch_size : Z)
  (output_path : option string) (slide_name : string)
  : result (list (nat * TileEntry) * list SavedPatch) :=
  tile_dict <- get_relevant_tiles np mask tile_size tissue_coverage level ;;
  extract_patches np level_downsample read_region fillPoly annotations
    label_dict overlap patch_size output_path (Some slide_name) tile_dict.

End SlidePatches.

(** Square regions [(x, y, size)] that share no pixel. *)
Definition regions_disjoint (a b : Z * Z * Z) : Prop :=
  let '(xa, ya, sa) := a in
  let '(xb, yb, sb) := b in
  xa + sa <= xb \/ xb + sb <= xa \/ ya + sa <= yb \/ yb + sb <= ya.

(** A square region inside an image of [h] rows and [w] columns. *)
Definition region_inside (h w : Z) (a : Z * Z * Z) : Prop :=
  let '(x, y, s) := a in
  0 <= x /\ x + s <= w /\ 0 <= y /\ y + s <= h.

(** ** Annotation loading: [WSIHandler.load_annotation] *)

Module Annot.

#[local] Set Warnings "-register-all".

(** Exceptions of the loader. *)
Inductive error : Type :=
| KeyError
| IndexError
| TypeError
| ValueError.

Inductive attempt (A : Type) : Type :=
| Done (a : A)
| Fail (e : error).
Arguments Done {A} a.
Arguments Fail {A} e.

Definition and_then {A B : Type} (r : attempt A) (k : A -> attempt B)
  : attempt B :=
  match r with
  | Done a => k a
  | Fail e => Fail e
  end.

Fixpoint traverse {A B : Type} (f : A -> attempt B) (l : list A)
  : attempt (list B) :=
  match l with
  | [] => Done []
  | a :: l' =>
      and_then (f a) (fun b =>
      and_then (traverse f l') (fun bs => Done (b :: bs)))
  end.

(** Values as [json.load] returns them; the polygons built from an XML file
    are lists of two-element lists of floats and live in the same type. *)
Inductive Json : Type :=
| JNull
| JBool (b : bool)
| JNum (q : Q)
| JStr (s : string)
| JList (l : list Json)
| JDict (d : list (string * Json)).

Fixpoint assoc_get {V : Type} (key : string) (d : list (string * V))
  : option V :=
  match d with
  | [] => None
  | (k, v) :: d' => if String.eqb k key then Some v else assoc_get key d'
  end.

(** [x[key]] for a string key. *)
Definition get_key (key : string) (x : Json) : attempt Json :=
  match x with
  | JDict d =>
      match assoc_get key d with
      | Some v => Done v
      | None => Fail KeyError
      end
  | _ => Fail TypeError
  end.

(** [len(x)] *)
Definition json_len (x : Json) : attempt nat :=
  match x with
  | JDict d => Done (length d)
  | JList l => Done (length l)
  | JStr s => Done (String.length s)
  | _ => Fail TypeError
  end.

(** [x[i]] for a non-negative integer [i]. *)
Definition get_index (i : nat) (x : Json) : attempt Json :=
  match x with
  | JList l =>
      match nth_error l i with
      | Some v => Done v
      | None => Fail IndexError
      end
  | JStr s =>
      match String.get i s with
      | Some c => Done (JStr (String c EmptyString))
      | None => Fail IndexError
      end
  | JDict _ => Fail KeyError
  | _ => Fail TypeError
  end.

(** [annotation_dict]: polygon number mapped to polygon, in insertion
    order. *)
Definition AnnotationDict : Type := list (nat * Json).

(** [d[k] = v] and [d.update({k: v})]: an existing key keeps its place. *)
Fixpoint dict_set (k : nat) (v : Json) (d : AnnotationDict)
  : AnnotationDict :=
  match d with
  | [] => [(k, v)]
  | (k', v') :: d' =>
      if Nat.eqb k' k then (k, v) :: d' else (k', v') :: dict_set k v d'
  end.

(** *** The GeoJSON branch *)

(** [annotations["features"][polygon_nb]["geometry"]["coordinates"][0]] *)
Definition feature_ring (annotations : Json) (polygon_nb : nat)
  : attempt Json :=
  and_then (get_key "features" annotations) (fun features =>
  and_then (get_index polygon_nb features) (fun feature =>
  and_then (get_key "geometry" feature) (fun geometry =>
  and_then (get_key "coordinates" geometry) (fun coordinates =>
  get_index 0 coordinates)))).

(** [for polygon_nb in range(...)] *)
Fixpoint features_loop (annotations : Json) (numbers : list nat)
  (annotation_dict : AnnotationDict) : attempt AnnotationDict :=
  match numbers with
  | [] => Done annotation_dict
  | polygon_nb :: rest =>
      and_then (feature_ring annotations polygon_nb) (fun ring =>
      features_loop annotations rest
        (dict_set polygon_nb ring annotation_dict))
  end.

Definition load_geojson (annotations : Json) : attempt AnnotationDict :=
  and_then (get_key "features" annotations) (fun features =>
  and_then (json_len features) (fun n =>
  features_loop annotations (seq 0 n) [])).

(** *** The XML branch *)

(** An element: its attributes and its children. *)
Inductive Element : Type :=
| Elem (attrib : list (string * string)) (children : list Element).

Definition attrib (e : Element) : list (string * string) :=
  match e with Elem a _ => a end.

Definition children (e : Element) : list Element :=
  match e with Elem _ c => c end.

Section Xml.

(** [float(s)]: the finite number a string denotes; [None] stands for the
    [ValueError] of a string that denotes none. *)
Variable parse_float : string -> option Q.

(** [float(coord.attrib[name])] *)
Definition float_attrib (name : string) (coord : Element) : attempt Json :=
  match assoc_get name (attrib coord) with
  | None => Fail KeyError
  | Some s =>
      match parse_float s with
      | Some q => Done (JNum q)
      | None => Fail ValueError
      end
  end.

(** [[float(coord.attrib['X']), float(coord.attrib['Y'])]] *)
Definition coord_point (coord : Element) : attempt Json :=
  and_then (float_attrib "X" coord) (fun x =>
  and_then (float_attrib "Y" coord) (fun y =>
  Done (JList [x; y]))).

(** [polygon_list] of a polygon element: the points of all children of all
    its children. *)
Definition polygon_list (subelem : Element) : attempt Json :=
  and_then (traverse coord_point (flat_map children (children subelem)))
    (fun points => Done (JList points)).

(** ["Type" in items.keys()] and [items["Type"] == "Polygon"] *)
Definition is_polygon (subelem : Element) : bool :=
  match assoc_get "Type" (attrib subelem) with
  | Some ty => String.eqb ty "Polygon"
  | None => false
  end.

(** [for subelem in elem] *)
Fixpoint subelems_loop (subelems : list Element) (polygon_nb : nat)
  (annotation_dict : AnnotationDict) : attempt (nat * AnnotationDict) :=
  match subelems with
  | [] => Done (polygon_nb, annotation_dict)
  | subelem :: rest =>
      if is_polygon subelem then
        and_then (polygon_list subelem) (fun polygon =>
        subelems_loop rest (S polygon_nb)
          (dict_set polygon_nb polygon annotation_dict))
      else subelems_loop rest polygon_nb annotation_dict
  end.

(** [for elem in root], with [polygon_nb = 0] at the start of each turn. *)
Fixpoint elems_loop (elems : list Element)
  (annotation_dict : AnnotationDict) : attempt AnnotationDict :=
  match elems with
  | [] => Done annotation_dict
  | elem :: rest =>
      and_then (subelems_loop (children elem) 0 annotation_dict)
        (fun r => elems_loop rest (snd r))
  end.

Definition load_xml (root : Element) : attempt AnnotationDict :=
  elems_loop (children root) [].

(** The polygons of one top-level element, in document order. *)
Definition element_polygons (elem : Element) : attempt (list Json) :=
  traverse polygon_list (filter is_polygon (children elem)).

End Xml.

(** [feature["geometry"]["coordinates"][0]]: the first ring of a
    feature. *)
Definition outer_ring (feature : Json) : attempt Json :=
  and_then (get_key "geometry" feature) (fun geometry =>
  and_then (get_key "coordinates" geometry) (fun coordinates =>
  get_index 0 coordinates)).

(** [d[k] = v] on the list of values of a densely numbered dictionary. *)
Definition put (k : nat) (v : Json) (vs : list Json) : list Json :=
  firstn k vs ++ v :: skipn (S k) vs.

(** [s.endswith(suffix)] *)
Definition ends_with (s suffix : string) : bool :=
  (String.length suffix <=? String.length s)%nat
  && String.eqb
       (substring (String.length s - String.length suffix)
          (String.length suffix) s)
       suffix.

Section Load.

Variable parse_float : string -> option Q.
(** [json.load] of the file at a path, and the root of [ET.parse]. *)
Variable json_load : string -> Json.
Variable xml_root : string -> Element.

(** The result is [None] for an unknown file format. *)
Definition load_annotation (annotation_path : string)
  : attempt (option AnnotationDict) :=
  if ends_with annotation_path ".geojson" then
    and_then (load_geojson (json_load annotation_path))
      (fun d => Done (Some d))
  else if ends_with annotation_path ".xml" then
    and_then (load_xml parse_float (xml_root annotation_path))
      (fun d => Done (Some d))
  else Done None.

End Load.

(** Polygons numbered from zero. *)
Definition numbered (polygons : list Json) : AnnotationDict :=
  combine (seq 0 (length polygons)) polygons.

(** New polygons replace the old ones of the same numbers. *)
Definition overwrite (old new : list Json) : list Json :=
  new ++ skipn (length new) old.

End Annot.

(** *** Small annotation files for the examples *)

Module AnnotExample.

Import Annot.

(** A coordinate element with [X] and [Y] attributes. *)
Definition vertex (x y : string) : Element :=
  Elem [("X"%string, x); ("Y"%string, y)] [].

(** A polygon element with one list of coordinates. *)
Definition polygon (vertices : list Element) : Element :=
  Elem [("Type"%string, "Polygon"%string)] [Elem [] vertices].

(** [float] on the digits these examples use. *)
Definition digit_float (s : string) : option Q :=
  if String.eqb s "1" then Some 1%Q
  else if String.eqb s "2" then Some 2%Q
  else if String.eqb s "3" then Some 3%Q
  else None.

(** Two annotation groups: the first with two polygons, the second with
    one. *)
Definition two_groups : Element :=
  Elem []
    [Elem [] [polygon [vertex "1" "1"]; polygon [vertex "2" "2"]];
     Elem [] [polygon [vertex "3" "3"]]].

Definition point (x y : Q) : Json := JList [JNum x; JNum y].

(** A feature collection with two polygons, the second with a hole. *)
Definition two_features : list (string * Json) :=
  [("type"%string, JStr "FeatureCollection");
   ("features"%string,
    JList
      [JDict [("geometry"%string,
               JDict [("coordinates"%string, JList [JList [point 1 1]])])];
       JDict [("geometry"%string,
               JDict [("coordinates"%string,
                       JList [JList [point 2 2]; JList [point 3 3]])])]])].

End AnnotExample.
(** * Properties *)

(** ** Comparisons of rationals *)

Lemma Qeq_bool_false (x y : Q) : ~ (x == y)%Q -> Qeq_bool x y = false.
Proof.
  intros H. destruct (Qeq_bool x y) eqn:E; [| reflexivity].
  apply Qeq_bool_iff in E. contradiction.
Qed.

Lemma Qle_bool_false (x y : Q) : ~ (x <= y)%Q -> Qle_bool x y = false.
Proof.
  intros H. destruct (Qle_bool x y) eqn:E; [| reflexivity].
  apply Qle_bool_iff in E. contradiction.
Qed.

(** ** Rounding to binary64 *)

Lemma round_half_even_comp (p q : Q) :
  (p == q)%Q -> Binary64.round_half_even p = Binary64.round_half_even q.
Proof.
  intros H. unfold Binary64.round_half_even.
  rewrite (Qfloor_comp _ _ H).
  assert (E : (p - inject_Z (Qfloor q) == q - inject_Z (Qfloor q))%Q)
    by (rewrite H; reflexivity).
  rewrite (Qcompare_comp _ _ E _ _ (Qeq_refl (1 # 2))). reflexivity.
Qed.

Lemma round_half_even_ge (x : Q) (K : Z) :
  (inject_Z K <= x)%Q -> K <= Binary64.round_half_even x.
Proof.
  intros H. unfold Binary64.round_half_even.
  assert (Hf : K <= Qfloor x).
  { rewrite <- (Qfloor_Z K). apply Qfloor_resp_le, H. }
  destruct (_ ?= _)%Q; [destruct (Z.even _) |..]; lia.
Qed.

Lemma round_half_even_le (x : Q) (K : Z) :
  (x <= inject_Z K)%Q -> Binary64.round_half_even x <= K.
Proof.
  intros H. unfold Binary64.round_half_even.
  assert (Hf : Qfloor x <= K).
  { rewrite <- (Qfloor_Z K). apply Qfloor_resp_le, H. }
  assert (Hup : (0 < x - inject_Z (Qfloor x))%Q -> Qfloor x + 1 <= K).
  { intros Hr. apply Z.le_succ_l. apply Z.le_neq. split; [exact Hf |].
    intros E. rewrite E in Hr.
    apply (Qlt_not_le _ _ Hr). apply Qle_minus_iff in H.
    setoid_replace (x - inject_Z K)%Q with (- (inject_Z K + - x))%Q by ring.
    apply (Qopp_le_compat 0) in H. exact H. }
  destruct (_ ?= _)%Q eqn:E.
  - apply Qeq_alt in E. destruct (Z.even _); [exact Hf |].
    apply Hup. rewrite E. reflexivity.
  - exact Hf.
  - apply Qgt_alt in E. apply Hup.
    apply Qlt_trans with (1 # 2)%Q; [reflexivity | exact E].
Qed.

Lemma Qle_bool_comp_r (t p q : Q) :
  (p == q)%Q -> Qle_bool t p = Qle_bool t q.
Proof.
  intros E. destruct (Qle_bool t p) eqn:H1, (Qle_bool t q) eqn:H2;
    try reflexivity.
  - apply Qle_bool_iff in H1. rewrite E in H1. apply Qle_bool_iff in H1.
    congruence.
  - apply Qle_bool_iff in H2. rewrite <- E in H2. apply Qle_bool_iff in H2.
    congruence.
Qed.

Lemma ilog2_comp (p q : Q) :
  (p == q)%Q -> Binary64.ilog2 p = Binary64.ilog2 q.
Proof.
  intros H. unfold Binary64.ilog2.
  rewrite (Qle_bool_comp_r 1 _ _ H), (Qfloor_comp _ _ H).
  rewrite (Qceiling_comp (/ p) (/ q)) by (rewrite H; reflexivity).
  reflexivity.
Qed.

Lemma scale_down_comp (p q : Q) (e : Z) :
  (p == q)%Q -> (Binary64.scale_down p e == Binary64.scale_down q e)%Q.
Proof.
  intros H. unfold Binary64.scale_down.
  destruct (0 <=? e); rewrite H; reflexivity.
Qed.

Lemma round_pos_comp (p q : Q) :
  (p == q)%Q -> Binary64.round_pos p = Binary64.round_pos q.
Proof.
  intros H. unfold Binary64.round_pos, Binary64.ulp_exponent.
  rewrite (ilog2_comp _ _ H).
  rewrite (round_half_even_comp _ _ (scale_down_comp _ _ _ H)).
  reflexivity.
Qed.

(** Equal rationals round to the same number. *)
Lemma round64_comp (p q : Q) : (p == q)%Q -> round64 p = round64 q.
Proof.
  intros H. unfold round64, Binary64.round.
  rewrite (Qcompare_comp _ _ H _ _ (Qeq_refl 0)).
  rewrite (round_pos_comp _ _ H).
  rewrite (round_pos_comp (- p) (- q)) by (rewrite H; reflexivity).
  reflexivity.
Qed.

Lemma pow2_pos (e : Z) : 0 <= e -> (0 < inject_Z (2 ^ e))%Q.
Proof.
  intros H. change 0%Q with (inject_Z 0). rewrite <- Zlt_Qlt.
  apply Z.pow_pos_nonneg; lia.
Qed.

Lemma scale_down_nonpos (q : Q) (e : Z) :
  e <= 0 -> (Binary64.scale_down q e == q * inject_Z (2 ^ (- e)))%Q.
Proof.
  intros H. unfold Binary64.scale_down.
  destruct (Z.leb_spec 0 e); [| reflexivity].
  replace e with 0 by lia. cbn. field.
Qed.

Lemma scale_up_nonpos (m e : Z) :
  e <= 0 -> (Binary64.scale_up m e == inject_Z m / inject_Z (2 ^ (- e)))%Q.
Proof.
  intros H. unfold Binary64.scale_up.
  destruct (Z.leb_spec 0 e); [| reflexivity].
  replace e with 0 by lia. cbn. rewrite Z.mul_1_r. field.
Qed.

Lemma ulp_exponent_small (q : Q) (N : Z) :
  N < 2 ^ 53 -> (q <= inject_Z N)%Q -> Binary64.ulp_exponent q <= 0.
Proof.
  intros HN Hq. unfold Binary64.ulp_exponent, Binary64.ilog2.
  destruct (Qle_bool 1 q) eqn:E.
  - apply Qle_bool_iff in E.
    assert (H1 : 1 <= Qfloor q).
    { rewrite <- (Qfloor_Z 1). apply Qfloor_resp_le, E. }
    assert (H2 : Qfloor q <= N).
    { rewrite <- (Qfloor_Z N). apply Qfloor_resp_le, Hq. }
    assert (Z.log2 (Qfloor q) < 53) by (apply Z.log2_lt_pow2; lia).
    lia.
  - pose proof (Z.log2_up_nonneg (Qceiling (/ q))). lia.
Qed.

Lemma ulp_exponent_large (q : Q) :
  0 < Binary64.ulp_exponent q ->
  (inject_Z (2 ^ (52 + Binary64.ulp_exponent q)) <= q)%Q.
Proof.
  unfold Binary64.ulp_exponent, Binary64.ilog2.
  destruct (Qle_bool 1 q) eqn:E.
  - apply Qle_bool_iff in E. intros He.
    assert (H1 : 1 <= Qfloor q).
    { rewrite <- (Qfloor_Z 1). apply Qfloor_resp_le, E. }
    replace (52 + Z.max (Z.log2 (Qfloor q) - 52) (-1074))
      with (Z.log2 (Qfloor q)) by lia.
    apply Qle_trans with (inject_Z (Qfloor q)); [| apply Qfloor_le].
    rewrite <- Zle_Qle. apply Z.log2_spec. lia.
  - pose proof (Z.log2_up_nonneg (Qceiling (/ q))). lia.
Qed.

Lemma round_pos_nonneg (q : Q) : (0 <= q)%Q -> (0 <= Binary64.round_pos q)%Q.
Proof.
  intros Hq. unfold Binary64.round_pos.
  set (e := Binary64.ulp_exponent q).
  assert (Hx : (0 <= Binary64.scale_down q e)%Q).
  { unfold Binary64.scale_down. destruct (Z.leb_spec 0 e).
    - apply Qle_shift_div_l; [apply pow2_pos; lia |].
      rewrite Qmult_0_l. exact Hq.
    - apply Qmult_le_0_compat; [exact Hq |].
      apply Qlt_le_weak, pow2_pos. lia. }
  pose proof (round_half_even_ge _ 0 Hx) as Hm.
  unfold Binary64.scale_up. destruct (Z.leb_spec 0 e).
  - change 0%Q with (inject_Z 0). rewrite <- Zle_Qle.
    apply Z.mul_nonneg_nonneg; [exact Hm |]. apply Z.pow_nonneg. lia.
  - apply Qle_shift_div_l; [apply pow2_pos; lia |].
    rewrite Qmult_0_l. change 0%Q with (inject_Z 0). rewrite <- Zle_Qle.
    exact Hm.
Qed.

Lemma round_pos_le_int (q : Q) (N : Z) :
  N < 2 ^ 53 -> (q <= inject_Z N)%Q ->
  (Binary64.round_pos q <= inject_Z N)%Q.
Proof.
  intros HN Hq. unfold Binary64.round_pos.
  pose proof (ulp_exponent_small q N HN Hq) as He.
  set (e := Binary64.ulp_exponent q) in *.
  assert (Hp : (0 < inject_Z (2 ^ (- e)))%Q) by (apply pow2_pos; lia).
  rewrite scale_up_nonpos by exact He.
  apply Qle_shift_div_r; [exact Hp |].
  rewrite <- inject_Z_mult, <- Zle_Qle.
  apply round_half_even_le.
  rewrite scale_down_nonpos by exact He.
  rewrite inject_Z_mult.
  apply Qmult_le_compat_r; [exact Hq | apply Qlt_le_weak, Hp].
Qed.

(** Rounding does not go below a number [M * 2^j] with [M < 2^53] that
    the argument reaches. *)
Lemma round_pos_ge_scaled (q : Q) (M j : Z) :
  0 <= j -> M < 2 ^ 53 -> (inject_Z (M * 2 ^ j) <= q)%Q ->
  (inject_Z (M * 2 ^ j) <= Binary64.round_pos q)%Q.
Proof.
  intros Hj HM Hq. unfold Binary64.round_pos.
  set (e := Binary64.ulp_exponent q).
  assert (Hpj : 0 < 2 ^ j) by (apply Z.pow_pos_nonneg; lia).
  destruct (Z.le_gt_cases e 0) as [He | He].
  - assert (Hp : (0 < inject_Z (2 ^ (- e)))%Q) by (apply pow2_pos; lia).
    rewrite scale_up_nonpos by exact He.
    apply Qle_shift_div_l; [exact Hp |].
    rewrite <- inject_Z_mult, <- Zle_Qle.
    apply round_half_even_ge.
    rewrite scale_down_nonpos by exact He.
    rewrite inject_Z_mult.
    apply Qmult_le_compat_r; [exact Hq | apply Qlt_le_weak, Hp].
  - assert (Hp : (0 < inject_Z (2 ^ e))%Q) by (apply pow2_pos; lia).
    assert (Hpe : 0 < 2 ^ e) by (apply Z.pow_pos_nonneg; lia).
    unfold Binary64.scale_up, Binary64.scale_down.
    destruct (Z.leb_spec 0 e); [| lia].
    rewrite <- Zle_Qle.
    destruct (Z.le_gt_cases e j) as [Hej | Hej].
    + assert (Hm : M * 2 ^ (j - e)
                   <= Binary64.round_half_even (q / inject_Z (2 ^ e))).
      { apply round_half_even_ge.
        apply Qle_shift_div_l; [exact Hp |].
        rewrite <- inject_Z_mult, <- Z.mul_assoc, <- Z.pow_add_r by lia.
        replace (j - e + e) with j by lia. exact Hq. }
      replace (2 ^ j) with (2 ^ (j - e) * 2 ^ e)
        by (rewrite <- Z.pow_add_r by lia; f_equal; lia).
      nia.
    + pose proof (ulp_exponent_large q He) as Hl. fold e in Hl.
      assert (Hm : 2 ^ 52
                   <= Binary64.round_half_even (q / inject_Z (2 ^ e))).
      { apply round_half_even_ge.
        apply Qle_shift_div_l; [exact Hp |].
        rewrite <- inject_Z_mult, <- Z.pow_add_r by lia. exact Hl. }
      assert (H2 : 2 * 2 ^ j <= 2 ^ e).
      { change (2 * 2 ^ j) with (2 ^ 1 * 2 ^ j).
        rewrite <- Z.pow_add_r by lia. apply Z.pow_le_mono_r; lia. }
      change (2 ^ 53) with (2 ^ 52 * 2) in HM.
      destruct (Z.le_gt_cases M 0); nia.
Qed.

Lemma round_pos_ge_int (q : Q) (N : Z) :
  N < 2 ^ 53 -> (inject_Z N <= q)%Q ->
  (inject_Z N <= Binary64.round_pos q)%Q.
Proof.
  intros HN Hq.
  pose proof (round_pos_ge_scaled q N 0 ltac:(lia) HN) as H.
  change (2 ^ 0) with 1 in H. rewrite Z.mul_1_r in H. auto.
Qed.

Lemma round64_0 : round64 0 = 0%Q.
Proof. reflexivity. Qed.

Lemma round64_opp (q : Q) : (round64 (- q) == - round64 q)%Q.
Proof.
  unfold round64, Binary64.round.
  destruct (Qcompare_spec q 0) as [E | E | E].
  - rewrite (proj2 (Qeq_alt (- q) 0)) by (rewrite E; reflexivity).
    reflexivity.
  - rewrite (proj1 (Qgt_alt (- q) 0)).
    + rewrite Qopp_involutive. reflexivity.
    + apply (Qopp_lt_compat q 0), E.
  - rewrite (proj1 (Qlt_alt (- q) 0)).
    + rewrite (round_pos_comp (- - q) q) by apply Qopp_involutive.
      reflexivity.
    + apply (Qopp_lt_compat 0 q), E.
Qed.

Lemma round64_nonneg (q : Q) : (0 <= q)%Q -> (0 <= round64 q)%Q.
Proof.
  intros H. unfold round64, Binary64.round.
  destruct (Qcompare_spec q 0) as [E | E | E].
  - apply Qle_refl.
  - exfalso. apply (Qlt_not_le _ _ E), H.
  - apply round_pos_nonneg, H.
Qed.

Lemma round64_nonpos (q : Q) : (q <= 0)%Q -> (round64 q <= 0)%Q.
Proof.
  intros H. apply (Qopp_le_compat q 0) in H.
  apply round64_nonneg in H. rewrite round64_opp in H.
  apply (Qopp_le_compat 0) in H. rewrite Qopp_involutive in H. exact H.
Qed.

(** Rounding does not cross an integer below [2^53]. *)
Lemma round64_le_int (q : Q) (N : Z) :
  0 <= N < 2 ^ 53 -> (q <= inject_Z N)%Q -> (round64 q <= inject_Z N)%Q.
Proof.
  intros HN Hq.
  assert (H0 : (0 <= inject_Z N)%Q)
    by (change 0%Q with (inject_Z 0); rewrite <- Zle_Qle; lia).
  unfold round64, Binary64.round.
  destruct (Qcompare_spec q 0) as [E | E | E].
  - exact H0.
  - apply Qle_trans with 0%Q; [| exact H0].
    apply (Qopp_le_compat 0). apply round_pos_nonneg.
    apply (Qopp_le_compat q 0), Qlt_le_weak, E.
  - apply round_pos_le_int; [lia | exact Hq].
Qed.

Lemma round64_ge_int (q : Q) (N : Z) :
  0 <= N < 2 ^ 53 -> (inject_Z N <= q)%Q -> (inject_Z N <= round64 q)%Q.
Proof.
  intros HN Hq.
  assert (H0 : (0 <= inject_Z N)%Q)
    by (change 0%Q with (inject_Z 0); rewrite <- Zle_Qle; lia).
  unfold round64, Binary64.round.
  destruct (Qcompare_spec q 0) as [E | E | E].
  - rewrite <- E. exact Hq.
  - exfalso. apply (Qlt_not_le _ _ E). apply Qle_trans with (inject_Z N); auto.
  - apply round_pos_ge_int; [lia | exact Hq].
Qed.

(** Integers of magnitude below [2^53] are binary64 numbers. *)
Lemma round64_int (z : Z) :
  Z.abs z < 2 ^ 53 -> (round64 (inject_Z z) == inject_Z z)%Q.
Proof.
  intros Hz. destruct (Z.le_gt_cases 0 z) as [H | H].
  - apply Qle_antisym.
    + apply round64_le_int; [lia | apply Qle_refl].
    + apply round64_ge_int; [lia | apply Qle_refl].
  - assert (E : (inject_Z z == - inject_Z (- z))%Q).
    { rewrite inject_Z_opp, Qopp_involutive. reflexivity. }
    rewrite (round64_comp _ _ E), round64_opp, E.
    assert (E' : (round64 (inject_Z (- z)) == inject_Z (- z))%Q);
      [| rewrite E'; reflexivity].
    apply Qle_antisym.
    + apply round64_le_int; [lia | apply Qle_refl].
    + apply round64_ge_int; [lia | apply Qle_refl].
Qed.

(** A number of at least [2^-53] does not round to zero. *)
Lemma round64_pos (q : Q) : (1 # 2 ^ 53 <= q)%Q -> (0 < round64 q)%Q.
Proof.
  intros Hq.
  assert (Hq0 : (0 < q)%Q) by (eapply Qlt_le_trans; [| exact Hq]; reflexivity).
  destruct (Qlt_le_dec q 1) as [H1 | H1].
  - unfold round64, Binary64.round.
    rewrite (proj1 (Qgt_alt q 0) Hq0).
    unfold Binary64.round_pos, Binary64.ulp_exponent, Binary64.ilog2.
    rewrite (Qle_bool_false 1 q) by (apply Qlt_not_le, H1).
    set (a := Qceiling (/ q)).
    assert (Hinv : (/ q <= inject_Z (2 ^ 53))%Q).
    { apply Qle_shift_inv_r; [exact Hq0 |].
      apply Qle_trans with (inject_Z (2 ^ 53) * (1 # 2 ^ 53))%Q;
        [vm_compute; discriminate |].
      apply Qmult_le_l; [reflexivity | exact Hq]. }
    assert (Ha2 : 1 < a).
    { unfold a. apply Z.lt_le_trans with (Qceiling (/ q)); [| lia].
      rewrite Zlt_Qlt. apply Qlt_le_trans with (/ q)%Q; [| apply Qle_ceiling].
      apply Qlt_shift_inv_l; [exact Hq0 |]. rewrite Qmult_1_l. exact H1. }
    assert (Ha53 : a <= 2 ^ 53).
    { unfold a. rewrite <- (Qceiling_Z (2 ^ 53)).
      apply Qceiling_resp_le, Hinv. }
    pose proof (Z.log2_up_spec a Ha2) as [_ Hup].
    assert (Hu53 : Z.log2_up a <= 53)
      by (apply Z.log2_up_le_pow2; lia).
    pose proof (Z.log2_up_nonneg a) as Hu0.
    set (u := Z.log2_up a) in *.
    replace (Z.max (- u - 52) (-1074)) with (- (u + 52)) by lia.
    assert (Hp : (0 < inject_Z (2 ^ (u + 52)))%Q) by (apply pow2_pos; lia).
    assert (Hm : 2 ^ 52
                 <= Binary64.round_half_even
                      (Binary64.scale_down q (- (u + 52)))).
    { apply round_half_even_ge.
      rewrite scale_down_nonpos by lia. rewrite Z.opp_involutive.
      rewrite Z.pow_add_r, inject_Z_mult by lia.
      rewrite Qmult_assoc.
      rewrite <- (Qmult_1_l (inject_Z (2 ^ 52))) at 1.
      apply Qmult_le_compat_r;
        [| change 0%Q with (inject_Z 0); rewrite <- Zle_Qle; lia].
      assert (Hqa : (/ q <= inject_Z (2 ^ u))%Q).
      { apply Qle_trans with (inject_Z a); [apply Qle_ceiling |].
        rewrite <- Zle_Qle. exact Hup. }
      apply (Qmult_le_compat_r _ _ q) in Hqa; [| apply Qlt_le_weak, Hq0].
      rewrite Qmult_comm, Qmult_inv_r in Hqa
        by (intros E; rewrite E in Hq0; discriminate).
      rewrite Qmult_comm. exact Hqa. }
    rewrite scale_up_nonpos by lia. rewrite Z.opp_involutive.
    apply Qlt_shift_div_l; [exact Hp |]. rewrite Qmult_0_l.
    change 0%Q with (inject_Z 0). rewrite <- Zlt_Qlt. lia.
  - apply Qlt_le_trans with (inject_Z 1); [reflexivity |].
    apply round64_ge_int; [lia | exact H1].
Qed.

(** Rounding does not go below a power of two that the argument
    reaches. *)
Lemma round64_ge_pow2 (q : Q) (j : Z) :
  0 <= j -> (inject_Z (2 ^ j) <= q)%Q -> (inject_Z (2 ^ j) <= round64 q)%Q.
Proof.
  intros Hj Hq.
  assert (Hp : (0 < inject_Z (2 ^ j))%Q) by (apply pow2_pos; lia).
  unfold round64, Binary64.round.
  rewrite (proj1 (Qgt_alt q 0)) by (eapply Qlt_le_trans; eauto).
  pose proof (round_pos_ge_scaled q 1 j Hj ltac:(reflexivity)) as H.
  rewrite Z.mul_1_l in H. auto.
Qed.
(** ** Label classifier *)

Lemma check_for_label_scan (np : NumPy) (rules : LabelDict)
  (mask : list (list Z)) (p : PyFloat) :
  label_percentage np mask = Ok p ->
  check_for_label np rules mask = scan_rules np p rules.
Proof. intros Hp. unfold check_for_label. rewrite Hp. reflexivity. Qed.

(** The fraction of a mask with pixels is the rounded quotient of the
    number of nonzero pixels by the number of pixels. *)
Lemma label_percentage_nonempty (np : NumPy) (mask : list (list Z)) :
  Np.size mask <> 0%nat ->
  label_percentage np mask
  = Ok (Finite (round64 (Z.of_nat (Np.count_nonzero mask)
                         # Pos.of_nat (Np.size mask)))).
Proof.
  intros Hs. unfold label_percentage, true_div.
  destruct (Np.size mask); [contradiction | reflexivity].
Qed.

Lemma label_percentage_empty (np : NumPy) (mask : list (list Z)) :
  Np.size mask = 0%nat ->
  label_percentage np mask
  = match np with
    | NumPy1 => Raise ZeroDivisionError
    | NumPy2 => Ok NaN
    end.
Proof. intros Hs. unfold label_percentage. rewrite Hs. reflexivity. Qed.

Lemma label_percentage_finite (np : NumPy) (mask : list (list Z)) (p : Q) :
  label_percentage np mask = Ok (Finite p) -> Np.size mask <> 0%nat.
Proof.
  intros Hp Hs. rewrite (label_percentage_empty np mask Hs) in Hp.
  destruct np; discriminate.
Qed.

(** Rules that were passed over do not influence what follows them. *)
Lemma scan_rules_app (np : NumPy) (p : PyFloat) (pre rest : LabelDict) :
  scan_rules np p pre = Ok None ->
  scan_rules np p (pre ++ rest) = scan_rules np p rest.
Proof.
  induction pre as [| [label r] pre IH]; intros H; [reflexivity |].
  cbn [app scan_rules] in *.
  destruct (String.eqb (rule_type r) "==").
  - destruct (float_eqb _ p); [discriminate | auto].
  - destruct (String.eqb (rule_type r) ">=").
    + destruct (float_geb _ p); [discriminate | auto].
    + destruct (String.eqb (rule_type r) "<="); [discriminate | auto].
Qed.

Lemma scan_rules_unknown (np : NumPy) (p : PyFloat) (label : string)
  (r : LabelRule) (rest : LabelDict) :
  known_operator (rule_type r) = false ->
  scan_rules np p ((label, r) :: rest) = scan_rules np p rest.
Proof.
  unfold known_operator. intros H.
  apply orb_false_iff in H as [H H3]. apply orb_false_iff in H as [H1 H2].
  cbn [scan_rules]. rewrite H1, H2, H3. reflexivity.
Qed.

Lemma scan_rules_insert_unknown (np : NumPy) (p : PyFloat) (pre : LabelDict)
  (label : string) (r : LabelRule) (rest : LabelDict) :
  known_operator (rule_type r) = false ->
  scan_rules np p (pre ++ (label, r) :: rest) = scan_rules np p (pre ++ rest).
Proof.
  intros H. induction pre as [| [l q] pre IH].
  - apply scan_rules_unknown, H.
  - cbn [app scan_rules]. rewrite IH. reflexivity.
Qed.

Lemma scan_rules_all_fail (np : NumPy) (p : Q) (rules : LabelDict) :
  Forall (fun lr => skipped_or_fails p (snd lr)) rules ->
  scan_rules np (Finite p) rules = Ok None.
Proof.
  induction 1 as [| [label r] rules Hr _ IH]; [reflexivity |].
  cbn [snd] in Hr. destruct Hr as [Hu | [[Hty Hc] | [Hty Hc]]].
  - rewrite scan_rules_unknown; assumption.
  - cbn [scan_rules float_eqb]. rewrite Hty.
    cbn [String.eqb Ascii.eqb Bool.eqb].
    rewrite Qeq_bool_false; assumption.
  - cbn [scan_rules float_geb]. rewrite Hty.
    cbn [String.eqb Ascii.eqb Bool.eqb].
    rewrite Qle_bool_false; assumption.
Qed.

(** Without a ["<="] rule the loop computes the first match. *)
Lemma scan_rules_first_match (np : NumPy) (p : Q) (rules : LabelDict) :
  has_le_rule rules = false ->
  scan_rules np (Finite p) rules = Ok (spec_first_match p rules).
Proof.
  induction rules as [| [label r] rules IH]; intros H; [reflexivity |].
  cbn [has_le_rule existsb snd] in H. apply orb_false_iff in H as [Hle H].
  cbn [scan_rules spec_first_match float_eqb float_geb].
  unfold spec_rule_holds.
  destruct (String.eqb (rule_type r) "==").
  - destruct (Qeq_bool (rule_threshold r) p); auto.
  - destruct (String.eqb (rule_type r) ">=").
    + destruct (Qle_bool p (rule_threshold r)); auto.
    + rewrite Hle. auto.
Qed.

Lemma check_for_label_first_match (np : NumPy) (rules : LabelDict)
  (mask : list (list Z)) (p : Q) :
  label_percentage np mask = Ok (Finite p) ->
  has_le_rule rules = false ->
  check_for_label np rules mask = Ok (spec_first_match p rules).
Proof.
  intros Hp Hle. rewrite (check_for_label_scan _ _ _ _ Hp).
  apply scan_rules_first_match, Hle.
Qed.

(** Two rules with the same threshold, both satisfied: the order of the
    rules decides the label. *)
Example rule_order_decides_label (np : NumPy) :
  check_for_label np [("a"%string, mkRule ">=" (1 # 2));
                      ("b"%string, mkRule ">=" (1 # 2))] (Np.zeros 2 2)
  = Ok (Some "a"%string)
  /\ check_for_label np [("b"%string, mkRule ">=" (1 # 2));
                         ("a"%string, mkRule ">=" (1 # 2))] (Np.zeros 2 2)
     = Ok (Some "b"%string).
Proof. split; reflexivity. Qed.

(** The fraction of a mask lies between 0 and 1. *)
Lemma count_nonzero_le_size (mask : list (list Z)) :
  (Np.count_nonzero mask <= Np.size mask)%nat.
Proof. apply filter_length_le. Qed.

Lemma rounded_fraction_range (a b : nat) :
  (a <= b)%nat -> b <> 0%nat ->
  (0 <= round64 (Z.of_nat a # Pos.of_nat b))%Q
  /\ (round64 (Z.of_nat a # Pos.of_nat b) <= 1)%Q.
Proof.
  intros Hab Hb.
  assert (Hd : Z.pos (Pos.of_nat b) = Z.of_nat b)
    by (destruct b; [contradiction | lia]).
  split.
  - apply round64_nonneg. unfold Qle. cbn [Qnum Qden]. lia.
  - apply (round64_le_int _ 1); [lia |].
    unfold Qle. cbn [Qnum Qden inject_Z]. lia.
Qed.

Lemma label_percentage_le_1 (np : NumPy) (mask : list (list Z)) (p : Q) :
  label_percentage np mask = Ok (Finite p) -> (0 <= p)%Q /\ (p <= 1)%Q.
Proof.
  intros Hp. pose proof (label_percentage_finite np mask p Hp) as Hs.
  rewrite (label_percentage_nonempty np mask Hs) in Hp.
  injection Hp as <-.
  apply rounded_fraction_range; [apply count_nonzero_le_size | exact Hs].
Qed.
(** C6.  For a patch mask with pixels, the annotated-pixel fraction [p] is
    the float quotient of the number of nonzero pixels by the number of
    pixels.  A rule of type [">="] with threshold [t] matches exactly when
    [t >= p]: if [p <= t] its label is returned, otherwise the rule is
    passed over and the remaining rules decide.  In particular, on an
    all-zero mask [p] is 0 and the rule [{">=", 1/2}] matches. *)
Theorem ge_rule_matches_iff_threshold_ge_fraction
  (np : NumPy) (mask : list (list Z)) (label : string) (t : Q)
  (rest : LabelDict) :
  Np.size mask <> 0%nat ->
  let p := round64 (Z.of_nat (Np.count_nonzero mask)
                    # Pos.of_nat (Np.size mask)) in
  label_percentage np mask = Ok (Finite p)
  /\ ((p <= t)%Q ->
      check_for_label np ((label, mkRule ">=" t) :: rest) mask
      = Ok (Some label))
  /\ (~ (p <= t)%Q ->
      check_for_label np ((label, mkRule ">=" t) :: rest) mask
      = check_for_label np rest mask)
  /\ (Np.count_nonzero mask = 0%nat ->
      (p == 0)%Q
      /\ check_for_label np [(label, mkRule ">=" (1 # 2))] mask
         = Ok (Some label)).
Proof.
  intros Hs p.
  pose proof (label_percentage_nonempty np mask Hs) as Hp. fold p in Hp.
  split; [exact Hp |].
  rewrite !(check_for_label_scan _ _ _ _ Hp).
  cbn [scan_rules rule_type rule_threshold String.eqb Ascii.eqb Bool.eqb
       float_geb].
  repeat split.
  - intros Hle. apply Qle_bool_iff in Hle. rewrite Hle. reflexivity.
  - intros Hnle. rewrite (Qle_bool_false _ _ Hnle). reflexivity.
  - unfold p. rewrite H. reflexivity.
  - assert (E : p = 0%Q) by (unfold p; rewrite H; reflexivity).
    rewrite E. reflexivity.
Qed.

(** Three annotated pixels out of ten and the threshold 0.3: the quotient
    rounds onto the threshold, and the rule matches. *)
Lemma ge_rule_matches_witness :
  check_for_label NumPy2
    [("tumor"%string, mkRule ">=" (round64 (3 # 10)))]
    [[1; 1; 1; 0; 0]; [0; 0; 0; 0; 0]]
  = Ok (Some "tumor"%string)
  /\ check_for_label NumPy1 [("tumor"%string, mkRule ">=" (1 # 2))]
       (Np.zeros 2 2)
     = Ok (Some "tumor"%string).
Proof.
  split.
  - apply (proj1 (proj2 (ge_rule_matches_iff_threshold_ge_fraction NumPy2
                    [[1; 1; 1; 0; 0]; [0; 0; 0; 0; 0]] "tumor"
                    (round64 (3 # 10)) [] ltac:(discriminate)))).
    vm_compute. discriminate.
  - apply (proj2 (proj2 (proj2 (ge_rule_matches_iff_threshold_ge_fraction
                    NumPy1 (Np.zeros 2 2) "tumor" (1 # 2) []
                    ltac:(discriminate))))).
    reflexivity.
Defined.

(** C7.  On the rule set [a: {"<=", 1/2}; b: {">=", 1}] and an all-zero
    2x2 mask (fraction 0) the first rule whose comparison holds is [a], yet
    the classifier raises instead of returning a label: [TypeError] where
    the fraction is a Python float, [IndexError] where it is a NumPy one. *)
Theorem first_match_fails_on_le_rule :
  (forall np, label_percentage np (Np.zeros 2 2) = Ok (Finite 0))
  /\ spec_first_match 0
       [("a"%string, mkRule "<=" (1 # 2)); ("b"%string, mkRule ">=" 1)]
     = Some "a"%string
  /\ check_for_label NumPy1
       [("a"%string, mkRule "<=" (1 # 2)); ("b"%string, mkRule ">=" 1)]
       (Np.zeros 2 2)
     = Raise TypeError
  /\ check_for_label NumPy2
       [("a"%string, mkRule "<=" (1 # 2)); ("b"%string, mkRule ">=" 1)]
       (Np.zeros 2 2)
     = Raise IndexError.
Proof. repeat split. Qed.

(** C8.  A ["<="] rule that is reached (no earlier rule matched) subscripts
    the coverage fraction instead of the rule collection: the classifier
    raises ([TypeError] or [IndexError], as the fraction is a Python or a
    NumPy float) whatever the threshold and the fraction are, so the
    comparison [p <= threshold] is never evaluated and the label is not
    returned even when that comparison would hold. *)
Theorem le_rule_raises_instead_of_comparing
  (np : NumPy) (mask : list (list Z)) (p : Q) (pre : LabelDict)
  (label : string) (t : Q) (rest : LabelDict) :
  label_percentage np mask = Ok (Finite p) ->
  scan_rules np (Finite p) pre = Ok None ->
  check_for_label np (pre ++ (label, mkRule "<=" t) :: rest) mask
  = Raise (subscript_error np)
  /\ check_for_label np (pre ++ (label, mkRule "<=" t) :: rest) mask
     <> Ok (if Qle_bool p t then Some label else None).
Proof.
  intros Hp Hpre.
  assert (E : check_for_label np (pre ++ (label, mkRule "<=" t) :: rest) mask
              = Raise (subscript_error np)).
  { rewrite (check_for_label_scan _ _ _ _ Hp), (scan_rules_app _ _ _ _ Hpre).
    reflexivity. }
  split; [exact E | rewrite E; discriminate].
Qed.

Lemma le_rule_raises_witness :
  check_for_label NumPy1
    [("other"%string, mkRule "==" 1); ("tumor"%string, mkRule "<=" (1 # 2))]
    (Np.zeros 2 2)
  = Raise TypeError.
Proof.
  apply (le_rule_raises_instead_of_comparing NumPy1
           (Np.zeros 2 2) 0 [("other"%string, mkRule "==" 1)]
           "tumor" (1 # 2) []);
    reflexivity.
Defined.

(** C10.  For a non-empty patch mask, a rule whose operator is none of
    ["=="], [">="], ["<="] is skipped wherever it stands in the rule set:
    the classifier answers as if the rule were absent.  When every rule is
    skipped or has a false comparison, the classifier returns no label. *)
Theorem unknown_operator_rule_is_skipped
  (np : NumPy) (mask : list (list Z)) (p : Q) :
  label_percentage np mask = Ok (Finite p) ->
  (forall (pre : LabelDict) (label : string) (r : LabelRule)
          (rest : LabelDict),
      known_operator (rule_type r) = false ->
      check_for_label np (pre ++ (label, r) :: rest) mask
      = check_for_label np (pre ++ rest) mask)
  /\ (forall rules : LabelDict,
         Forall (fun lr => skipped_or_fails p (snd lr)) rules ->
         check_for_label np rules mask = Ok None).
Proof.
  intros Hp. split.
  - intros pre label r rest Hu. rewrite !(check_for_label_scan _ _ _ _ Hp).
    apply scan_rules_insert_unknown, Hu.
  - intros rules Hall. rewrite (check_for_label_scan _ _ _ _ Hp).
    apply scan_rules_all_fail, Hall.
Qed.

Lemma unknown_operator_witness :
  check_for_label NumPy1
    [("x"%string, mkRule ">" 1); ("y"%string, mkRule "==" 1)] (Np.zeros 2 2)
  = Ok None.
Proof.
  apply (proj2 (unknown_operator_rule_is_skipped NumPy1 (Np.zeros 2 2) 0
                  eq_refl)).
  apply Forall_cons; [left; reflexivity |].
  apply Forall_cons; [| apply Forall_nil].
  right. left. split; [reflexivity |].
  intros H. vm_compute in H. discriminate H.
Defined.
(** ** Arithmetic of the grid step *)

Lemma int_of_float_nonneg (q : Q) :
  (0 <= q)%Q -> int_of_float q = Qfloor q.
Proof.
  destruct q as [n d]. unfold Qle, int_of_float, Qfloor. cbn.
  intros H. apply Z.quot_div_nonneg; lia.
Qed.

Lemma int_of_float_int (q : Q) (z : Z) :
  (q == inject_Z z)%Q -> int_of_float q = z.
Proof.
  destruct q as [n d]. unfold Qeq, int_of_float. cbn. intros H.
  replace n with (z * Z.pos d) by lia. apply Z.quot_mul. lia.
Qed.

Lemma float_of_int_nonneg (z : Z) : 0 <= z -> (0 <= float_of_int z)%Q.
Proof.
  intros H. apply round64_nonneg.
  change 0%Q with (inject_Z 0). rewrite <- Zle_Qle. exact H.
Qed.

Lemma float_of_int_nonpos (z : Z) : z <= 0 -> (float_of_int z <= 0)%Q.
Proof.
  intros H. apply round64_nonpos.
  change 0%Q with (inject_Z 0). rewrite <- Zle_Qle. exact H.
Qed.

(** An integer of magnitude below [2^53] is converted exactly. *)
Lemma float_of_int_exact (z : Z) :
  Z.abs z < 2 ^ 53 -> (float_of_int z == inject_Z z)%Q.
Proof. apply round64_int. Qed.

(** For an overlap in [[0, 1]] the pixel overlap lies in [[0, P]], so the
    stride does too. *)
Lemma px_overlap_range (P : Z) (o : Q) :
  0 <= P < 2 ^ 53 -> (0 <= o)%Q -> (o <= 1)%Q ->
  0 <= px_overlap P o <= P.
Proof.
  intros HP Ho Ho1. unfold px_overlap.
  pose proof (float_of_int_exact P ltac:(lia)) as HF.
  assert (HP0 : (0 <= inject_Z P)%Q)
    by (change 0%Q with (inject_Z 0); rewrite <- Zle_Qle; lia).
  assert (Hx0 : (0 <= float_of_int P * o)%Q).
  { rewrite HF. apply Qmult_le_0_compat; assumption. }
  assert (Hx1 : (float_of_int P * o <= inject_Z P)%Q).
  { rewrite HF. rewrite <- (Qmult_1_r (inject_Z P)) at 2.
    rewrite !(Qmult_comm (inject_Z P)).
    apply Qmult_le_compat_r; assumption. }
  pose proof (round64_nonneg _ Hx0) as H0.
  pose proof (round64_le_int _ P HP Hx1) as H1.
  rewrite (int_of_float_nonneg _ H0). split.
  - apply Z.le_trans with (Qfloor (inject_Z 0)); [rewrite Qfloor_Z; lia |].
    apply Qfloor_resp_le, H0.
  - apply Z.le_trans with (Qfloor (inject_Z P)); [| rewrite Qfloor_Z; lia].
    apply Qfloor_resp_le, H1.
Qed.

Lemma grid_step_range (P : Z) (o : Q) :
  0 <= P < 2 ^ 53 -> (0 <= o)%Q -> (o <= 1)%Q ->
  0 <= grid_step P o <= P.
Proof.
  intros HP Ho Ho1. unfold grid_step.
  pose proof (px_overlap_range P o HP Ho Ho1). lia.
Qed.

Lemma candidate_steps_ok (S P : Z) (o : Q) :
  grid_step P o <> 0 ->
  candidate_steps S P o
  = Ok (Qceiling
          (round64 (round64 (float_of_int S + o)
                    / float_of_int (grid_step P o)))).
Proof.
  intros H. unfold candidate_steps.
  destruct (Z.eqb_spec (grid_step P o) 0); [contradiction | reflexivity].
Qed.

Lemma candidate_steps_defined (S P : Z) (o : Q) :
  grid_step P o <> 0 -> exists n, candidate_steps S P o = Ok n.
Proof. intros H. rewrite candidate_steps_ok by exact H. eauto. Qed.

(** ** The clamped candidate *)

Section ClampIndex.

Variables S P step : Z.
Hypothesis HP : 0 < P <= S.
Hypothesis Hstep : 0 < step.

Lemma clamp_index_nonneg : 0 <= clamp_index S P step.
Proof. unfold clamp_index. apply Z.div_pos; lia. Qed.

Lemma clamp_index_reaches : S <= clamp_index S P step * step + P.
Proof.
  unfold clamp_index.
  pose proof (Z.div_mod (S - P + step - 1) step ltac:(lia)) as E.
  pose proof (Z.mod_pos_bound (S - P + step - 1) step ltac:(lia)) as B.
  nia.
Qed.

Lemma clamp_index_mul_lt :
  step <= P -> clamp_index S P step * step < S.
Proof.
  intros Hle. unfold clamp_index.
  pose proof (Z.mul_div_le (S - P + step - 1) step ltac:(lia)). lia.
Qed.

Lemma before_clamp_fits (c : Z) :
  0 <= c < clamp_index S P step -> c * step + P < S.
Proof.
  intros Hc. unfold clamp_index in *.
  pose proof (Z.mul_div_le (S - P + step - 1) step ltac:(lia)). nia.
Qed.

Lemma clamp_index_below (n : Z) :
  step <= P -> S <= n * step -> clamp_index S P step < n.
Proof. intros Hle Hn. pose proof (clamp_index_mul_lt Hle). nia. Qed.

Lemma from_clamp_reaches (c : Z) :
  clamp_index S P step <= c -> S <= c * step + P.
Proof. intros Hc. pose proof clamp_index_reaches. nia. Qed.

End ClampIndex.

(** ** [range] *)

Lemma range_split (c n : Z) :
  0 <= c < n ->
  exists post, Np.range n = Np.range c ++ c :: post.
Proof.
  intros Hc. unfold Np.range.
  replace (Z.to_nat n) with (Z.to_nat c + Datatypes.S (Z.to_nat (n - c - 1)))%nat
    by lia.
  rewrite seq_app, map_app. cbn [seq map]. rewrite Nat.add_0_l, Z2Nat.id by lia.
  eexists. reflexivity.
Qed.

Lemma range_bounds (n : Z) :
  Forall (fun c => 0 <= c < n) (Np.range n).
Proof.
  unfold Np.range. apply Forall_map, Forall_forall.
  intros i Hi. apply in_seq in Hi. lia.
Qed.

(** ** The loops visit the clamped grid *)

Section WalkLoops.

Variable np : NumPy.
Variables S P step : Z.
Variable tile : list (list rgb).
Variable mask : list (list Z).
Variable label_dict : LabelDict.
Variable file_dir : option string.
Variable slide_name : option string.
Variable tile_nb : nat.

Let body := patch_body np S P step tile mask label_dict file_dir slide_name
              tile_nb.
Let cloop := cols_loop np S P step tile mask label_dict file_dir slide_name
               tile_nb.
Let rloop := rows_loop np S P step tile mask label_dict file_dir slide_name
               tile_nb.
Let vis := visit np P tile mask label_dict file_dir slide_name tile_nb.
Let vrow := visit_row np P tile mask label_dict file_dir slide_name tile_nb.
Let vgrid := visit_grid np P tile mask label_dict file_dir slide_name tile_nb.

Let is_clamped := clamped S P step.
Let at_index := coord S P step.

Lemma patch_body_visit (row col : Z) (st : WalkState) :
  body row col st =
  (e <- vis (at_index col) (at_index row) (emitted st) ;;
   Ok (with_flags (if is_clamped col then true else stop_x st)
                  (if is_clamped row then true else stop_y st) e)).
Proof.
  unfold body, vis, patch_body, visit, at_index, is_clamped, coord, clamped.
  destruct (row * step + P >=? S), (col * step + P >=? S);
    cbn [bind emitted e_patch_nb e_patches e_saved];
    (destruct (check_for_label _ _ _) as [[l |] |]; cbn [bind];
     [ reflexivity | destruct st; reflexivity | reflexivity ]).
Qed.

Lemma clamped_false (i : Z) : i * step + P < S -> is_clamped i = false.
Proof.
  unfold is_clamped, clamped. intros H. rewrite Z.geb_leb. apply Z.leb_gt. lia.
Qed.

Lemma clamped_true (i : Z) : S <= i * step + P -> is_clamped i = true.
Proof.
  unfold is_clamped, clamped. intros H. rewrite Z.geb_leb. apply Z.leb_le. lia.
Qed.

Lemma coord_false (i : Z) : i * step + P < S -> at_index i = i * step.
Proof.
  intros H. unfold at_index, coord. fold is_clamped.
  rewrite (clamped_false i H). reflexivity.
Qed.

Lemma coord_true (i : Z) : S <= i * step + P -> at_index i = S - P.
Proof.
  intros H. unfold at_index, coord. fold is_clamped.
  rewrite (clamped_true i H). reflexivity.
Qed.

(** A row of candidates: the unclamped columns [pre], then the first
    column [c] that reaches the boundary; later columns are not tried. *)
Lemma cols_loop_axis (pre : list Z) (c : Z) (post : list Z) (row : Z) :
  Forall (fun col => col * step + P < S) pre ->
  S <= c * step + P ->
  forall st, stop_x st = false ->
  cloop (pre ++ c :: post) row st =
  (e <- vrow (map (fun col => col * step) pre ++ [S - P]) (at_index row)
          (emitted st) ;;
   Ok (with_flags true (if is_clamped row then true else stop_y st) e)).
Proof.
  intros Hpre Hc. induction Hpre as [| a pre Ha _ IH]; intros st Hsx.
  - cbn [app map]. unfold cloop, vrow. cbn [cols_loop visit_row].
    fold body vis. rewrite patch_body_visit.
    rewrite (coord_true c Hc), (clamped_true c Hc).
    destruct (vis (S - P) (at_index row) (emitted st)) as [e | err];
      reflexivity.
  - cbn [app map]. unfold cloop, vrow. cbn [cols_loop visit_row].
    fold body cloop vrow vis. rewrite patch_body_visit.
    rewrite (coord_false a Ha), (clamped_false a Ha), Hsx.
    destruct (vis (a * step) (at_index row) (emitted st)) as [e | err];
      [| reflexivity].
    cbn [bind with_flags stop_x]. rewrite IH by reflexivity.
    cbn [emitted with_flags patch_nb patches saved stop_y].
    destruct e as [nb ps sv]. cbn [e_patch_nb e_patches e_saved].
    destruct (is_clamped row); reflexivity.
Qed.

(** The rows: unclamped rows [pre], then the first row [r] that reaches
    the boundary; later rows are not tried. *)
Lemma rows_loop_axis (pre : list Z) (r : Z) (post : list Z)
  (cpre : list Z) (c : Z) (cpost : list Z) :
  Forall (fun row => row * step + P < S) pre ->
  S <= r * step + P ->
  Forall (fun col => col * step + P < S) cpre ->
  S <= c * step + P ->
  forall st, stop_y st = false ->
  rloop (pre ++ r :: post) (cpre ++ c :: cpost) st =
  (e <- vgrid (map (fun row => row * step) pre ++ [S - P])
          (map (fun col => col * step) cpre ++ [S - P]) (emitted st) ;;
   Ok (with_flags true true e)).
Proof.
  intros Hpre Hr Hcpre Hc.
  induction Hpre as [| a pre Ha _ IH]; intros st Hsy.
  - cbn [app map]. unfold rloop, vgrid. cbn [rows_loop visit_grid].
    fold cloop vrow. rewrite cols_loop_axis by auto.
    rewrite (coord_true r Hr), (clamped_true r Hr).
    destruct st as [sx sy nb ps sv]. unfold emitted.
    cbn [patch_nb patches saved].
    destruct (vrow _ (S - P) _) as [e | err]; reflexivity.
  - cbn [app map]. unfold rloop, vgrid. cbn [rows_loop visit_grid].
    fold cloop vrow rloop vgrid. rewrite cols_loop_axis by auto.
    rewrite (coord_false a Ha), (clamped_false a Ha).
    destruct st as [sx sy nb ps sv]. cbn [stop_y] in Hsy. subst sy.
    unfold emitted at 1 2. cbn [patch_nb patches saved stop_y].
    destruct (vrow _ (a * step) _) as [e | err]; [| reflexivity].
    cbn [bind with_flags stop_y].
    rewrite IH by reflexivity.
    destruct e; reflexivity.
Qed.

(** A row of candidates none of which reaches the boundary. *)
Lemma cols_loop_unclamped (cols : list Z) (row : Z) :
  row * step + P < S ->
  Forall (fun col => col * step + P < S) cols ->
  forall st, stop_x st = false ->
  cloop cols row st =
  (e <- vrow (map (fun col => col * step) cols) (row * step) (emitted st) ;;
   Ok (with_flags false (stop_y st) e)).
Proof.
  intros Hrow Hcols. induction Hcols as [| a cols Ha _ IH]; intros st Hsx.
  - destruct st as [sx sy nb ps sv]. cbn [stop_x] in Hsx. subst sx.
    reflexivity.
  - cbn [map]. unfold cloop, vrow. cbn [cols_loop visit_row].
    fold body cloop vrow vis. rewrite patch_body_visit.
    rewrite (coord_false a Ha), (clamped_false a Ha), Hsx.
    rewrite (coord_false row Hrow), (clamped_false row Hrow).
    destruct (vis (a * step) (row * step) (emitted st)) as [e | err];
      [| reflexivity].
    cbn [bind with_flags stop_x]. rewrite IH by reflexivity.
    cbn [emitted with_flags patch_nb patches saved stop_y].
    destruct e as [nb ps sv]. reflexivity.
Qed.

(** Rows and columns none of which reaches the boundary: the whole grid
    of candidates is visited and no flag is set. *)
Lemma rows_loop_unclamped (rows cols : list Z) :
  Forall (fun row => row * step + P < S) rows ->
  Forall (fun col => col * step + P < S) cols ->
  forall st, stop_x st = false -> stop_y st = false ->
  rloop rows cols st =
  (e <- vgrid (map (fun row => row * step) rows)
          (map (fun col => col * step) cols) (emitted st) ;;
   Ok (with_flags false false e)).
Proof.
  intros Hrows Hcols.
  induction Hrows as [| a rows Ha _ IH]; intros st Hsx Hsy.
  - destruct st as [sx sy nb ps sv]. cbn [stop_x stop_y] in *. subst.
    reflexivity.
  - cbn [map]. unfold rloop, vgrid. cbn [rows_loop visit_grid].
    fold cloop vrow rloop vgrid.
    rewrite (cols_loop_unclamped cols a Ha Hcols) by reflexivity.
    destruct st as [sx sy nb ps sv]. cbn [stop_y] in Hsy. subst sy.
    unfold emitted at 1 2. cbn [patch_nb patches saved stop_y].
    destruct (vrow _ (a * step) _) as [e | err]; [| reflexivity].
    cbn [bind with_flags stop_y].
    rewrite IH by reflexivity.
    destruct e; reflexivity.
Qed.

End WalkLoops.

(** ** The walk for any stride and any number of candidates *)

Section AnyCount.

Variable np : NumPy.
Variables S P step : Z.
Hypothesis HP : 0 < P <= S.
Hypothesis Hstep : 0 < step.

Let k := clamp_index S P step.

Lemma unclamped_range (n : Z) :
  n <= k -> Forall (fun c => c * step + P < S) (Np.range n).
Proof.
  intros Hn. eapply Forall_impl; [| apply range_bounds]. cbv beta.
  intros c Hc. apply before_clamp_fits; auto. fold k. lia.
Qed.

(** The nested loops over [n] candidate rows and columns: the clamped grid
    when [n] reaches the clamped candidate, the bare candidates
    otherwise. *)
Lemma walk_visits (n : Z) (tile : list (list rgb)) (mask : list (list Z))
  (label_dict : LabelDict) (file_dir slide_name : option string)
  (tile_nb : nat) (sv : list SavedPatch) :
  rows_loop np S P step tile mask label_dict file_dir slide_name tile_nb
    (Np.range n) (Np.range n) (walk_init sv)
  = (e <- visit_grid np P tile mask label_dict file_dir slide_name tile_nb
            (visited_coords S P step n) (visited_coords S P step n)
            (mkEmitted 0 [] sv) ;;
     Ok (with_flags (k <? n) (k <? n) e)).
Proof.
  unfold visited_coords. fold k.
  assert (Hk : 0 <= k) by (apply clamp_index_nonneg; auto).
  destruct (Z.ltb_spec k n) as [Hn | Hn].
  - destruct (range_split k n ltac:(lia)) as [post Hsplit]. rewrite Hsplit.
    assert (Hreach : S <= k * step + P) by (apply clamp_index_reaches; lia).
    rewrite rows_loop_axis by (auto using unclamped_range, Z.le_refl).
    reflexivity.
  - rewrite rows_loop_unclamped by (auto using unclamped_range).
    reflexivity.
Qed.

Lemma axis_coords_length :
  Z.of_nat (length (axis_coords S P step)) = k + 1.
Proof.
  assert (Hk : 0 <= k) by (apply clamp_index_nonneg; auto).
  unfold axis_coords, Np.range. fold k.
  rewrite length_app, !length_map, length_seq. cbn [length]. lia.
Qed.

Lemma visited_coords_length (n : Z) :
  Z.of_nat (length (visited_coords S P step n)) = Z.min (Z.max n 0) (k + 1).
Proof.
  assert (Hk : 0 <= k) by (apply clamp_index_nonneg; auto).
  unfold visited_coords. fold k. destruct (Z.ltb_spec k n).
  - rewrite axis_coords_length. lia.
  - unfold Np.range. rewrite !length_map, length_seq. lia.
Qed.

(** Every visited coordinate is an unclamped candidate or [S - P]. *)
Lemma visited_coords_spec (n : Z) :
  Forall (fun x => (exists c, 0 <= c < k /\ c < n /\ x = c * step
                              /\ x + P < S)
                   \/ (k < n /\ x = S - P))
         (visited_coords S P step n).
Proof.
  unfold visited_coords, axis_coords. fold k. destruct (Z.ltb_spec k n).
  - apply Forall_app. split.
    + apply Forall_map. eapply Forall_impl; [| apply range_bounds].
      cbv beta. intros c Hc. left. exists c.
      repeat split; try lia. apply before_clamp_fits; auto.
    + constructor; [right; split; [assumption | reflexivity] | constructor].
  - apply Forall_map. eapply Forall_impl; [| apply range_bounds].
    cbv beta. intros c Hc. left. exists c.
    repeat split; try lia. apply before_clamp_fits; auto. fold k. lia.
Qed.

Lemma visited_coords_in_tile (n : Z) :
  Forall (fun x => 0 <= x /\ x + P <= S) (visited_coords S P step n).
Proof.
  eapply Forall_impl; [| apply visited_coords_spec]. cbv beta.
  intros x [(c & Hc & _ & -> & Hfit) | [_ ->]]; nia.
Qed.

End AnyCount.
Lemma patch_body_sets_stop (np : NumPy) (S P step : Z)
  (tile : list (list rgb)) (mask : list (list Z)) (label_dict : LabelDict)
  (file_dir slide_name : option string) (tile_nb : nat)
  (row col : Z) (st st' : WalkState) :
  patch_body np S P step tile mask label_dict file_dir slide_name tile_nb
    row col st = Ok st' ->
  (S <= col * step + P -> stop_x st' = true)
  /\ (S <= row * step + P -> stop_y st' = true).
Proof.
  rewrite patch_body_visit.
  destruct (visit _ _ _ _ _ _ _ _ _ _ _) as [e | err]; [| discriminate].
  cbn [bind]. intros E. injection E as <-. cbn [with_flags stop_x stop_y].
  split; intros H; rewrite clamped_true by exact H; reflexivity.
Qed.

(** C1.  Tile size 8, patch size 4, overlap 0.5: the stride is 2 and the
    count of the claim is [ceil(8 / 2) = 4], but [rows] and [cols] are
    [ceil(8.5 / 2) = 5], because the overlap fraction is added to the tile
    size.  Nor is the stride [P - floor(P * o)] where the float product is
    inexact.  For patch size 50 and overlap 0.58 the product is a float
    below 29 and the stride is 22, where [50 - floor(50 * 0.58)] is 21.
    For patch size 5 and overlap 0.6, a float below 3/5, the product
    rounds up to 3.0 and the stride is 2, where [5 - floor(5 * o)] is 3
    for that float [o]. *)
Theorem candidate_count_exceeds_ceiling :
  grid_step 4 (1 # 2) = 2
  /\ spec_grid_step 4 (1 # 2) = 2
  /\ spec_candidate_steps 8 4 (1 # 2) = 4
  /\ candidate_steps 8 4 (1 # 2) = Ok 5
  /\ grid_step 50 (round64 (58 # 100)) = 22
  /\ spec_grid_step 50 (58 # 100) = 21
  /\ grid_step 5 (round64 (6 # 10)) = 2
  /\ spec_grid_step 5 (round64 (6 # 10)) = 3.
Proof. repeat split; vm_compute; reflexivity. Qed.

(** C2.  For a tile of size [S], a patch size [0 < P <= S], any stride
    [step > 0] and any number [n] of candidates per axis, let [k] be the
    first candidate index with [k * step + P >= S].  The candidates before
    [k] fit strictly inside the tile and keep their coordinate [c * step];
    every candidate from [k] on would reach past the tile's end, is clamped
    to [S - P] and sets the stop flag of its axis.  If [n] exceeds [k], the
    walk visits, in row-major order, exactly the grid of the coordinates
    [0, step, ..., (k-1) * step, S - P] on both axes and nothing after the
    clamped row or column; if not, no candidate is clamped and the walk
    visits the grid of all [n] candidates.  For tile size 100, patch size
    60 and overlap 0 the stride is 60, the count is 2, [k] is 1 and the
    coordinates are 0 and 40. *)
Theorem boundary_clamp_ends_axis
  (np : NumPy) (S P step n : Z) (tile : list (list rgb))
  (mask : list (list Z)) (label_dict : LabelDict)
  (file_dir slide_name : option string) (tile_nb : nat)
  (sv : list SavedPatch) :
  0 < P <= S -> 0 < step ->
  0 <= clamp_index S P step
  /\ (forall c, 0 <= c < clamp_index S P step ->
        c * step + P < S /\ coord S P step c = c * step)
  /\ (forall c, clamp_index S P step <= c ->
        S <= c * step + P /\ coord S P step c = S - P)
  /\ (forall row col st st',
        patch_body np S P step tile mask label_dict file_dir slide_name
          tile_nb row col st = Ok st' ->
        (S <= col * step + P -> stop_x st' = true)
        /\ (S <= row * step + P -> stop_y st' = true))
  /\ (clamp_index S P step < n ->
      rows_loop np S P step tile mask label_dict file_dir slide_name
        tile_nb (Np.range n) (Np.range n) (walk_init sv)
      = (e <- visit_grid np P tile mask label_dict file_dir slide_name
                tile_nb (axis_coords S P step) (axis_coords S P step)
                (mkEmitted 0 [] sv) ;;
         Ok (with_flags true true e)))
  /\ (n <= clamp_index S P step ->
      rows_loop np S P step tile mask label_dict file_dir slide_name
        tile_nb (Np.range n) (Np.range n) (walk_init sv)
      = (e <- visit_grid np P tile mask label_dict file_dir slide_name
                tile_nb (map (fun c => c * step) (Np.range n))
                (map (fun c => c * step) (Np.range n))
                (mkEmitted 0 [] sv) ;;
         Ok (with_flags false false e)))
  /\ (grid_step 60 0 = 60 /\ candidate_steps 100 60 0 = Ok 2
      /\ clamp_index 100 60 60 = 1 /\ axis_coords 100 60 60 = [0; 40]).
Proof.
  intros HP Hstep.
  set (k := clamp_index S P step).
  assert (Hk : 0 <= k) by (apply clamp_index_nonneg; auto).
  split; [exact Hk |].
  split; [| split; [| split; [| split; [| split]]]].
  - intros c Hc.
    assert (c * step + P < S) by (apply before_clamp_fits; auto).
    split; [assumption | apply coord_false; assumption].
  - intros c Hc.
    assert (S <= c * step + P) by (apply from_clamp_reaches; auto).
    split; [assumption | apply coord_true; assumption].
  - intros row col st st'. apply patch_body_sets_stop.
  - intros Hn. rewrite (walk_visits np S P step HP Hstep).
    unfold visited_coords. fold k.
    destruct (Z.ltb_spec k n); [reflexivity | lia].
  - intros Hn. rewrite (walk_visits np S P step HP Hstep).
    unfold visited_coords. fold k.
    destruct (Z.ltb_spec k n); [lia | reflexivity].
  - repeat split; vm_compute; reflexivity.
Qed.

Lemma boundary_clamp_witness :
  exists st : WalkState,
    rows_loop NumPy1 100 60 (grid_step 60 0)
      (Cv2.gray2rgb (Np.zeros 100 100)) (Np.zeros 100 100) accept_all None
      None 0 (Np.range 2) (Np.range 2) (walk_init [])
    = Ok st
    /\ map (fun ir => (pr_x_pos (snd ir), pr_y_pos (snd ir))) (patches st)
       = [(0, 0); (40, 0); (0, 40); (40, 40)].
Proof.
  destruct (boundary_clamp_ends_axis NumPy1 100 60 (grid_step 60 0) 2
              (Cv2.gray2rgb (Np.zeros 100 100)) (Np.zeros 100 100)
              accept_all None None 0 [])
    as (_ & _ & _ & _ & Hwalk & _);
    [lia | vm_compute; reflexivity |].
  rewrite Hwalk by (vm_compute; reflexivity).
  vm_compute. eexists. split; reflexivity.
Defined.

(** ** Shapes of slices *)

Lemma Forall_firstn {A : Type} (Q : A -> Prop) (n : nat) (l : list A) :
  Forall Q l -> Forall Q (firstn n l).
Proof.
  intros H. revert n. induction H; intros [| n]; cbn; auto.
Qed.

Lemma Forall_skipn {A : Type} (Q : A -> Prop) (n : nat) (l : list A) :
  Forall Q l -> Forall Q (skipn n l).
Proof.
  intros H. revert n. induction H; intros [| n]; cbn; auto.
Qed.

Lemma slice_length {A : Type} (a b : Z) (l : list A) :
  0 <= a <= b -> b <= Z.of_nat (length l) ->
  Z.of_nat (length (Np.slice a b l)) = b - a.
Proof.
  intros Hab Hb. unfold Np.slice, Np.clip_index.
  destruct (Z.ltb_spec a 0); [lia |].
  destruct (Z.ltb_spec b 0); [lia |].
  rewrite length_firstn, length_skipn. lia.
Qed.

Lemma slice_Forall {A : Type} (Q : A -> Prop) (a b : Z) (l : list A) :
  Forall Q l -> Forall Q (Np.slice a b l).
Proof. intros H. unfold Np.slice. apply Forall_firstn, Forall_skipn, H. Qed.

Lemma slice2d_shape {A : Type} (h w r0 c0 n k : Z) (m : list (list A)) :
  Np.has_shape h w m ->
  0 <= r0 -> 0 <= n -> r0 + n <= h ->
  0 <= c0 -> 0 <= k -> c0 + k <= w ->
  Np.has_shape n k (Np.slice2d r0 (r0 + n) c0 (c0 + k) m).
Proof.
  intros [Hh Hw] Hr0 Hn Hrn Hc0 Hk Hck. unfold Np.slice2d. split.
  - rewrite length_map, slice_length; lia.
  - apply Forall_map. apply slice_Forall.
    eapply Forall_impl; [| exact Hw]. cbv beta.
    intros r Hr. rewrite slice_length; lia.
Qed.

(** ** Every recorded patch lies inside its tile *)

Section WalkInvariant.

Variable np : NumPy.
Variables S P step : Z.
Variable tile : list (list rgb).
Variable mask : list (list Z).
Variable label_dict : LabelDict.
Variable file_dir : option string.
Variable slide_name : option string.
Variable tile_nb : nat.

Hypothesis HP : 0 < P <= S.
Hypothesis Hstep : 0 <= step.
Hypothesis Htile : Np.has_shape S S tile.

Let inv := walk_inv S P.

Lemma coord_in_tile (i : Z) :
  0 <= i -> 0 <= coord S P step i /\ coord S P step i + P <= S.
Proof.
  intros Hi. unfold coord, clamped.
  destruct (Z.geb_spec (i * step + P) S); nia.
Qed.

Lemma patch_body_inv (row col : Z) (st st' : WalkState) :
  0 <= row -> 0 <= col ->
  inv st ->
  patch_body np S P step tile mask label_dict file_dir slide_name tile_nb
    row col st = Ok st' ->
  inv st'.
Proof.
  intros Hrow Hcol [Hps Hsv]. rewrite patch_body_visit. unfold visit.
  destruct (check_for_label _ _ _) as [[l |] | err]; cbn [bind];
    intros E; try discriminate; injection E as <-;
    unfold inv, walk_inv; cbn [with_flags patches saved emitted e_patches e_saved];
    [| split; assumption].
  destruct (coord_in_tile row Hrow) as [Hy0 Hy1].
  destruct (coord_in_tile col Hcol) as [Hx0 Hx1].
  split.
  - apply Forall_app. split; [exact Hps |].
    constructor; [| constructor]. cbn [snd]. unfold patch_in_tile.
    cbn [pr_patch_size pr_x_pos pr_y_pos]. lia.
  - destruct file_dir; [| exact Hsv].
    apply Forall_app. split; [exact Hsv |].
    constructor; [| constructor]. cbn [sp_pixels].
    apply (slice2d_shape S S); auto; lia.
Qed.

Lemma cols_loop_inv (cols : list Z) (row : Z) :
  0 <= row -> Forall (fun c => 0 <= c) cols ->
  forall st st', inv st ->
  cols_loop np S P step tile mask label_dict file_dir slide_name tile_nb
    cols row st = Ok st' ->
  inv st'.
Proof.
  intros Hrow Hcols. induction Hcols as [| c cols Hc _ IH]; intros st st' Hinv.
  - cbn. intros E. injection E as <-. exact Hinv.
  - cbn [cols_loop].
    destruct (patch_body _ _ _ _ _ _ _ _ _ _ _ _ st) as [st1 | err] eqn:E1;
      [| discriminate].
    cbn [bind]. pose proof (patch_body_inv _ _ _ _ Hrow Hc Hinv E1) as Hinv1.
    destruct (stop_x st1).
    + intros E. injection E as <-. exact Hinv1.
    + apply IH, Hinv1.
Qed.

Lemma rows_loop_inv (rows cols : list Z) :
  Forall (fun r => 0 <= r) rows -> Forall (fun c => 0 <= c) cols ->
  forall st st', inv st ->
  rows_loop np S P step tile mask label_dict file_dir slide_name tile_nb
    rows cols st = Ok st' ->
  inv st'.
Proof.
  intros Hrows Hcols.
  induction Hrows as [| r rows Hr _ IH]; intros st st' Hinv.
  - cbn. intros E. injection E as <-. exact Hinv.
  - cbn [rows_loop].
    destruct (cols_loop _ _ _ _ _ _ _ _ _ _ _ _ _) as [st1 | err] eqn:E1;
      [| discriminate].
    cbn [bind].
    assert (Hinv1 : inv st1).
    { eapply (cols_loop_inv cols r Hr Hcols); [| exact E1].
      destruct Hinv as [Hps Hsv]. split; assumption. }
    destruct (stop_y st1).
    + intros E. injection E as <-. exact Hinv1.
    + apply IH, Hinv1.
Qed.

End WalkInvariant.

Lemma range_nonneg (n : Z) : Forall (fun c => 0 <= c) (Np.range n).
Proof.
  eapply Forall_impl; [| apply range_bounds]. cbv beta. intros; lia.
Qed.

Lemma patch_region_shape {A : Type} (S P : Z) (r : PatchRecord)
  (m : list (list A)) :
  0 <= P -> patch_in_tile S P r -> Np.has_shape S S m ->
  Np.has_shape P P (patch_region r m).
Proof.
  intros HP (Hsz & Hx0 & Hx1 & Hy0 & Hy1) Hm. unfold patch_region.
  rewrite Hsz. apply (slice2d_shape S S); auto.
Qed.

(** C3.  For a tile of size [S] and a patch size [0 < P <= S], whatever
    the stride [step >= 0] and the numbers of candidate rows and columns:
    every patch the walk records has size [P], non-negative top-left
    coordinates and top-left plus [P] at most [S] on both axes; the region
    it designates in the tile pixels and in the annotation mask is exactly
    [P x P]; and every patch image that was saved is [P x P].  The stride
    the code computes from an overlap in [[0, 1]] is such a stride (for a
    patch size below [2^53], up to which the conversion to a float is
    exact). *)
Theorem emitted_patches_lie_within_tile
  (np : NumPy) (S P step : Z) (tile : list (list rgb))
  (mask : list (list Z)) (label_dict : LabelDict)
  (file_dir slide_name : option string) (tile_nb : nat) (rows cols : Z)
  (st : WalkState) :
  0 < P <= S -> 0 <= step ->
  Np.has_shape S S tile -> Np.has_shape S S mask ->
  rows_loop np S P step tile mask label_dict file_dir slide_name
    tile_nb (Np.range rows) (Np.range cols) (walk_init []) = Ok st ->
  Forall (fun ir => patch_in_tile S P (snd ir)
                    /\ Np.has_shape P P (patch_region (snd ir) tile)
                    /\ Np.has_shape P P (patch_region (snd ir) mask))
         (patches st)
  /\ Forall (fun s => Np.has_shape P P (sp_pixels s)) (saved st)
  /\ (forall o : Q,
        P < 2 ^ 53 -> (0 <= o)%Q -> (o <= 1)%Q -> 0 <= grid_step P o <= P).
Proof.
  intros HP Hstep Htile Hmask Hwalk.
  assert (Hinv : walk_inv S P st).
  { eapply (rows_loop_inv np S P step tile mask label_dict file_dir
              slide_name tile_nb HP Hstep Htile
              (Np.range rows) (Np.range cols));
      [apply range_nonneg | apply range_nonneg | | exact Hwalk].
    split; constructor. }
  destruct Hinv as [Hps Hsv].
  split; [| split; [exact Hsv |]].
  - eapply Forall_impl; [| exact Hps]. cbv beta. intros ir Hin.
    split; [exact Hin |].
    split; eapply patch_region_shape; eauto; lia.
  - intros o HP53 Ho Ho1. apply grid_step_range; auto; lia.
Qed.

Lemma emitted_patches_witness :
  Forall (fun ir => patch_in_tile 5 3 (snd ir)
                    /\ Np.has_shape 3 3
                         (patch_region (snd ir)
                            (Cv2.gray2rgb (Np.zeros 5 5)))
                    /\ Np.has_shape 3 3
                         (patch_region (snd ir) (Np.zeros 5 5)))
         (patches example_walk_state)
  /\ Forall (fun s => Np.has_shape 3 3 (sp_pixels s))
            (saved example_walk_state).
Proof.
  destruct (emitted_patches_lie_within_tile NumPy1 5 3 (grid_step 3 0)
              (Cv2.gray2rgb (Np.zeros 5 5)) (Np.zeros 5 5) accept_all
              (Some "out"%string) None 0 2 2 example_walk_state)
    as (H1 & H2 & _).
  - lia.
  - vm_compute. discriminate.
  - split; [reflexivity | repeat constructor].
  - split; [reflexivity | repeat constructor].
  - vm_compute. reflexivity.
  - split; [exact H1 | exact H2].
Defined.

(** ** Coordinate scaler *)

Lemma int_of_float_pos (q : Q) :
  0 < int_of_float q -> (0 <= q)%Q.
Proof.
  destruct q as [n d]. unfold int_of_float, Qle. cbn. intros H.
  destruct (Z.lt_ge_cases n 0) as [Hn | Hn]; [| lia].
  exfalso.
  pose proof (Z.quot_pos (- n) (Zpos d) ltac:(lia) ltac:(lia)) as Hq.
  rewrite Z.quot_opp_l in Hq by lia. lia.
Qed.

(** C9.  The scaling factor is the downsample factor truncated to an
    integer [f]; a tile's [x], [y] and [size] are each multiplied by [f]
    (these are the values stored in the tile's entry of the result); and
    when [f] is positive, dividing a scaled value by [f] gives back the
    original integer exactly. *)
Theorem scaler_round_trip (level_downsample : Q) (td : TileDescriptor) :
  0 < scaling_factor level_downsample ->
  (inject_Z (scaling_factor level_downsample) <= level_downsample)%Q
  /\ (level_downsample < inject_Z (scaling_factor level_downsample + 1))%Q
  /\ scale_tile (scaling_factor level_downsample) td
     = (td_x td * scaling_factor level_downsample,
        td_y td * scaling_factor level_downsample,
        td_size td * scaling_factor level_downsample)
  /\ td_x td * scaling_factor level_downsample
     / scaling_factor level_downsample = td_x td
  /\ td_y td * scaling_factor level_downsample
     / scaling_factor level_downsample = td_y td
  /\ td_size td * scaling_factor level_downsample
     / scaling_factor level_downsample = td_size td
  /\ (forall np read_region fillPoly annotations label_dict overlap
             patch_size file_dir slide_name tile_nb sv entry sv',
         extract_tile np level_downsample read_region fillPoly annotations
           label_dict overlap patch_size file_dir slide_name td tile_nb sv
         = Ok (entry, sv') ->
         te_x_pos entry = td_x td * scaling_factor level_downsample
         /\ te_y_pos entry = td_y td * scaling_factor level_downsample
         /\ te_size entry = td_size td * scaling_factor level_downsample).
Proof.
  intros Hf. unfold scaling_factor in *.
  pose proof (int_of_float_pos _ Hf) as Hd.
  rewrite (int_of_float_nonneg _ Hd) in *.
  split; [apply Qfloor_le |]. split; [apply Qlt_floor |].
  split; [reflexivity |].
  rewrite !Z.div_mul by lia.
  split; [reflexivity |]. split; [reflexivity |]. split; [reflexivity |].
  intros np rr fp ann ld ov ps fd sn tnb sv entry sv'.
  unfold extract_tile, scale_tile, scaling_factor.
  rewrite (int_of_float_nonneg _ Hd).
  destruct (candidate_steps _ _ _) as [n |]; cbn [bind]; [| discriminate].
  destruct (_ <? 0); [discriminate |].
  destruct (rows_loop _ _ _ _ _ _ _ _ _ _ _ _ _) as [st |]; cbn [bind];
    [| discriminate].
  intros E. injection E as <- _. repeat split.
Qed.

Lemma scaler_round_trip_witness :
  scale_tile (scaling_factor (65 # 2)) (mkTile 3 7 50 5) = (96, 224, 1600)
  /\ 96 / scaling_factor (65 # 2) = 3.
Proof.
  pose proof (scaler_round_trip (65 # 2) (mkTile 3 7 50 5) eq_refl)
    as (_ & _ & Hs & Hx & _).
  split; [exact Hs | exact Hx].
Defined.

(** ** Grid tiler *)

Section TilerInvariant.

Variable np : NumPy.
Variable input_mask : list (list Z).
Variable tile_size : Z.
Variable min_coverage : Q.
Variable level : Z.
Variables rows cols : Z.

Let inv := tiler_inv tile_size level rows cols.

(** Until a tile is kept, coverage is measured on the input mask. *)
Lemma tissue_coverage_input (st : TilerState) (row col : Z) :
  tissue_mask_ref st = InputMask ->
  tissue_coverage np input_mask tile_size st row col
  = input_coverage np input_mask tile_size row col.
Proof. intros H. unfold tissue_coverage. rewrite H. reflexivity. Qed.

(** Keeping a tile rebinds [tissue_mask] to the image the rectangles are
    drawn on. *)
Lemma tiler_body_rebinds (row col : Z) (st st' : TilerState) :
  tiler_body np input_mask tile_size min_coverage level row col st = Ok st' ->
  tile_nb st' <> tile_nb st ->
  tissue_mask_ref st' = ColoredImage.
Proof.
  unfold tiler_body.
  destruct (tissue_coverage _ _ _ _ _ _) as [cov |]; cbn [bind];
    [| discriminate].
  destruct (float_geb cov _); intros E; injection E as <-.
  - reflexivity.
  - congruence.
Qed.

Lemma tiler_body_inv (row col : Z) (st st' : TilerState) :
  0 <= row < rows -> 0 <= col < cols ->
  inv st ->
  tiler_body np input_mask tile_size min_coverage level row col st = Ok st' ->
  inv st'.
Proof.
  intros Hrow Hcol [Hidx Hcells]. unfold tiler_body.
  destruct (tissue_coverage _ _ _ _ _ _) as [cov |]; cbn [bind];
    [| discriminate].
  destruct (float_geb cov _); intros E; injection E as <-;
    [| split; assumption].
  split; cbn [relevant_tiles_dict tile_nb].
  - rewrite map_app, Hidx, seq_S. reflexivity.
  - apply Forall_app. split; [exact Hcells |].
    constructor; [| constructor]. exists row, col. auto.
Qed.

Lemma tiler_cols_inv (cs : list Z) (row : Z) :
  0 <= row < rows -> Forall (fun c => 0 <= c < cols) cs ->
  forall st st', inv st ->
  tiler_cols np input_mask tile_size min_coverage level cs row st = Ok st' ->
  inv st'.
Proof.
  intros Hrow Hcs. induction Hcs as [| c cs Hc _ IH]; intros st st' Hinv.
  - cbn. intros E. injection E as <-. exact Hinv.
  - cbn [tiler_cols].
    destruct (tiler_body _ _ _ _ _ _ _ st) as [st1 |] eqn:E1; [| discriminate].
    cbn [bind]. apply IH. eapply tiler_body_inv; eauto.
Qed.

Lemma tiler_rows_inv (rs cs : list Z) :
  Forall (fun r => 0 <= r < rows) rs -> Forall (fun c => 0 <= c < cols) cs ->
  forall st st', inv st ->
  tiler_rows np input_mask tile_size min_coverage level rs cs st = Ok st' ->
  inv st'.
Proof.
  intros Hrs Hcs. induction Hrs as [| r rs Hr _ IH]; intros st st' Hinv.
  - cbn. intros E. injection E as <-. exact Hinv.
  - cbn [tiler_rows].
    destruct (tiler_cols _ _ _ _ _ _ _ st) as [st1 |] eqn:E1; [| discriminate].
    cbn [bind]. apply IH. eapply tiler_cols_inv; eauto.
Qed.

End TilerInvariant.

(** What the tiler does get right: the tiles it returns are numbered
    densely from zero, and each is a full cell of the grid anchored at the
    origin, of the requested size and level. *)
Lemma get_relevant_tiles_cells (np : NumPy) (input_mask : list (list Z))
  (tile_size : Z) (min_coverage : Q) (level : Z)
  (tiles : list (nat * TileDescriptor)) :
  get_relevant_tiles np input_mask tile_size min_coverage level = Ok tiles ->
  map fst tiles = seq 0 (length tiles)
  /\ Forall (fun ir => is_grid_cell tile_size level
                         (shape0 input_mask / tile_size)
                         (shape1 input_mask / tile_size) (snd ir)) tiles.
Proof.
  unfold get_relevant_tiles. destruct (tile_size =? 0); [discriminate |].
  destruct (Np.size input_mask =? 0)%nat; [discriminate |].
  destruct (tiler_rows _ _ _ _ _ _ _ _) as [st |] eqn:E; [| discriminate].
  cbn [bind]. intros H. injection H as <-.
  assert (Hinv : tiler_inv tile_size level (shape0 input_mask / tile_size)
                   (shape1 input_mask / tile_size) st).
  { eapply tiler_rows_inv; [apply range_bounds | apply range_bounds | | exact E].
    split; constructor. }
  destruct Hinv as [Hidx Hcells]. split; [| exact Hcells].
  rewrite Hidx. f_equal.
  rewrite <- (length_map fst), Hidx, length_seq. reflexivity.
Qed.

(** The scenario of a 100x100 mask whose top-left 50x50 quadrant is set,
    tile size 50 and minimum coverage 1/2: one tile, at the origin. *)
Example quadrant_scenario (np : NumPy) :
  get_relevant_tiles np top_left_quadrant_mask 50 (1 # 2) 3
  = Ok [(0%nat, mkTile 0 0 50 3)].
Proof. vm_compute. reflexivity. Qed.

(** C4.  On a 2x4 mask with every pixel set, tile size 2 and minimum
    coverage 1, both grid cells have nonzero fraction 1 and the tiler as
    specified keeps both; the code keeps only the first: the outline drawn
    for it lowers the fraction measured for the second cell to 8/12. *)
Theorem grid_tiler_drops_covered_cell :
  spec_cell_coverage (full_mask 2 4) 2 0 0 = Ok (4 # 4)
  /\ spec_cell_coverage (full_mask 2 4) 2 0 1 = Ok (4 # 4)
  /\ spec_relevant_tiles (full_mask 2 4) 2 1 0
     = [(0%nat, mkTile 0 0 2 0); (1%nat, mkTile 2 0 2 0)]
  /\ (forall np,
        get_relevant_tiles np (full_mask 2 4) 2 1 0
        = Ok [(0%nat, mkTile 0 0 2 0)]).
Proof. repeat split. Qed.

(** C5.  On a 2x4 mask whose left tile is set and whose right tile is
    empty, with tile size 2 and minimum coverage 1/8: once the left tile is
    kept, [tissue_mask] names the image carrying its outline, the right
    cell's coverage is measured there as 2/12 (rounded to a float) instead
    of the input mask's 0/4, and the right tile is kept although its input
    coverage is zero. *)
Theorem rectangle_drawing_changes_retained_tiles (np : NumPy) :
  exists st1 : TilerState,
    tiler_body np (left_half_mask 2 2) 2 (1 # 8) 0 0 0
      (tiler_init (left_half_mask 2 2)) = Ok st1
    /\ tissue_mask_ref st1 = ColoredImage
    /\ spec_cell_coverage (left_half_mask 2 2) 2 0 1 = Ok (0 # 4)
    /\ tissue_coverage np (left_half_mask 2 2) 2 st1 0 1
       = Ok (Finite (round64 (2 # 12)))
    /\ spec_relevant_tiles (left_half_mask 2 2) 2 (1 # 8) 0
       = [(0%nat, mkTile 0 0 2 0)]
    /\ get_relevant_tiles np (left_half_mask 2 2) 2 (1 # 8) 0
       = Ok [(0%nat, mkTile 0 0 2 0); (1%nat, mkTile 2 0 2 0)].
Proof. eexists. repeat split. Qed.
(** * Further properties *)

(** ** Label classifier: outcomes of [check_for_label] *)

(** X1.  The annotated fraction of a mask with pixels is a number in
    [[0, 1]].  A mask without pixels has no such fraction: where the count
    is a Python integer the division raises [ZeroDivisionError], where it
    is a NumPy integer the quotient is [nan]. *)
Theorem label_percentage_range (np : NumPy) (mask : list (list Z)) :
  match label_percentage np mask with
  | Ok (Finite p) => Np.size mask <> 0%nat /\ (0 <= p)%Q /\ (p <= 1)%Q
  | Ok NaN => Np.size mask = 0%nat /\ np = NumPy2
  | Raise e => Np.size mask = 0%nat /\ np = NumPy1 /\ e = ZeroDivisionError
  end.
Proof.
  destruct (Nat.eq_dec (Np.size mask) 0) as [Hs | Hs].
  - rewrite (label_percentage_empty np mask Hs). destruct np; auto.
  - rewrite (label_percentage_nonempty np mask Hs).
    split; [exact Hs |].
    apply rounded_fraction_range; [apply count_nonzero_le_size | exact Hs].
Qed.

(** No comparison with [nan] holds. *)
Lemma scan_rules_nan (np : NumPy) (rules : LabelDict) (l : string) :
  scan_rules np NaN rules <> Ok (Some l).
Proof.
  induction rules as [| [l0 r0] rules IH]; [discriminate |].
  cbn [scan_rules float_eqb float_geb].
  destruct (String.eqb (rule_type r0) "=="); [exact IH |].
  destruct (String.eqb (rule_type r0) ">="); [exact IH |].
  destruct (String.eqb (rule_type r0) "<="); [discriminate | exact IH].
Qed.

(** What a scan that returns a label went through. *)
Lemma scan_rules_some (np : NumPy) (p : Q) (rules : LabelDict) (l : string) :
  scan_rules np (Finite p) rules = Ok (Some l) ->
  exists pre r rest,
    rules = pre ++ (l, r) :: rest
    /\ scan_rules np (Finite p) pre = Ok None
    /\ ((rule_type r = "=="%string /\ (rule_threshold r == p)%Q)
        \/ (rule_type r = ">="%string /\ (p <= rule_threshold r)%Q)).
Proof.
  induction rules as [| [l0 r0] rules IH]; [discriminate |].
  cbn [scan_rules].
  assert (Hrec : scan_rules np (Finite p) rules = Ok (Some l) ->
                 scan_rules np (Finite p) [(l0, r0)] = Ok None ->
                 exists pre r rest,
                   (l0, r0) :: rules = pre ++ (l, r) :: rest
                   /\ scan_rules np (Finite p) pre = Ok None
                   /\ ((rule_type r = "=="%string
                        /\ (rule_threshold r == p)%Q)
                       \/ (rule_type r = ">="%string
                           /\ (p <= rule_threshold r)%Q))).
  { intros Hs H0. destruct (IH Hs) as (pre & r & rest & -> & Hpre & Hr).
    exists ((l0, r0) :: pre), r, rest. split; [reflexivity |].
    split; [| exact Hr].
    change ((l0, r0) :: pre) with ([(l0, r0)] ++ pre).
    rewrite (scan_rules_app _ _ _ _ H0). exact Hpre. }
  cbn [scan_rules float_eqb float_geb] in *.
  destruct (String.eqb_spec (rule_type r0) "==") as [E1 | E1].
  - destruct (Qeq_bool (rule_threshold r0) p) eqn:Hc.
    + intros H. injection H as ->. exists [], r0, rules.
      repeat split. left. split; [exact E1 | apply Qeq_bool_iff, Hc].
    + intros H. apply Hrec; auto.
  - destruct (String.eqb_spec (rule_type r0) ">=") as [E2 | E2].
    + destruct (Qle_bool p (rule_threshold r0)) eqn:Hc.
      * intros H. injection H as ->. exists [], r0, rules.
        repeat split. right. split; [exact E2 | apply Qle_bool_iff, Hc].
      * intros H. apply Hrec; auto.
    + destruct (String.eqb (rule_type r0) "<="); [discriminate |].
      intros H. apply Hrec; auto.
Qed.

(** X2.  A label is returned only for a mask with pixels.  With [p] the
    float quotient of its nonzero pixels by its pixels, the label is a key
    of the rule set; its rule is of type ["=="] or [">="] and its
    comparison holds for [p]; and no rule before it matched or failed.  A
    ["<="] rule or a rule with an unknown operator never yields a label. *)
Theorem returned_label_comes_from_holding_rule
  (np : NumPy) (rules : LabelDict) (mask : list (list Z)) (l : string) :
  check_for_label np rules mask = Ok (Some l) ->
  Np.size mask <> 0%nat
  /\ exists p pre r rest,
       p = round64 (Z.of_nat (Np.count_nonzero mask)
                    # Pos.of_nat (Np.size mask))
       /\ label_percentage np mask = Ok (Finite p)
       /\ rules = pre ++ (l, r) :: rest
       /\ scan_rules np (Finite p) pre = Ok None
       /\ ((rule_type r = "=="%string /\ (rule_threshold r == p)%Q)
           \/ (rule_type r = ">="%string /\ (p <= rule_threshold r)%Q)).
Proof.
  intros H.
  assert (Hs : Np.size mask <> 0%nat).
  { intros Hs. unfold check_for_label in H.
    rewrite (label_percentage_empty np mask Hs) in H.
    destruct np; [discriminate |]. cbn [bind] in H.
    exact (scan_rules_nan _ _ _ H). }
  split; [exact Hs |].
  pose proof (label_percentage_nonempty np mask Hs) as Hp.
  rewrite (check_for_label_scan _ _ _ _ Hp) in H.
  destruct (scan_rules_some np _ rules l H) as (pre & r & rest & H1 & H2 & H3).
  eexists _, pre, r, rest. split; [reflexivity |]. auto.
Qed.

(** One annotated pixel out of three and a rule ["=="] whose threshold is
    the float nearest to 1/3. *)
Lemma returned_label_witness :
  Np.size [[1; 0; 0]] <> 0%nat
  /\ exists p pre r rest,
       p = round64 (Z.of_nat (Np.count_nonzero [[1; 0; 0]])
                    # Pos.of_nat (Np.size [[1; 0; 0]]))
       /\ label_percentage NumPy2 [[1; 0; 0]] = Ok (Finite p)
       /\ [("x"%string, mkRule "==" 1);
           ("third"%string, mkRule "==" (round64 (1 # 3)))]
          = pre ++ ("third"%string, r) :: rest
       /\ scan_rules NumPy2 (Finite p) pre = Ok None
       /\ ((rule_type r = "=="%string /\ (rule_threshold r == p)%Q)
           \/ (rule_type r = ">="%string /\ (p <= rule_threshold r)%Q)).
Proof.
  apply (returned_label_comes_from_holding_rule NumPy2
           [("x"%string, mkRule "==" 1);
            ("third"%string, mkRule "==" (round64 (1 # 3)))]
           [[1; 0; 0]] "third").
  vm_compute. reflexivity.
Defined.

Lemma scan_rules_raise (np : NumPy) (p : PyFloat) (rules : LabelDict)
  (e : exn) :
  scan_rules np p rules = Raise e ->
  e = subscript_error np
  /\ exists pre l r rest,
       rules = pre ++ (l, r) :: rest
       /\ rule_type r = "<="%string
       /\ scan_rules np p pre = Ok None.
Proof.
  induction rules as [| [l0 r0] rules IH]; [discriminate |].
  assert (Hrec : scan_rules np p rules = Raise e ->
                 scan_rules np p [(l0, r0)] = Ok None ->
                 e = subscript_error np
                 /\ exists pre l r rest,
                      (l0, r0) :: rules = pre ++ (l, r) :: rest
                      /\ rule_type r = "<="%string
                      /\ scan_rules np p pre = Ok None).
  { intros Hs H0. destruct (IH Hs) as (He & pre & l & r & rest & -> & Hr & Hpre).
    split; [exact He |].
    exists ((l0, r0) :: pre), l, r, rest. split; [reflexivity |].
    split; [exact Hr |].
    change ((l0, r0) :: pre) with ([(l0, r0)] ++ pre).
    rewrite (scan_rules_app _ _ _ _ H0). exact Hpre. }
  cbn [scan_rules] in *.
  destruct (String.eqb (rule_type r0) "==").
  - destruct (float_eqb _ p); [discriminate | auto].
  - destruct (String.eqb (rule_type r0) ">=").
    + destruct (float_geb _ p); [discriminate | auto].
    + destruct (String.eqb_spec (rule_type r0) "<=") as [E3 | E3]; [| auto].
      intros H. injection H as <-. split; [reflexivity |].
      exists [], l0, r0, rules. auto.
Qed.

(** X3.  The classifier fails in two ways only.  The division fails, with
    [ZeroDivisionError]: exactly when the mask has no pixels and the count
    is a Python integer.  Or the scan reaches a ["<="] rule and the
    subscript fails, with [TypeError] for a Python float and [IndexError]
    for a NumPy one; every rule before it was passed over, which for the
    [nan] fraction of a mask without pixels is every ["=="] and [">="]
    rule. *)
Theorem check_for_label_failures
  (np : NumPy) (rules : LabelDict) (mask : list (list Z)) (e : exn) :
  check_for_label np rules mask = Raise e <->
  (np = NumPy1 /\ e = ZeroDivisionError /\ Np.size mask = 0%nat)
  \/ (e = subscript_error np
      /\ exists p pre l r rest,
           label_percentage np mask = Ok p
           /\ rules = pre ++ (l, r) :: rest
           /\ rule_type r = "<="%string
           /\ scan_rules np p pre = Ok None).
Proof.
  unfold check_for_label. split.
  - destruct (label_percentage np mask) as [p | e0] eqn:Ep; cbn [bind].
    + intros H. right.
      destruct (scan_rules_raise np p rules e H)
        as (He & pre & l & r & rest & H1 & H2 & H3).
      split; [exact He |]. exists p, pre, l, r, rest. auto.
    + intros H. injection H as <-. left.
      pose proof (label_percentage_range np mask) as Hr.
      rewrite Ep in Hr. tauto.
  - intros [(-> & -> & Hs) | [-> (p & pre & l & r & rest & Hp & -> & Hr & Hpre)]].
    + rewrite (label_percentage_empty NumPy1 mask Hs). reflexivity.
    + rewrite Hp. cbn [bind]. rewrite (scan_rules_app _ _ _ _ Hpre).
      cbn [scan_rules].
      destruct (String.eqb_spec (rule_type r) "==") as [E | _];
        [rewrite Hr in E; discriminate |].
      destruct (String.eqb_spec (rule_type r) ">=") as [E | _];
        [rewrite Hr in E; discriminate |].
      rewrite Hr. reflexivity.
Qed.

(** X4.  Because the threshold is the left operand, a [">="] rule with a
    threshold of at least 1 that stands first labels every non-empty mask,
    and one with a negative threshold labels none: it is passed over. *)
Theorem ge_rule_extreme_thresholds
  (np : NumPy) (mask : list (list Z)) (label : string) (t : Q)
  (rest : LabelDict) :
  Np.size mask <> 0%nat ->
  ((1 <= t)%Q ->
   check_for_label np ((label, mkRule ">=" t) :: rest) mask
   = Ok (Some label))
  /\ ((t < 0)%Q ->
      check_for_label np ((label, mkRule ">=" t) :: rest) mask
      = check_for_label np rest mask).
Proof.
  intros Hs. pose proof (label_percentage_nonempty np mask Hs) as Hp.
  destruct (label_percentage_le_1 np mask _ Hp) as [H0 H1].
  rewrite !(check_for_label_scan _ _ _ _ Hp).
  cbn [scan_rules rule_type rule_threshold String.eqb Ascii.eqb Bool.eqb
       float_geb].
  set (p := round64 _) in *.
  split; intros Ht.
  - assert (Hle : (p <= t)%Q) by (eapply Qle_trans; eauto).
    apply Qle_bool_iff in Hle. rewrite Hle. reflexivity.
  - rewrite Qle_bool_false; [reflexivity |].
    intros Hle. apply (Qlt_irrefl t).
    eapply Qlt_le_trans; [exact Ht |]. eapply Qle_trans; eauto.
Qed.

Lemma ge_rule_extreme_witness :
  check_for_label NumPy1
    [("all"%string, mkRule ">=" 1); ("tumor"%string, mkRule "==" 1)]
    (full_mask 2 2)
  = Ok (Some "all"%string).
Proof.
  apply (proj1 (ge_rule_extreme_thresholds NumPy1 (full_mask 2 2) "all" 1
                  [("tumor"%string, mkRule "==" 1)] ltac:(discriminate))).
  discriminate.
Defined.

Lemma Qle_bool_comp_l (p q t : Q) :
  (p == q)%Q -> Qle_bool p t = Qle_bool q t.
Proof.
  intros E. destruct (Qle_bool p t) eqn:H1, (Qle_bool q t) eqn:H2;
    try reflexivity.
  - apply Qle_bool_iff in H1. rewrite E in H1. apply Qle_bool_iff in H1.
    congruence.
  - apply Qle_bool_iff in H2. rewrite <- E in H2. apply Qle_bool_iff in H2.
    congruence.
Qed.

Lemma scan_rules_comp (np : NumPy) (p q : Q) (rules : LabelDict) :
  (p == q)%Q ->
  scan_rules np (Finite p) rules = scan_rules np (Finite q) rules.
Proof.
  intros E. induction rules as [| [l r] rules IH]; [reflexivity |].
  cbn [scan_rules float_eqb float_geb].
  rewrite IH, (Qle_bool_comp_l p q _ E).
  replace (Qeq_bool (rule_threshold r) p) with (Qeq_bool (rule_threshold r) q);
    [reflexivity |].
  apply Qeqb_comp; [reflexivity | symmetry; exact E].
Qed.

(** X5.  The classifier sees a mask only through its annotated fraction:
    two masks, of whatever sizes, whose fractions are equal receive the same
    answer from every rule set. *)
Theorem classification_depends_on_fraction_only
  (np : NumPy) (rules : LabelDict) (mask1 mask2 : list (list Z))
  (p1 p2 : Q) :
  label_percentage np mask1 = Ok (Finite p1) ->
  label_percentage np mask2 = Ok (Finite p2) ->
  (p1 == p2)%Q ->
  check_for_label np rules mask1 = check_for_label np rules mask2.
Proof.
  intros H1 H2 E.
  rewrite (check_for_label_scan _ _ _ _ H1), (check_for_label_scan _ _ _ _ H2).
  apply scan_rules_comp, E.
Qed.

Lemma classification_fraction_witness :
  check_for_label NumPy1 [("half"%string, mkRule "==" (1 # 2))] [[1; 0]]
  = check_for_label NumPy1 [("half"%string, mkRule "==" (1 # 2))]
      [[1; 1; 0]; [0; 0; 7]].
Proof.
  apply (classification_depends_on_fraction_only NumPy1 _ _ _
           (round64 (1 # 2)) (round64 (3 # 6)));
    [reflexivity | reflexivity | vm_compute; reflexivity].
Defined.

(** ** Patch walk: what the loops keep *)

Section WalkPreserves.

Variable np : NumPy.
Variables S P step : Z.
Variable tile : list (list rgb).
Variable mask : list (list Z).
Variable label_dict : LabelDict.
Variable file_dir : option string.
Variable slide_name : option string.
Variable tile_nb : nat.

Variable I : Emitted -> Prop.
Hypothesis visit_keeps :
  forall x y e e',
    I e ->
    visit np P tile mask label_dict file_dir slide_name tile_nb x y e
    = Ok e' ->
    I e'.

Lemma patch_body_preserves (row col : Z) (st st' : WalkState) :
  I (emitted st) ->
  patch_body np S P step tile mask label_dict file_dir slide_name tile_nb
    row col st = Ok st' ->
  I (emitted st').
Proof.
  intros Hi. rewrite patch_body_visit.
  destruct (visit _ _ _ _ _ _ _ _ _ _ _) as [e |] eqn:E; [| discriminate].
  cbn [bind]. intros H. injection H as <-.
  destruct e. eapply visit_keeps; eauto.
Qed.

Lemma cols_loop_preserves (cols : list Z) (row : Z) :
  forall st st',
    I (emitted st) ->
    cols_loop np S P step tile mask label_dict file_dir slide_name tile_nb
      cols row st = Ok st' ->
    I (emitted st').
Proof.
  induction cols as [| c cols IH]; intros st st' Hi.
  - cbn. intros E. injection E as <-. exact Hi.
  - cbn [cols_loop].
    destruct (patch_body _ _ _ _ _ _ _ _ _ _ _ _ st) as [st1 |] eqn:E1;
      [| discriminate].
    cbn [bind]. pose proof (patch_body_preserves _ _ _ _ Hi E1) as Hi1.
    destruct (stop_x st1).
    + intros E. injection E as <-. exact Hi1.
    + apply IH, Hi1.
Qed.

Lemma rows_loop_preserves (rows cols : list Z) :
  forall st st',
    I (emitted st) ->
    rows_loop np S P step tile mask label_dict file_dir slide_name tile_nb
      rows cols st = Ok st' ->
    I (emitted st').
Proof.
  induction rows as [| r rows IH]; intros st st' Hi.
  - cbn. intros E. injection E as <-. exact Hi.
  - cbn [rows_loop].
    destruct (cols_loop _ _ _ _ _ _ _ _ _ _ _ _ _) as [st1 |] eqn:E1;
      [| discriminate].
    cbn [bind].
    assert (Hi1 : I (emitted st1)).
    { eapply cols_loop_preserves; [| exact E1]. destruct st; exact Hi. }
    destruct (stop_y st1).
    + intros E. injection E as <-. exact Hi1.
    + apply IH, Hi1.
Qed.

End WalkPreserves.

Lemma visit_consistent (np : NumPy) (P : Z) (tile : list (list rgb))
  (mask : list (list Z)) (label_dict : LabelDict)
  (file_dir slide_name : option string) (tile_nb : nat)
  (x y : Z) (e e' : Emitted) :
  emitted_consistent tile tile_nb file_dir e ->
  visit np P tile mask label_dict file_dir slide_name tile_nb x y e
  = Ok e' ->
  emitted_consistent tile tile_nb file_dir e'.
Proof.
  intros [Hidx Hsv]. unfold visit.
  destruct (check_for_label _ _ _) as [[l |] |]; cbn [bind];
    intros E; try discriminate; injection E as <-; [| split; assumption].
  split; cbn [e_patches e_patch_nb e_saved].
  - rewrite map_app, Hidx, seq_S. reflexivity.
  - destruct file_dir; [| exact Hsv].
    rewrite map_app, Hsv. reflexivity.
Qed.

(** X6.  Whatever the tile, the sizes, the rule set and the candidate rows
    and columns: when the walk of a tile completes, its records are numbered
    densely from zero in the order they were made, and the images written
    are exactly the regions the records designate, one per record, under
    the record's label, tile number and patch number; none is written when
    no directory is given. *)
Theorem walk_numbers_and_saves_consistently
  (np : NumPy) (S P step : Z) (tile : list (list rgb))
  (mask : list (list Z)) (label_dict : LabelDict)
  (file_dir slide_name : option string) (tile_nb : nat)
  (rows cols : list Z) (st : WalkState) :
  rows_loop np S P step tile mask label_dict file_dir slide_name tile_nb
    rows cols (walk_init []) = Ok st ->
  map fst (patches st) = seq 0 (patch_nb st)
  /\ length (patches st) = patch_nb st
  /\ saved st = match file_dir with
                | Some _ => map (saved_of tile tile_nb) (patches st)
                | None => []
                end.
Proof.
  intros Hwalk.
  assert (H : emitted_consistent tile tile_nb file_dir (emitted st)).
  { eapply (rows_loop_preserves np S P step tile mask label_dict file_dir
              slide_name tile_nb (emitted_consistent tile tile_nb file_dir));
      [| | exact Hwalk].
    - intros x y e e'. apply visit_consistent.
    - split; [reflexivity | destruct file_dir; reflexivity]. }
  destruct H as [Hidx Hsv]. cbn [emitted e_patches e_patch_nb e_saved] in *.
  split; [exact Hidx |]. split; [| exact Hsv].
  rewrite <- (length_map fst), Hidx, length_seq. reflexivity.
Qed.

Lemma walk_consistent_witness :
  map fst (patches example_walk_state) = seq 0 (patch_nb example_walk_state)
  /\ length (patches example_walk_state) = patch_nb example_walk_state
  /\ saved example_walk_state
     = map (saved_of (Cv2.gray2rgb (Np.zeros 5 5)) 0)
         (patches example_walk_state).
Proof.
  apply (walk_numbers_and_saves_consistently NumPy1 5 3 (grid_step 3 0)
           (Cv2.gray2rgb (Np.zeros 5 5)) (Np.zeros 5 5) accept_all
           (Some "out"%string) None 0 (Np.range 2) (Np.range 2)
           example_walk_state).
  vm_compute. reflexivity.
Defined.

(** ** Patch walk: the grid as one list of positions *)

Section VisitFlat.

Variable np : NumPy.
Variable P : Z.
Variable tile : list (list rgb).
Variable mask : list (list Z).
Variable label_dict : LabelDict.
Variable file_dir : option string.
Variable slide_name : option string.
Variable tile_nb : nat.

Let vis := visit np P tile mask label_dict file_dir slide_name tile_nb.
Let vrow := visit_row np P tile mask label_dict file_dir slide_name tile_nb.
Let vgrid := visit_grid np P tile mask label_dict file_dir slide_name tile_nb.
Let vlist := visit_list np P tile mask label_dict file_dir slide_name tile_nb.
Let lab := label_at np P mask label_dict.
Let rec_l := record_labelled P tile file_dir slide_name tile_nb.

Lemma visit_list_app (a b : list (Z * Z)) (e : Emitted) :
  vlist (a ++ b) e = (e' <- vlist a e ;; vlist b e').
Proof.
  revert e. induction a as [| xy a IH]; intros e; [reflexivity |].
  unfold vlist in *. cbn [app visit_list].
  destruct (visit _ _ _ _ _ _ _ _ _ _ e) as [e1 |]; cbn [bind]; auto.
Qed.

Lemma visit_row_list (xs : list Z) (y : Z) (e : Emitted) :
  vrow xs y e = vlist (map (fun x => (x, y)) xs) e.
Proof.
  revert e. induction xs as [| x xs IH]; intros e; [reflexivity |].
  unfold vrow, vlist in *. cbn [map visit_row visit_list fst snd].
  destruct (visit _ _ _ _ _ _ _ _ _ _ e) as [e1 |]; cbn [bind]; auto.
Qed.

Lemma visit_grid_list (ys xs : list Z) (e : Emitted) :
  vgrid ys xs e = vlist (grid_positions ys xs) e.
Proof.
  revert e. induction ys as [| y ys IH]; intros e; [reflexivity |].
  unfold grid_positions. cbn [flat_map]. rewrite visit_list_app.
  unfold vgrid. cbn [visit_grid]. fold vrow vgrid.
  rewrite visit_row_list.
  destruct (vlist _ e) as [e1 |]; cbn [bind]; [apply IH | reflexivity].
Qed.

Lemma visit_of_label (lbl : option string) (xy : Z * Z) (e : Emitted) :
  lab xy = Ok lbl ->
  vis (fst xy) (snd xy) e
  = Ok (match lbl with
        | Some l => rec_l l e xy
        | None => e
        end).
Proof.
  unfold lab, label_at, vis, visit. intros ->. cbn [bind].
  destruct lbl; reflexivity.
Qed.

(** When the classifier gives one and the same answer at every position,
    either every position is recorded or none is. *)
Lemma visit_list_uniform (lbl : option string) (pos : list (Z * Z)) :
  Forall (fun xy => lab xy = Ok lbl) pos ->
  forall e,
    vlist pos e
    = Ok (match lbl with
          | Some l => fold_left (rec_l l) pos e
          | None => e
          end).
Proof.
  induction 1 as [| xy pos Hxy _ IH]; intros e.
  - destruct lbl; reflexivity.
  - unfold vlist. cbn [visit_list]. fold vis vlist.
    rewrite (visit_of_label lbl xy e Hxy). cbn [bind]. rewrite IH.
    destruct lbl; reflexivity.
Qed.

Lemma fold_record_patches (l : string) (pos : list (Z * Z)) :
  forall e,
    e_patches (fold_left (rec_l l) pos e)
    = e_patches e ++ records_at P l slide_name (e_patch_nb e) pos.
Proof.
  induction pos as [| xy pos IH]; intros e.
  - cbn. rewrite app_nil_r. reflexivity.
  - cbn [fold_left]. rewrite IH. unfold rec_l, record_labelled, records_at.
    cbn [e_patches e_patch_nb length seq map combine].
    rewrite <- app_assoc. reflexivity.
Qed.

End VisitFlat.

Lemma records_at_length (P : Z) (l : string) (sn : option string)
  (start : nat) (pos : list (Z * Z)) :
  length (records_at P l sn start pos) = length pos.
Proof.
  unfold records_at. rewrite length_combine, length_seq, length_map.
  apply Nat.min_id.
Qed.

Lemma grid_positions_length (ys xs : list Z) :
  length (grid_positions ys xs) = (length ys * length xs)%nat.
Proof.
  unfold grid_positions. induction ys as [| y ys IH]; [reflexivity |].
  cbn [flat_map]. rewrite length_app, length_map, IH. reflexivity.
Qed.

Lemma grid_positions_Forall (Q : Z -> Prop) (ys xs : list Z) :
  Forall Q ys -> Forall Q xs ->
  Forall (fun xy => Q (fst xy) /\ Q (snd xy)) (grid_positions ys xs).
Proof.
  intros Hys Hxs. unfold grid_positions.
  induction Hys as [| y ys Hy _ IH]; [constructor |].
  cbn [flat_map]. apply Forall_app. split; [| exact IH].
  apply Forall_map. eapply Forall_impl; [| exact Hxs]. cbv beta. auto.
Qed.

(** ** The walk as one pass over the visited grid *)

Section FittingWalk.

Variable np : NumPy.
Variables S P step : Z.
Hypothesis HP : 0 < P <= S.
Hypothesis Hstep : 0 < step.

Lemma grid_in_tile (n : Z) :
  Forall (in_tile S P)
    (grid_positions (visited_coords S P step n)
       (visited_coords S P step n)).
Proof.
  eapply Forall_impl;
    [| apply (grid_positions_Forall (fun x => 0 <= x /\ x + P <= S));
       apply visited_coords_in_tile; assumption].
  cbv beta. unfold in_tile. tauto.
Qed.

(** The nested loops as one pass over the grid of visited coordinates. *)
Lemma walk_visits_grid (n : Z) (tile : list (list rgb))
  (mask : list (list Z)) (label_dict : LabelDict)
  (file_dir slide_name : option string) (tile_nb : nat)
  (sv : list SavedPatch) :
  rows_loop np S P step tile mask label_dict file_dir slide_name tile_nb
    (Np.range n) (Np.range n) (walk_init sv)
  = (e <- visit_list np P tile mask label_dict file_dir slide_name tile_nb
            (grid_positions (visited_coords S P step n)
               (visited_coords S P step n))
            (mkEmitted 0 [] sv) ;;
     Ok (with_flags (clamp_index S P step <? n) (clamp_index S P step <? n)
           e)).
Proof.
  rewrite (walk_visits np S P step HP Hstep), visit_grid_list. reflexivity.
Qed.

End FittingWalk.

(** ** Patches of a mask of known shape *)

Lemma has_shape_nonempty (h w : Z) (m : list (list Z)) :
  Np.has_shape h w m -> 0 < h -> 0 < w -> Np.size m <> 0%nat.
Proof.
  intros [Hh Hw] H0 H1. unfold Np.size.
  destruct m as [| r m]; [cbn in Hh; lia |].
  apply Forall_inv in Hw.
  destruct r as [| a r]; [cbn in Hw; lia |]. cbn. discriminate.
Qed.

Lemma patch_mask_nonempty (S P : Z) (mask : list (list Z)) (xy : Z * Z) :
  0 < P -> Np.has_shape S S mask -> in_tile S P xy ->
  Np.size (Np.slice2d (snd xy) (snd xy + P) (fst xy) (fst xy + P) mask)
  <> 0%nat.
Proof.
  intros HP Hm (Hx0 & Hx1 & Hy0 & Hy1).
  apply (has_shape_nonempty P P); [| lia | lia].
  apply (slice2d_shape S S); auto; lia.
Qed.

Lemma scan_rules_ge_first (np : NumPy) (p t : Q) (l : string)
  (rest : LabelDict) :
  (p <= t)%Q ->
  scan_rules np (Finite p) ((l, mkRule ">=" t) :: rest) = Ok (Some l).
Proof.
  intros H. cbn. apply Qle_bool_iff in H. rewrite H. reflexivity.
Qed.

Lemma zeros_shape (h w : Z) :
  0 <= h -> 0 <= w -> Np.has_shape h w (Np.zeros h w).
Proof.
  intros Hh Hw. unfold Np.zeros. split.
  - rewrite repeat_length. lia.
  - apply Forall_forall. intros r Hr. apply repeat_spec in Hr. subst r.
    rewrite repeat_length. lia.
Qed.

Lemma zeros_all_zero (h w : Z) : all_zero (Np.zeros h w).
Proof.
  unfold all_zero, Np.zeros. apply Forall_forall. intros r Hr.
  apply repeat_spec in Hr. subst r. apply Forall_forall. intros v Hv.
  apply repeat_spec in Hv. exact Hv.
Qed.

Lemma slice2d_all_zero (r0 r1 c0 c1 : Z) (m : list (list Z)) :
  all_zero m -> all_zero (Np.slice2d r0 r1 c0 c1 m).
Proof.
  intros H. unfold all_zero, Np.slice2d. apply Forall_map.
  apply slice_Forall. eapply Forall_impl; [| exact H]. cbv beta.
  intros r Hr. apply slice_Forall, Hr.
Qed.

Lemma all_zero_count (m : list (list Z)) :
  all_zero m -> Np.count_nonzero m = 0%nat.
Proof.
  unfold all_zero, Np.count_nonzero. induction 1 as [| r m Hr _ IH];
    [reflexivity |].
  cbn [concat]. rewrite filter_app, length_app, IH, Nat.add_0_r.
  clear IH. induction Hr as [| v r Hv _ IHr]; [reflexivity |].
  subst v. cbn. exact IHr.
Qed.

(** A non-empty mask without annotated pixels is classified like the
    fraction 0. *)
Lemma check_for_label_all_zero (np : NumPy) (rules : LabelDict)
  (m : list (list Z)) :
  all_zero m -> Np.size m <> 0%nat ->
  check_for_label np rules m = scan_rules np (Finite 0) rules.
Proof.
  intros Hz Hs. pose proof (label_percentage_nonempty np m Hs) as Hp.
  rewrite (check_for_label_scan _ _ _ _ Hp).
  rewrite (all_zero_count m Hz). reflexivity.
Qed.

Lemma fold_record_nb (P : Z) (tile : list (list rgb))
  (file_dir slide_name : option string) (tile_nb : nat) (label : string)
  (pos : list (Z * Z)) :
  forall e,
    e_patch_nb
      (fold_left (record_labelled P tile file_dir slide_name tile_nb label)
         pos e)
    = (e_patch_nb e + length pos)%nat.
Proof.
  induction pos as [| xy pos IH]; intros e; cbn [fold_left length];
    [lia |].
  rewrite IH. cbn [record_labelled e_patch_nb]. lia.
Qed.

(** X7.  For a tile of size [S] whose mask is [S x S], a patch size
    [0 < P <= S], any stride [step > 0] and any number [n] of candidates
    per axis: when the first rule is of type [">="] with a threshold of at
    least 1, the walk completes and records a patch with that rule's label
    at every position of the visited grid, in row-major order and numbered
    from zero.  With [k] the index of the clamped candidate, that is
    [min(n, k + 1)^2] patches; when [n] exceeds [k] the grid is the clamped
    grid [0, step, ..., (k-1) * step, S - P] and there are [(k + 1)^2]. *)
Theorem catch_all_rule_records_whole_grid
  (np : NumPy) (S P step n : Z) (tile : list (list rgb))
  (mask : list (list Z)) (label : string) (t : Q) (rest : LabelDict)
  (file_dir slide_name : option string) (tile_nb : nat) :
  0 < P <= S -> 0 < step ->
  Np.has_shape S S mask -> (1 <= t)%Q ->
  exists st : WalkState,
    rows_loop np S P step tile mask
      ((label, mkRule ">=" t) :: rest) file_dir slide_name tile_nb
      (Np.range n) (Np.range n) (walk_init []) = Ok st
    /\ patches st
       = records_at P label slide_name 0
           (grid_positions (visited_coords S P step n)
              (visited_coords S P step n))
    /\ Z.of_nat (patch_nb st)
       = Z.min (Z.max n 0) (clamp_index S P step + 1)
         * Z.min (Z.max n 0) (clamp_index S P step + 1)
    /\ (clamp_index S P step < n ->
        visited_coords S P step n = axis_coords S P step
        /\ Z.of_nat (patch_nb st)
           = (clamp_index S P step + 1) * (clamp_index S P step + 1)).
Proof.
  intros HP Hstep Hmask Ht.
  set (rules := (label, mkRule ">=" t) :: rest).
  set (axis := visited_coords S P step n).
  pose proof (walk_visits_grid np S P step HP Hstep n tile mask rules
                file_dir slide_name tile_nb []) as Hwalk.
  fold axis in Hwalk.
  assert (Hlab : Forall (fun xy => label_at np P mask rules xy
                                   = Ok (Some label))
                   (grid_positions axis axis)).
  { eapply Forall_impl; [| apply (grid_in_tile S P step HP Hstep n)].
    cbv beta. intros xy Hxy. unfold label_at.
    pose proof (patch_mask_nonempty S P mask xy ltac:(lia) Hmask Hxy) as Hne.
    pose proof (label_percentage_nonempty np _ Hne) as Hp.
    rewrite (check_for_label_scan _ _ _ _ Hp).
    apply scan_rules_ge_first.
    destruct (label_percentage_le_1 np _ _ Hp) as [_ H1].
    eapply Qle_trans; eauto. }
  rewrite (visit_list_uniform np P tile mask rules file_dir slide_name
             tile_nb (Some label) _ Hlab) in Hwalk.
  cbn [bind] in Hwalk.
  eexists. split; [exact Hwalk |].
  cbn [with_flags patches patch_nb].
  split; [rewrite fold_record_patches; reflexivity |].
  rewrite fold_record_nb. cbn [e_patch_nb]. rewrite grid_positions_length.
  pose proof (visited_coords_length S P step HP Hstep n) as Hlen.
  fold axis in Hlen.
  split; [nia |].
  intros Hn. split.
  - unfold axis, visited_coords.
    destruct (Z.ltb_spec (clamp_index S P step) n); [reflexivity | lia].
  - nia.
Qed.

Lemma catch_all_witness :
  exists st : WalkState,
    rows_loop NumPy1 100 60 (grid_step 60 0) [] (Np.zeros 100 100)
      [("any"%string, mkRule ">=" 1)] None None 0
      (Np.range 2) (Np.range 2) (walk_init []) = Ok st
    /\ patches st
       = records_at 60 "any" None 0 [(0, 0); (40, 0); (0, 40); (40, 40)]
    /\ Z.of_nat (patch_nb st) = 4.
Proof.
  destruct (catch_all_rule_records_whole_grid NumPy1 100 60 (grid_step 60 0)
              2 [] (Np.zeros 100 100) "any" 1 [] None None 0)
    as (st & Hwalk & Hps & Hnb & _).
  - lia.
  - vm_compute. reflexivity.
  - apply zeros_shape; lia.
  - discriminate.
  - exists st. split; [exact Hwalk |]. split; [exact Hps | exact Hnb].
Defined.

(** X8.  A tile processed without any annotation polygon, for a patch size
    that fits the scaled tile, an overlap that leaves a positive stride and
    a rule set without ["<="] rule: every patch has fraction 0, so all
    patches receive the label of the first rule that holds at 0 and the
    whole grid visited with the computed stride and count is recorded; when
    no rule holds at 0, the tile has no patches. *)
Theorem tile_without_annotations_is_labelled_uniformly
  (np : NumPy) (level_downsample : Q)
  (read_region : Z -> Z -> Z -> list (list rgb))
  (fillPoly : list (list Z) -> list (Q * Q) -> list (list Z))
  (label_dict : LabelDict) (overlap : Q) (patch_size : Z)
  (file_dir slide_name : option string) (td : TileDescriptor)
  (tile_nb : nat) (sv : list SavedPatch) :
  0 < patch_size <= td_size td * scaling_factor level_downsample ->
  0 < grid_step patch_size overlap ->
  has_le_rule label_dict = false ->
  exists (n : Z) (sv' : list SavedPatch),
    candidate_steps (td_size td * scaling_factor level_downsample)
      patch_size overlap = Ok n
    /\ extract_tile np level_downsample read_region fillPoly [] label_dict
         overlap patch_size file_dir slide_name td tile_nb sv
       = Ok (mkEntry (td_x td * scaling_factor level_downsample)
               (td_y td * scaling_factor level_downsample)
               (td_size td * scaling_factor level_downsample)
               (match spec_first_match 0 label_dict with
                | Some l =>
                    records_at patch_size l slide_name 0
                      (grid_positions
                         (visited_coords
                            (td_size td * scaling_factor level_downsample)
                            patch_size (grid_step patch_size overlap) n)
                         (visited_coords
                            (td_size td * scaling_factor level_downsample)
                            patch_size (grid_step patch_size overlap) n))
                | None => []
                end),
             sv').
Proof.
  intros HP Hstep Hle.
  set (f := scaling_factor level_downsample) in *.
  set (S := td_size td * f) in *.
  destruct (candidate_steps_defined S patch_size overlap ltac:(lia))
    as [n Hn].
  set (axis := visited_coords S patch_size (grid_step patch_size overlap) n).
  exists n.
  unfold extract_tile, scale_tile. fold f S.
  set (tile := read_region (td_x td * f) (td_y td * f) S).
  unfold tile_annotation_mask_of, tile_annotation_list.
  cbn [map fold_left].
  rewrite Hn. cbn [bind].
  destruct (Z.ltb_spec S 0) as [Hneg | _]; [lia |].
  rewrite (walk_visits_grid np S patch_size _ HP Hstep n).
  fold axis.
  assert (Hlab : Forall (fun xy => label_at np patch_size (Np.zeros S S)
                                     label_dict xy
                                   = Ok (spec_first_match 0 label_dict))
                   (grid_positions axis axis)).
  { eapply Forall_impl; [| apply (grid_in_tile S patch_size _ HP Hstep n)].
    cbv beta. intros xy Hxy. unfold label_at.
    rewrite check_for_label_all_zero.
    - apply scan_rules_first_match, Hle.
    - apply slice2d_all_zero, zeros_all_zero.
    - apply (patch_mask_nonempty S); [lia | apply zeros_shape; lia | exact Hxy]. }
  rewrite (visit_list_uniform np patch_size tile (Np.zeros S S) label_dict
             file_dir slide_name tile_nb _ _ Hlab).
  cbn [bind with_flags patches saved].
  eexists. split; [reflexivity |]. f_equal. f_equal. f_equal.
  destruct (spec_first_match 0 label_dict) as [l |]; [| reflexivity].
  rewrite fold_record_patches. reflexivity.
Qed.

(** Tile size 9, patch size 5 and overlap 0.6: the stride is 2, and the
    patches are taken at 0, 2 and 4 on each axis. *)
Lemma tile_without_annotations_witness :
  exists (n : Z) (sv' : list SavedPatch),
    candidate_steps 9 5 (round64 (6 # 10)) = Ok n
    /\ extract_tile NumPy2 3 (fun _ _ _ => []) (fun m _ => m) []
         [("tumor"%string, mkRule "==" 1); ("normal"%string, mkRule "==" 0)]
         (round64 (6 # 10)) 5 None None (mkTile 1 2 3 0) 0 []
       = Ok (mkEntry 3 6 9
               (records_at 5 "normal" None 0
                  [(0, 0); (2, 0); (4, 0); (0, 2); (2, 2); (4, 2);
                   (0, 4); (2, 4); (4, 4)]),
             sv').
Proof.
  destruct (tile_without_annotations_is_labelled_uniformly NumPy2 3
              (fun _ _ _ => []) (fun m _ => m)
              [("tumor"%string, mkRule "==" 1);
               ("normal"%string, mkRule "==" 0)]
              (round64 (6 # 10)) 5 None None (mkTile 1 2 3 0) 0 [])
    as (n & sv' & Hn & Hx).
  - cbn. lia.
  - vm_compute. reflexivity.
  - reflexivity.
  - exists n, sv'. split; [exact Hn |].
    rewrite Hx. vm_compute in Hn. injection Hn as <-.
    vm_compute. reflexivity.
Defined.


(** ** Patches that do not fit, strides that do not advance *)

Lemma slice_length_clip {A : Type} (a b : Z) (l : list A) :
  Z.of_nat (length (Np.slice a b l))
  = Z.max 0 (Np.clip_index (Z.of_nat (length l)) b
             - Np.clip_index (Z.of_nat (length l)) a).
Proof.
  unfold Np.slice, Np.clip_index.
  rewrite length_firstn, length_skipn.
  destruct (Z.ltb_spec a 0), (Z.ltb_spec b 0); lia.
Qed.

(** The region [m[S-P : S, S-P : S]] of an [S x S] array when [P > S]. *)
Lemma oversized_region_shape {A : Type} (S P : Z) (m : list (list A)) :
  0 < S < P -> Np.has_shape S S m ->
  Np.has_shape (Z.min (P - S) S) (Z.min (P - S) S)
    (Np.slice2d (S - P) (S - P + P) (S - P) (S - P + P) m).
Proof.
  intros HS [Hh Hw]. unfold Np.slice2d. split.
  - rewrite length_map, slice_length_clip, Hh. unfold Np.clip_index.
    destruct (Z.ltb_spec (S - P) 0), (Z.ltb_spec (S - P + P) 0); lia.
  - apply Forall_map, slice_Forall.
    eapply Forall_impl; [| exact Hw]. cbv beta. intros r Hr.
    rewrite slice_length_clip, Hr. unfold Np.clip_index.
    destruct (Z.ltb_spec (S - P) 0), (Z.ltb_spec (S - P + P) 0); lia.
Qed.

(** With a stride in [(0, 2^53)], a tile size of at least 1 and a
    non-negative overlap the candidate count is at least 1. *)
Lemma candidate_steps_positive (S P : Z) (o : Q) :
  1 <= S -> (0 <= o)%Q -> 0 < grid_step P o < 2 ^ 53 ->
  exists n, candidate_steps S P o = Ok n /\ 1 <= n.
Proof.
  intros HS Ho Hstep. rewrite candidate_steps_ok by lia.
  eexists. split; [reflexivity |].
  set (step := grid_step P o) in *.
  set (x := round64 (float_of_int S + o)).
  assert (Hx : (1 <= x)%Q).
  { apply (round64_ge_int _ 1); [lia |].
    apply Qle_trans with (float_of_int S + 0)%Q.
    - rewrite Qplus_0_r. apply (round64_ge_int _ 1); [lia |].
      rewrite <- Zle_Qle. exact HS.
    - apply Qplus_le_r, Ho. }
  pose proof (float_of_int_exact step ltac:(lia)) as Hy.
  assert (Hy0 : (0 < float_of_int step)%Q).
  { rewrite Hy. change 0%Q with (inject_Z 0). rewrite <- Zlt_Qlt. lia. }
  assert (Hq : (1 # 2 ^ 53 <= x / float_of_int step)%Q).
  { apply Qle_shift_div_l; [exact Hy0 |].
    apply Qle_trans with 1%Q; [| exact Hx].
    rewrite Hy. unfold Qle. cbn [Qnum Qden Qmult inject_Z].
    change (Z.pos (2 ^ 53)) with (2 ^ 53). lia. }
  pose proof (round64_pos _ Hq) as Hr.
  assert (H1 : 0 < Qceiling (round64 (x / float_of_int step))).
  { rewrite Zlt_Qlt. eapply Qlt_le_trans; [exact Hr | apply Qle_ceiling]. }
  lia.
Qed.

(** X9.  A patch size larger than the tile ([0 < S < P]) is not rejected:
    whatever the stride, a walk over at least one candidate row and column
    makes exactly one visit, at the negative top-left coordinate [S - P] on
    both axes.  A record made there still states patch size [P], while the
    region cut out of an [S x S] array is only [min(P - S, S)] pixels wide
    and high.  The count the code computes is at least 1 whenever the
    overlap is not negative and the stride is positive (and below [2^53],
    where integers are floats). *)
Theorem oversized_patch_is_visited_once
  (np : NumPy) (S P step n : Z) (tile : list (list rgb))
  (mask : list (list Z)) (label_dict : LabelDict)
  (file_dir slide_name : option string) (tile_nb : nat)
  (sv : list SavedPatch) :
  0 < S < P -> 1 <= n ->
  rows_loop np S P step tile mask label_dict file_dir slide_name tile_nb
    (Np.range n) (Np.range n) (walk_init sv)
  = (e <- visit np P tile mask label_dict file_dir slide_name tile_nb
            (S - P) (S - P) (mkEmitted 0 [] sv) ;;
     Ok (with_flags true true e))
  /\ (forall st,
        rows_loop np S P step tile mask label_dict file_dir slide_name
          tile_nb (Np.range n) (Np.range n) (walk_init sv)
        = Ok st ->
        (length (patches st) <= 1)%nat
        /\ Forall (fun ir => pr_x_pos (snd ir) = S - P
                             /\ pr_y_pos (snd ir) = S - P
                             /\ pr_patch_size (snd ir) = P)
                  (patches st))
  /\ (Np.has_shape S S mask ->
      Np.has_shape (Z.min (P - S) S) (Z.min (P - S) S)
        (Np.slice2d (S - P) (S - P + P) (S - P) (S - P + P) mask))
  /\ (Np.has_shape S S tile ->
      Np.has_shape (Z.min (P - S) S) (Z.min (P - S) S)
        (Np.slice2d (S - P) (S - P + P) (S - P) (S - P + P) tile))
  /\ (forall o : Q,
        (0 <= o)%Q -> 0 < grid_step P o < 2 ^ 53 ->
        exists m, candidate_steps S P o = Ok m /\ 1 <= m).
Proof.
  intros HS Hn.
  assert (Hn1 : 0 <= 0 < n) by lia.
  destruct (range_split 0 n Hn1) as [post Hsplit].
  assert (Hwalk :
            rows_loop np S P step tile mask label_dict file_dir slide_name
              tile_nb (Np.range n) (Np.range n) (walk_init sv)
            = (e <- visit np P tile mask label_dict file_dir slide_name
                      tile_nb (S - P) (S - P) (mkEmitted 0 [] sv) ;;
               Ok (with_flags true true e))).
  { rewrite Hsplit. change (Np.range 0) with (@nil Z).
    rewrite (rows_loop_axis np S P step tile mask label_dict file_dir
               slide_name tile_nb [] 0 post [] 0 post)
      by (auto; lia).
    cbn [map app visit_grid visit_row emitted walk_init patch_nb patches
           saved].
    destruct (visit _ _ _ _ _ _ _ _ _ _ _) as [e |]; reflexivity. }
  split; [exact Hwalk |].
  split; [| split; [| split]];
    [| apply oversized_region_shape; exact HS
     | apply oversized_region_shape; exact HS |].
  - intros st. rewrite Hwalk. unfold visit.
    destruct (check_for_label _ _ _) as [[l |] |]; cbn [bind];
      intros E; try discriminate; injection E as <-;
      cbn [with_flags patches e_patches app length].
    + split; [lia |]. repeat constructor.
    + split; [lia | constructor].
  - intros o Ho Hstep. apply candidate_steps_positive; [lia | exact Ho | exact Hstep].
Qed.

Lemma oversized_patch_witness :
  exists st : WalkState,
    rows_loop NumPy1 5 8 (grid_step 8 0) (Cv2.gray2rgb (Np.zeros 5 5))
      (Np.zeros 5 5) accept_all None None 0 (Np.range 1) (Np.range 1)
      (walk_init []) = Ok st
    /\ patches st = [(0%nat, mkPatch (-3) (-3) 8 "any" None)]
    /\ Np.has_shape 3 3
         (Np.slice2d (-3) 5 (-3) 5 (Np.zeros 5 5))
    /\ candidate_steps 5 8 0 = Ok 1.
Proof.
  destruct (oversized_patch_is_visited_once NumPy1 5 8 (grid_step 8 0) 1
              (Cv2.gray2rgb (Np.zeros 5 5)) (Np.zeros 5 5) accept_all
              None None 0 [])
    as (Hwalk & _ & Hshape & _ & _);
    [lia | lia |].
  eexists. split; [rewrite Hwalk; vm_compute; reflexivity |].
  split; [reflexivity |].
  split; [| vm_compute; reflexivity].
  apply Hshape. split; [reflexivity | repeat constructor].
Defined.

Lemma int_of_float_comp (p q : Q) :
  (p == q)%Q -> int_of_float p = int_of_float q.
Proof.
  destruct p as [a b], q as [c d]. unfold Qeq, int_of_float. cbn.
  intros E.
  rewrite <- (Z.quot_mul_cancel_r a (Z.pos b) (Z.pos d)) by lia.
  rewrite E.
  rewrite (Z.mul_comm (Z.pos b) (Z.pos d)).
  apply Z.quot_mul_cancel_r; lia.
Qed.

(** With an overlap of 1 the pixel overlap is the patch size itself, as
    long as the patch size is a float (magnitude below [2^53]); with a
    patch size of 0 it is 0. *)
Lemma grid_step_zero (P : Z) (o : Q) :
  ((o == 1)%Q /\ Z.abs P < 2 ^ 53) \/ P = 0 -> grid_step P o = 0.
Proof.
  unfold grid_step, px_overlap. intros [[Ho HP] | ->].
  - rewrite (int_of_float_int _ P); [lia |].
    rewrite (round64_comp _ (inject_Z P)).
    + apply round64_int, HP.
    + rewrite Ho, Qmult_1_r. apply float_of_int_exact, HP.
  - rewrite (int_of_float_int _ 0); [lia |].
    rewrite (round64_comp _ 0); [reflexivity |].
    change (float_of_int 0) with 0%Q. apply Qmult_0_l.
Qed.

(** X10.  An overlap of 1 (each patch would start where the previous one
    does, for a patch size of magnitude below [2^53]) or a patch size of 0
    makes the stride zero: with at least one tile to process,
    [extract_patches] raises [ZeroDivisionError] and returns nothing,
    whatever the tiles, annotations and rules. *)
Theorem zero_stride_raises
  (np : NumPy) (level_downsample : Q)
  (read_region : Z -> Z -> Z -> list (list rgb))
  (fillPoly : list (list Z) -> list (Q * Q) -> list (list Z))
  (annotations : list (list (Q * Q))) (label_dict : LabelDict)
  (overlap : Q) (patch_size : Z) (file_dir slide_name : option string)
  (tile_dict : list (nat * TileDescriptor)) :
  tile_dict <> [] ->
  ((overlap == 1)%Q /\ Z.abs patch_size < 2 ^ 53) \/ patch_size = 0 ->
  extract_patches np level_downsample read_region fillPoly annotations
    label_dict overlap patch_size file_dir slide_name tile_dict
  = Raise ZeroDivisionError.
Proof.
  intros Hne Hz. destruct tile_dict as [| [key td] rest]; [contradiction |].
  unfold extract_patches. cbn [tiles_loop]. unfold extract_tile, scale_tile.
  unfold candidate_steps. rewrite (grid_step_zero _ _ Hz). reflexivity.
Qed.

Lemma zero_stride_witness :
  extract_patches NumPy1 32 (fun _ _ _ => []) (fun m _ => m) [] accept_all
    1 256 None None [(0%nat, mkTile 0 0 16 5)]
  = Raise ZeroDivisionError.
Proof.
  apply zero_stride_raises;
    [discriminate | left; split; [reflexivity | vm_compute; reflexivity]].
Defined.

(** Beyond [2^53] the conversion of the patch size to a float is not
    exact, and an overlap of 1 need not give a stride of zero. *)
Example zero_stride_needs_exact_patch_size :
  grid_step (2 ^ 53 + 1) 1 = 1.
Proof. vm_compute. reflexivity. Qed.

Lemma grid_step_negative (P : Z) (o : Q) :
  0 < P -> (2 <= o)%Q -> grid_step P o < 0.
Proof.
  intros HP Ho. unfold grid_step, px_overlap.
  pose proof (Z.log2_spec P HP) as [Hlo Hhi].
  pose proof (Z.log2_nonneg P) as Hl.
  set (l := Z.log2 P) in *.
  assert (HF : (inject_Z (2 ^ l) <= float_of_int P)%Q).
  { apply round64_ge_pow2; [exact Hl |]. rewrite <- Zle_Qle. exact Hlo. }
  assert (Hx : (inject_Z (2 ^ (l + 1)) <= float_of_int P * o)%Q).
  { rewrite Z.pow_add_r, inject_Z_mult by lia.
    apply Qmult_le_compat_nonneg.
    - split; [apply Qlt_le_weak, pow2_pos, Hl | exact HF].
    - split; [discriminate | exact Ho]. }
  pose proof (round64_ge_pow2 _ (l + 1) ltac:(lia) Hx) as Hr.
  rewrite int_of_float_nonneg.
  - assert (2 ^ (l + 1) <= Qfloor (round64 (float_of_int P * o))).
    { apply Z.le_trans with (Qfloor (inject_Z (2 ^ (l + 1))));
        [rewrite Qfloor_Z; lia | apply Qfloor_resp_le, Hr]. }
    replace (Z.succ l) with (l + 1) in Hhi by lia. lia.
  - eapply Qle_trans; [| exact Hr].
    apply Qlt_le_weak, pow2_pos. lia.
Qed.

Lemma candidate_steps_negative_stride (S P : Z) (o : Q) :
  0 <= S -> (0 <= o)%Q -> grid_step P o < 0 ->
  exists n, candidate_steps S P o = Ok n /\ n <= 0.
Proof.
  intros HS Ho Hstep. rewrite candidate_steps_ok by lia.
  eexists. split; [reflexivity |].
  apply Z.le_trans with (Qceiling (inject_Z 0)); [| rewrite Qceiling_Z; lia].
  apply Qceiling_resp_le. apply round64_nonpos.
  set (x := round64 (float_of_int S + o)).
  assert (Hx : (0 <= x)%Q).
  { apply round64_nonneg.
    apply Qle_trans with (0 + 0)%Q; [apply Qle_refl |].
    apply Qplus_le_compat; [apply float_of_int_nonneg, HS | exact Ho]. }
  pose proof (float_of_int_nonpos (grid_step P o) ltac:(lia)) as Hy.
  set (y := float_of_int (grid_step P o)) in *.
  unfold Qdiv.
  assert (Hinv : (/ y <= 0)%Q).
  { destruct y as [[| a | a] b]; unfold Qle, Qinv in *; cbn in *; lia. }
  setoid_replace (x * / y)%Q with (- (x * - / y))%Q by ring.
  apply (Qopp_le_compat 0). apply Qmult_le_0_compat; [exact Hx |].
  apply (Qopp_le_compat _ 0) in Hinv. exact Hinv.
Qed.

(** X11.  An overlap of 2 or more makes the stride negative: nothing is
    raised, the candidate count is not positive, the loops do not run, and
    every tile of non-negative size gets an entry without patches. *)
Theorem negative_stride_yields_no_patches
  (np : NumPy) (level_downsample : Q)
  (read_region : Z -> Z -> Z -> list (list rgb))
  (fillPoly : list (list Z) -> list (Q * Q) -> list (list Z))
  (annotations : list (list (Q * Q))) (label_dict : LabelDict)
  (overlap : Q) (patch_size : Z) (file_dir slide_name : option string)
  (td : TileDescriptor) (tile_nb : nat) (sv : list SavedPatch) :
  0 < patch_size -> (2 <= overlap)%Q ->
  0 <= td_size td * scaling_factor level_downsample ->
  extract_tile np level_downsample read_region fillPoly annotations
    label_dict overlap patch_size file_dir slide_name td tile_nb sv
  = Ok (mkEntry (td_x td * scaling_factor level_downsample)
          (td_y td * scaling_factor level_downsample)
          (td_size td * scaling_factor level_downsample) [],
        sv).
Proof.
  intros HP Ho HS.
  assert (Ho0 : (0 <= overlap)%Q)
    by (eapply Qle_trans; [| exact Ho]; discriminate).
  destruct (candidate_steps_negative_stride _ patch_size overlap HS Ho0
              (grid_step_negative _ _ HP Ho)) as (n & Hn & Hn0).
  unfold extract_tile, scale_tile. rewrite Hn. cbn [bind].
  destruct (Z.ltb_spec (td_size td * scaling_factor level_downsample) 0);
    [lia |].
  unfold Np.range. replace (Z.to_nat n) with 0%nat by lia.
  reflexivity.
Qed.

Lemma negative_stride_witness :
  extract_tile NumPy1 32 (fun _ _ _ => []) (fun m _ => m) [] accept_all 2
    256 None None (mkTile 1 2 16 5) 0 []
  = Ok (mkEntry 32 64 512 [], []).
Proof.
  apply (negative_stride_yields_no_patches NumPy1 32 (fun _ _ _ => [])
           (fun m _ => m) [] accept_all 2 256 None None (mkTile 1 2 16 5)
           0 []).
  - lia.
  - discriminate.
  - cbn. lia.
Defined.

(** ** All tiles of a slide: [extract_patches] *)

Section TilesLoop.

Variable np : NumPy.
Variable level_downsample : Q.
Variable read_region : Z -> Z -> Z -> list (list rgb).
Variable fillPoly : list (list Z) -> list (Q * Q) -> list (list Z).
Variable annotations : list (list (Q * Q)).
Variable label_dict : LabelDict.
Variable overlap : Q.
Variable patch_size : Z.
Variable file_dir : option string.
Variable slide_name : option string.

Let f := scaling_factor level_downsample.
Let ext := extract_tile np level_downsample read_region fillPoly annotations
             label_dict overlap patch_size file_dir slide_name.
Let loop := tiles_loop np level_downsample read_region fillPoly annotations
              label_dict overlap patch_size file_dir slide_name.

Lemma visit_numbering (P : Z) (tile : list (list rgb))
  (mask : list (list Z)) (ld : LabelDict) (fd sn : option string)
  (nb : nat) (x y : Z) (e e' : Emitted) :
  map fst (e_patches e) = seq 0 (e_patch_nb e) ->
  visit np P tile mask ld fd sn nb x y e = Ok e' ->
  map fst (e_patches e') = seq 0 (e_patch_nb e').
Proof.
  intros Hidx. unfold visit.
  destruct (check_for_label _ _ _) as [[l |] |]; cbn [bind];
    intros E; try discriminate; injection E as <-; [| exact Hidx].
  cbn [e_patches e_patch_nb]. rewrite map_app, Hidx, seq_S. reflexivity.
Qed.

Lemma extract_tile_entry (td : TileDescriptor) (nb : nat)
  (sv sv' : list SavedPatch) (entry : TileEntry) :
  ext td nb sv = Ok (entry, sv') ->
  entry_header entry = scale_tile f td /\ densely_numbered entry.
Proof.
  unfold ext, extract_tile, scale_tile. fold f.
  destruct (candidate_steps _ _ _) as [n |]; cbn [bind]; [| discriminate].
  destruct (_ <? 0); [discriminate |].
  destruct (rows_loop _ _ _ _ _ _ _ _ _ _ _ _ _) as [st |] eqn:Hwalk;
    cbn [bind]; [| discriminate].
  intros E. injection E as <- _. split; [reflexivity |].
  unfold densely_numbered. cbn [te_patches].
  assert (H : map fst (e_patches (emitted st)) = seq 0 (e_patch_nb (emitted st))).
  { eapply (rows_loop_preserves _ _ _ _ _ _ _ _ _ _
              (fun e => map fst (e_patches e) = seq 0 (e_patch_nb e)));
      [| | exact Hwalk].
    - intros x y e e'. apply visit_numbering.
    - reflexivity. }
  cbn [emitted e_patches e_patch_nb] in H. rewrite H. f_equal.
  rewrite <- (length_map fst), H, length_seq. reflexivity.
Qed.

Lemma tiles_loop_entries (tile_dict : list (nat * TileDescriptor)) :
  forall (nb : nat) (pd0 : list (nat * TileEntry)) (sv0 : list SavedPatch)
         (pd : list (nat * TileEntry)) (sv : list SavedPatch),
    loop tile_dict nb pd0 sv0 = Ok (pd, sv) ->
    exists pd1,
      pd = pd0 ++ pd1
      /\ map fst pd1 = seq nb (length tile_dict)
      /\ map (fun ie => entry_header (snd ie)) pd1
         = map (fun kt => scale_tile f (snd kt)) tile_dict
      /\ Forall (fun ie => densely_numbered (snd ie)) pd1.
Proof.
  induction tile_dict as [| [key td] rest IH]; intros nb pd0 sv0 pd sv.
  - cbn. intros E. injection E as <- <-. exists []. rewrite app_nil_r.
    repeat split. constructor.
  - unfold loop. cbn [tiles_loop]. fold ext loop.
    destruct (ext td nb sv0) as [[entry sv1] |] eqn:He; cbn [bind];
      [| discriminate].
    cbn [fst snd]. intros Hl.
    destruct (IH _ _ _ _ _ Hl) as (pd1 & -> & Hk & Hh & Hd).
    destruct (extract_tile_entry _ _ _ _ _ He) as [Hhead Hdense].
    exists ((nb, entry) :: pd1). rewrite <- app_assoc.
    split; [reflexivity |]. cbn [map length seq fst snd].
    split; [rewrite Hk; reflexivity |].
    split; [rewrite Hh, Hhead; reflexivity |].
    constructor; assumption.
Qed.

End TilesLoop.

(** X12.  When [extract_patches] returns, its dictionary has exactly one
    entry per input tile, in the order of the input and renumbered from
    zero whatever the input keys were; each entry stores the tile's [x],
    [y] and [size] multiplied by the truncated downsample factor; and
    within each entry the patches are numbered densely from zero. *)
Theorem extract_patches_entries
  (np : NumPy) (level_downsample : Q)
  (read_region : Z -> Z -> Z -> list (list rgb))
  (fillPoly : list (list Z) -> list (Q * Q) -> list (list Z))
  (annotations : list (list (Q * Q))) (label_dict : LabelDict)
  (overlap : Q) (patch_size : Z) (file_dir slide_name : option string)
  (tile_dict : list (nat * TileDescriptor))
  (patch_dict : list (nat * TileEntry)) (sv : list SavedPatch) :
  extract_patches np level_downsample read_region fillPoly annotations
    label_dict overlap patch_size file_dir slide_name tile_dict
  = Ok (patch_dict, sv) ->
  map fst patch_dict = seq 0 (length tile_dict)
  /\ map (fun ie => entry_header (snd ie)) patch_dict
     = map (fun kt => scale_tile (scaling_factor level_downsample) (snd kt))
         tile_dict
  /\ Forall (fun ie => densely_numbered (snd ie)) patch_dict.
Proof.
  unfold extract_patches. intros H.
  destruct (tiles_loop_entries _ _ _ _ _ _ _ _ _ _ _ _ _ _ _ _ H)
    as (pd1 & -> & Hk & Hh & Hd).
  cbn [app]. auto.
Qed.

Lemma extract_patches_entries_witness :
  map fst [(0%nat, mkEntry 0 0 6 []); (1%nat, mkEntry 6 0 6 [])]
  = seq 0 2
  /\ map (fun ie => entry_header (snd ie))
       [(0%nat, mkEntry 0 0 6 []); (1%nat, mkEntry 6 0 6 [])]
     = map (fun kt => scale_tile (scaling_factor 2) (snd kt))
         [(7%nat, mkTile 0 0 3 0); (9%nat, mkTile 3 0 3 0)]
  /\ Forall (fun ie => densely_numbered (snd ie))
       [(0%nat, mkEntry 0 0 6 []); (1%nat, mkEntry 6 0 6 [])].
Proof.
  apply (extract_patches_entries NumPy1 2 (fun _ _ _ => []) (fun m _ => m)
           [] [] 0 4 None None
           [(7%nat, mkTile 0 0 3 0); (9%nat, mkTile 3 0 3 0)]
           [(0%nat, mkEntry 0 0 6 []); (1%nat, mkEntry 6 0 6 [])] []).
  vm_compute. reflexivity.
Defined.

(** ** Grid tiler: the loops as one pass over the cells *)

Section TilerFlat.

Variable np : NumPy.
Variable input_mask : list (list Z).
Variable tile_size : Z.
Variable min_coverage : Q.
Variable level : Z.

Let body := tiler_body np input_mask tile_size min_coverage level.
Let tcols := tiler_cols np input_mask tile_size min_coverage level.
Let trows := tiler_rows np input_mask tile_size min_coverage level.
Let tcells := tiler_cells np input_mask tile_size min_coverage level.
Let desc := cell_descriptor tile_size level.

Lemma tiler_cells_app (a b : list (Z * Z)) (st : TilerState) :
  tcells (a ++ b) st = (st' <- tcells a st ;; tcells b st').
Proof.
  revert st. induction a as [| c a IH]; intros st; [reflexivity |].
  unfold tcells in *. cbn [app tiler_cells].
  destruct (tiler_body _ _ _ _ _ _ _ st) as [st1 |]; cbn [bind]; auto.
Qed.

Lemma tiler_cols_cells (cs : list Z) (row : Z) (st : TilerState) :
  tcols cs row st = tcells (map (pair row) cs) st.
Proof.
  revert st. induction cs as [| c cs IH]; intros st; [reflexivity |].
  unfold tcols, tcells in *. cbn [map tiler_cols tiler_cells fst snd].
  destruct (tiler_body _ _ _ _ _ _ _ st) as [st1 |]; cbn [bind]; auto.
Qed.

Lemma tiler_rows_cells (rs cs : list Z) (st : TilerState) :
  trows rs cs st = tcells (list_prod rs cs) st.
Proof.
  revert st. induction rs as [| r rs IH]; intros st; [reflexivity |].
  cbn [list_prod]. rewrite tiler_cells_app.
  unfold trows. cbn [tiler_rows]. fold tcols trows.
  rewrite tiler_cols_cells.
  destruct (tcells _ st) as [st1 |]; cbn [bind]; [apply IH | reflexivity].
Qed.

Lemma get_relevant_tiles_flat :
  tile_size <> 0 -> Np.size input_mask <> 0%nat ->
  get_relevant_tiles np input_mask tile_size min_coverage level
  = (st <- tcells (spec_grid_cells input_mask tile_size)
             (tiler_init input_mask) ;;
     Ok (relevant_tiles_dict st)).
Proof.
  intros HT Hs. unfold get_relevant_tiles.
  destruct (Z.eqb_spec tile_size 0); [contradiction |].
  destruct (Nat.eqb_spec (Np.size input_mask) 0); [contradiction |].
  fold trows. rewrite tiler_rows_cells. reflexivity.
Qed.

(** The tiler returns only for a tile size other than zero and a mask
    with pixels. *)
Lemma get_relevant_tiles_ok (tiles : list (nat * TileDescriptor)) :
  get_relevant_tiles np input_mask tile_size min_coverage level = Ok tiles ->
  tile_size <> 0 /\ Np.size input_mask <> 0%nat.
Proof.
  unfold get_relevant_tiles.
  destruct (Z.eqb_spec tile_size 0); [discriminate |].
  destruct (Nat.eqb_spec (Np.size input_mask) 0); [discriminate |].
  auto.
Qed.

(** One cell: the state is unchanged, or the cell's descriptor is appended
    under the next number. *)
Lemma tiler_body_cases (cell : Z * Z) (st st' : TilerState) :
  body (fst cell) (snd cell) st = Ok st' ->
  st' = st
  \/ (relevant_tiles_dict st'
      = relevant_tiles_dict st ++ [(tile_nb st, desc cell)]
      /\ tile_nb st' = S (tile_nb st)).
Proof.
  unfold body, tiler_body.
  destruct (tissue_coverage _ _ _ _ _ _) as [cov |]; cbn [bind];
    [| discriminate].
  destruct (float_geb cov _); intros E; injection E as <-;
    [right | left]; auto.
Qed.

Section Ordered.

Variable Rc : Z * Z -> Z * Z -> Prop.
Variable Rt : TileDescriptor -> TileDescriptor -> Prop.
Hypothesis Rc_Rt : forall c1 c2, Rc c1 c2 -> Rt (desc c1) (desc c2).

(** The tiles a pass adds are descriptors of cells of the pass, in the
    order of the cells. *)
Lemma tiler_cells_extra (cells : list (Z * Z)) :
  forall st st',
    tcells cells st = Ok st' ->
    exists extra,
      relevant_tiles_dict st' = relevant_tiles_dict st ++ extra
      /\ Forall (fun ir => exists c, In c cells /\ snd ir = desc c) extra
      /\ (ForallOrdPairs Rc cells ->
          ForallOrdPairs (fun a b => Rt (snd a) (snd b)) extra).
Proof.
  induction cells as [| c cells IH]; intros st st'.
  - cbn. intros E. injection E as <-. exists [].
    rewrite app_nil_r. repeat split; constructor.
  - unfold tcells. cbn [tiler_cells]. fold body tcells.
    destruct (body (fst c) (snd c) st) as [st1 |] eqn:Hb; cbn [bind];
      [| discriminate].
    intros Hrest. destruct (IH _ _ Hrest) as (extra & He & Hin & Hord).
    assert (Hin' : Forall (fun ir => exists c0, In c0 (c :: cells)
                                                /\ snd ir = desc c0) extra).
    { eapply Forall_impl; [| exact Hin]. cbv beta.
      intros ir (c0 & Hc0 & E). exists c0. split; [right |]; assumption. }
    destruct (tiler_body_cases c st st1 Hb) as [-> | [Ht _]].
    + exists extra. split; [exact He |]. split; [exact Hin' |].
      intros Hfop. inversion Hfop; subst. auto.
    + exists ((tile_nb st, desc c) :: extra).
      rewrite He, Ht, <- app_assoc. split; [reflexivity |].
      split.
      * constructor; [| exact Hin'].
        exists c. split; [left |]; reflexivity.
      * intros Hfop. inversion Hfop as [| ? ? Hc Hrest']; subst.
        constructor; [| auto].
        eapply Forall_impl; [| exact Hin]. cbv beta.
        intros ir (c0 & Hc0 & E). cbn [snd]. rewrite E. apply Rc_Rt.
        rewrite Forall_forall in Hc. apply Hc, Hc0.
Qed.

End Ordered.

End TilerFlat.

(** ** Row-major order of the grid *)

Lemma seq_increasing (s n : nat) :
  ForallOrdPairs lt (seq s n).
Proof.
  revert s. induction n as [| n IH]; intros s; [constructor |].
  cbn [seq]. constructor; [| apply IH].
  apply Forall_forall. intros i Hi. apply in_seq in Hi. lia.
Qed.

Lemma FOP_map {A B : Type} (f : A -> B) (R : A -> A -> Prop)
  (R' : B -> B -> Prop) (l : list A) :
  (forall a b, R a b -> R' (f a) (f b)) ->
  ForallOrdPairs R l -> ForallOrdPairs R' (map f l).
Proof.
  intros Hf. induction 1 as [| a l Ha _ IH]; [constructor |].
  cbn [map]. constructor; [| exact IH].
  apply Forall_map. eapply Forall_impl; [| exact Ha]. cbv beta. auto.
Qed.

Lemma FOP_app {A : Type} (R : A -> A -> Prop) (l1 l2 : list A) :
  ForallOrdPairs R l1 -> ForallOrdPairs R l2 ->
  (forall a b, In a l1 -> In b l2 -> R a b) ->
  ForallOrdPairs R (l1 ++ l2).
Proof.
  intros H1 H2 Hx. induction H1 as [| a l1 Ha _ IH]; [exact H2 |].
  cbn [app]. constructor.
  - apply Forall_app. split; [exact Ha |].
    apply Forall_forall. intros b Hb. apply Hx; [left; reflexivity | exact Hb].
  - apply IH. intros x y Hx1 Hy. apply Hx; [right |]; assumption.
Qed.

Lemma range_increasing (n : Z) : ForallOrdPairs Z.lt (Np.range n).
Proof.
  unfold Np.range. apply (FOP_map Z.of_nat lt); [lia |].
  apply seq_increasing.
Qed.

Lemma list_prod_row_major (rs cs : list Z) :
  ForallOrdPairs Z.lt rs -> ForallOrdPairs Z.lt cs ->
  ForallOrdPairs cell_before (list_prod rs cs).
Proof.
  intros Hrs Hcs. induction Hrs as [| r rs Hr _ IH]; [constructor |].
  cbn [list_prod]. apply FOP_app; [| exact IH |].
  - apply (FOP_map (pair r) Z.lt); [| exact Hcs].
    intros a b Hab. right. cbn. auto.
  - intros [r1 c1] [r2 c2] H1 H2. apply in_map_iff in H1 as (x & E & _).
    injection E as <- <-. apply in_prod_iff in H2 as [H2 _].
    left. cbn. rewrite Forall_forall in Hr. apply Hr, H2.
Qed.

Lemma cell_before_tiles (tile_size level : Z) (c1 c2 : Z * Z) :
  0 < tile_size -> cell_before c1 c2 ->
  tile_before (cell_descriptor tile_size level c1)
    (cell_descriptor tile_size level c2)
  /\ tiles_disjoint (cell_descriptor tile_size level c1)
       (cell_descriptor tile_size level c2).
Proof.
  intros HT. unfold cell_before, tile_before, tiles_disjoint, cell_descriptor.
  cbn [td_x td_y td_size]. intros [H | [H1 H2]]; split; nia.
Qed.

(** ** Degenerate tile sizes *)

Lemma tiler_cells_nil_cols (np : NumPy) (input_mask : list (list Z))
  (tile_size : Z) (min_coverage : Q) (level : Z) (rs : list Z)
  (st : TilerState) :
  tiler_rows np input_mask tile_size min_coverage level rs [] st = Ok st.
Proof. induction rs as [| r rs IH]; [reflexivity | exact IH]. Qed.

Lemma range_nonpos (n : Z) : n <= 0 -> Np.range n = [].
Proof.
  intros H. unfold Np.range. replace (Z.to_nat n) with 0%nat by lia.
  reflexivity.
Qed.

Lemma shape0_nonneg {A : Type} (m : list (list A)) : 0 <= shape0 m.
Proof. unfold shape0. lia. Qed.

Lemma shape1_nonneg {A : Type} (m : list (list A)) : 0 <= shape1 m.
Proof. unfold shape1. destruct m; lia. Qed.

Lemma div_nonpos (a b : Z) :
  0 <= a -> b < 0 \/ a < b -> a / b <= 0.
Proof.
  intros Ha [Hb | Hb].
  - pose proof (Z.div_mod a b ltac:(lia)).
    pose proof (Z.mod_neg_bound a b Hb). nia.
  - rewrite Z.div_small; lia.
Qed.

Lemma get_relevant_tiles_degenerate (np : NumPy)
  (input_mask : list (list Z)) (tile_size : Z) (min_coverage : Q)
  (level : Z) :
  tile_size < 0 \/ shape0 input_mask < tile_size
  \/ shape1 input_mask < tile_size ->
  tile_size <> 0 -> Np.size input_mask <> 0%nat ->
  get_relevant_tiles np input_mask tile_size min_coverage level = Ok [].
Proof.
  intros H HT Hs. unfold get_relevant_tiles.
  destruct (Z.eqb_spec tile_size 0); [contradiction |].
  destruct (Nat.eqb_spec (Np.size input_mask) 0); [contradiction |].
  pose proof (shape0_nonneg input_mask). pose proof (shape1_nonneg input_mask).
  assert (Hcase : shape0 input_mask / tile_size <= 0
                  \/ shape1 input_mask / tile_size <= 0).
  { destruct H as [H | [H | H]].
    - left. apply div_nonpos; auto.
    - left. apply div_nonpos; auto.
    - right. apply div_nonpos; auto. }
  destruct Hcase as [Hc | Hc]; rewrite (range_nonpos _ Hc).
  - reflexivity.
  - rewrite tiler_cells_nil_cols. reflexivity.
Qed.

(** X13.  A tile size that is not positive, or that exceeds the height or
    the width of the mask, never yields a tile: size 0 raises
    [ZeroDivisionError] in [divmod]; for every other such size a mask
    without pixels makes [cv2.cvtColor] raise [cv2.error], and a mask with
    pixels gives the empty dictionary without any error. *)
Theorem degenerate_tile_size
  (np : NumPy) (input_mask : list (list Z)) (tile_size : Z)
  (min_coverage : Q) (level : Z) :
  tile_size <= 0 \/ shape0 input_mask < tile_size
  \/ shape1 input_mask < tile_size ->
  get_relevant_tiles np input_mask tile_size min_coverage level
  = if tile_size =? 0 then Raise ZeroDivisionError
    else if (Np.size input_mask =? 0)%nat then Raise Cv2Error
    else Ok [].
Proof.
  intros H. destruct (Z.eqb_spec tile_size 0) as [-> | HT].
  - reflexivity.
  - destruct (Nat.eqb_spec (Np.size input_mask) 0) as [Hs | Hs].
    + unfold get_relevant_tiles.
      destruct (Z.eqb_spec tile_size 0); [contradiction |].
      rewrite Hs. reflexivity.
    + apply get_relevant_tiles_degenerate; [lia | exact HT | exact Hs].
Qed.

Lemma degenerate_tile_size_witness :
  get_relevant_tiles NumPy1 (full_mask 2 4) 3 0 0 = Ok []
  /\ get_relevant_tiles NumPy1 (full_mask 2 4) 0 0 0
     = Raise ZeroDivisionError
  /\ get_relevant_tiles NumPy1 [] 3 0 0 = Raise Cv2Error.
Proof.
  split; [| split].
  - apply (degenerate_tile_size NumPy1 (full_mask 2 4) 3 0 0).
    right. left. vm_compute. reflexivity.
  - apply (degenerate_tile_size NumPy1 (full_mask 2 4) 0 0 0). left. lia.
  - apply (degenerate_tile_size NumPy1 [] 3 0 0).
    right. left. vm_compute. reflexivity.
Defined.

(** ** Grid tiler: where the tiles lie *)

Lemma grid_cell_in_mask (tile_size level h w : Z) (td : TileDescriptor) :
  0 <= h -> 0 <= w ->
  is_grid_cell tile_size level (h / tile_size) (w / tile_size) td ->
  tile_in_mask tile_size level h w td.
Proof.
  intros Hh Hw (row & col & Hrow & Hcol & ->).
  assert (HT : 0 < tile_size).
  { destruct (Z.lt_trichotomy tile_size 0) as [Hn | [-> | Hp]];
      [| rewrite Z.div_0_r in Hrow; lia | exact Hp].
    pose proof (div_nonpos h tile_size Hh (or_introl Hn)). lia. }
  pose proof (Z.mul_div_le h tile_size HT).
  pose proof (Z.mul_div_le w tile_size HT).
  unfold tile_in_mask. cbn [td_x td_y td_size td_level].
  rewrite !Z.mod_mul by lia. repeat split; try lia; nia.
Qed.

(** X14.  Every tile the tiler returns has the requested size and level,
    is aligned to the grid (its [x] and [y] are multiples of the tile size)
    and lies entirely inside the mask: trailing partial rows and columns
    are never returned. *)
Theorem returned_tiles_lie_in_mask
  (np : NumPy) (input_mask : list (list Z)) (tile_size : Z)
  (min_coverage : Q) (level : Z) (tiles : list (nat * TileDescriptor)) :
  get_relevant_tiles np input_mask tile_size min_coverage level = Ok tiles ->
  Forall (fun ir => tile_in_mask tile_size level (shape0 input_mask)
                      (shape1 input_mask) (snd ir)) tiles.
Proof.
  intros H. destruct (get_relevant_tiles_cells _ _ _ _ _ _ H) as [_ Hcells].
  eapply Forall_impl; [| exact Hcells]. cbv beta. intros ir Hir.
  apply grid_cell_in_mask;
    [apply shape0_nonneg | apply shape1_nonneg | exact Hir].
Qed.

Lemma returned_tiles_witness :
  Forall (fun ir => tile_in_mask 50 3 100 100 (snd ir))
    [(0%nat, mkTile 0 0 50 3)].
Proof.
  apply (returned_tiles_lie_in_mask NumPy1 top_left_quadrant_mask 50
           (1 # 2) 3).
  vm_compute. reflexivity.
Defined.

(** X15.  The tiles are returned in row-major order of the grid (increasing
    [y], then increasing [x]), so no tile is returned twice, and the squares
    of any two returned tiles share no pixel. *)
Theorem returned_tiles_are_ordered_and_disjoint
  (np : NumPy) (input_mask : list (list Z)) (tile_size : Z)
  (min_coverage : Q) (level : Z) (tiles : list (nat * TileDescriptor)) :
  get_relevant_tiles np input_mask tile_size min_coverage level = Ok tiles ->
  ForallOrdPairs (fun a b => tile_before (snd a) (snd b)
                             /\ tiles_disjoint (snd a) (snd b)) tiles.
Proof.
  intros H.
  destruct (get_relevant_tiles_ok _ _ _ _ _ _ H) as [HT Hs].
  destruct (Z.lt_trichotomy tile_size 0) as [Hn | [-> | Hp]].
  - rewrite get_relevant_tiles_degenerate in H by (auto; lia).
    injection H as <-. constructor.
  - contradiction.
  - rewrite get_relevant_tiles_flat in H by (auto; lia).
    destruct (tiler_cells _ _ _ _ _ _ _) as [st |] eqn:Hc; [| discriminate].
    cbn [bind] in H. injection H as <-.
    destruct (tiler_cells_extra np input_mask tile_size min_coverage level
                cell_before
                (fun a b => tile_before a b /\ tiles_disjoint a b)
                (fun c1 c2 => cell_before_tiles tile_size level c1 c2 Hp)
                _ _ _ Hc) as (extra & He & _ & Hord).
    cbn [tiler_init relevant_tiles_dict app] in He. rewrite He.
    apply Hord. unfold spec_grid_cells.
    apply list_prod_row_major; apply range_increasing.
Qed.

Lemma returned_tiles_ordered_witness :
  ForallOrdPairs (fun a b => tile_before (snd a) (snd b)
                             /\ tiles_disjoint (snd a) (snd b))
    [(0%nat, mkTile 0 0 2 0); (1%nat, mkTile 2 0 2 0)].
Proof.
  apply (returned_tiles_are_ordered_and_disjoint NumPy1
           (left_half_mask 2 2) 2 (1 # 8) 0).
  vm_compute. reflexivity.
Defined.

(** ** Grid tiler: the first tile *)

Lemma combine_seq_cons {A : Type} (s : nat) (a : A) (l : list A) :
  combine (seq s (length (a :: l))) (a :: l)
  = (s, a) :: combine (seq (S s) (length l)) l.
Proof. reflexivity. Qed.

Lemma tiler_cells_first (np : NumPy) (input_mask : list (list Z))
  (tile_size : Z) (min_coverage : Q) (level : Z) (cells : list (Z * Z)) :
  forall st st',
    tissue_mask_ref st = InputMask ->
    relevant_tiles_dict st = [] ->
    tile_nb st = 0%nat ->
    tiler_cells np input_mask tile_size min_coverage level cells st
    = Ok st' ->
    hd_error (relevant_tiles_dict st')
    = hd_error
        (combine
           (seq 0 (length (filter (input_cell_kept np input_mask tile_size
                                     min_coverage) cells)))
           (map (cell_descriptor tile_size level)
              (filter (input_cell_kept np input_mask tile_size min_coverage)
                 cells))).
Proof.
  induction cells as [| c cells IH]; intros st st' Href Htiles Hnb.
  - cbn. intros E. injection E as <-. rewrite Htiles. reflexivity.
  - cbn [tiler_cells]. unfold tiler_body at 1.
    rewrite (tissue_coverage_input _ _ _ _ _ _ Href).
    destruct (input_coverage _ _ _ _ _) as [cov |] eqn:Hcov; cbn [bind];
      [| discriminate].
    assert (Hkept : input_cell_kept np input_mask tile_size min_coverage c
                    = float_geb cov (Finite min_coverage))
      by (unfold input_cell_kept; rewrite Hcov; reflexivity).
    cbn [filter]. rewrite Hkept.
    destruct (float_geb cov (Finite min_coverage)).
    + intros Hrest.
      destruct (tiler_cells_extra np input_mask tile_size min_coverage level
                  (fun _ _ => True) (fun _ _ => True) (fun _ _ _ => I)
                  _ _ _ Hrest) as (extra & He & _).
      rewrite He. cbn [relevant_tiles_dict]. rewrite Htiles, Hnb.
      reflexivity.
    + apply IH; assumption.
Qed.

(** X16.  Until a tile is kept the coverage is measured on the input mask,
    so the first tile returned is the first grid cell, in row-major order,
    whose coverage in the input mask (the float quotient of its nonzero
    pixels by its pixels) reaches [min_coverage]; and no tile is returned
    exactly when no cell reaches it. *)
Theorem first_tile_is_first_covered_cell
  (np : NumPy) (input_mask : list (list Z)) (tile_size : Z)
  (min_coverage : Q) (level : Z) (tiles : list (nat * TileDescriptor)) :
  get_relevant_tiles np input_mask tile_size min_coverage level = Ok tiles ->
  hd_error tiles
  = hd_error (kept_on_input np input_mask tile_size min_coverage level)
  /\ (tiles = [] <->
      kept_on_input np input_mask tile_size min_coverage level = []).
Proof.
  intros H.
  assert (Hhd : hd_error tiles
                = hd_error (kept_on_input np input_mask tile_size
                              min_coverage level)).
  { destruct (get_relevant_tiles_ok _ _ _ _ _ _ H) as [HT Hs].
    rewrite get_relevant_tiles_flat in H by assumption.
    destruct (tiler_cells _ _ _ _ _ _ _) as [st |] eqn:Hc; [| discriminate].
    cbn [bind] in H. injection H as <-.
    apply (tiler_cells_first np input_mask tile_size min_coverage level
             (spec_grid_cells input_mask tile_size) (tiler_init input_mask)
             st eq_refl eq_refl eq_refl Hc). }
  split; [exact Hhd |].
  destruct tiles, (kept_on_input _ _ _ _ _); cbn in Hhd;
    split; intros E; try reflexivity; discriminate.
Qed.

(** A first cell covered to exactly one tenth and a minimum coverage of
    0.1: the quotient 10/100 is the float 0.1, and the cell is kept. *)
Lemma first_tile_witness :
  hd_error [(0%nat, mkTile 0 0 10 0)]
  = hd_error (kept_on_input NumPy2 tenth_mask 10 (round64 (1 # 10)) 0)
  /\ spec_relevant_tiles tenth_mask 10 (round64 (1 # 10)) 0 = [].
Proof.
  split; [| vm_compute; reflexivity].
  apply (first_tile_is_first_covered_cell NumPy2 tenth_mask 10
           (round64 (1 # 10)) 0).
  vm_compute. reflexivity.
Defined.

(** ** Grid tiler without a coverage requirement *)

Lemma imap_length {A B : Type} (f : Z -> A -> B) (i : Z) (l : list A) :
  length (Cv2.imap f i l) = length l.
Proof.
  revert i. induction l as [| a l IH]; intros i; [reflexivity |].
  cbn. rewrite IH. reflexivity.
Qed.

Lemma imap_Forall {A B : Type} (f : Z -> A -> B) (Q : A -> Prop)
  (Q' : B -> Prop) (i : Z) (l : list A) :
  (forall j a, Q a -> Q' (f j a)) ->
  Forall Q l -> Forall Q' (Cv2.imap f i l).
Proof.
  intros Hf H. revert i. induction H as [| a l Ha _ IH]; intros i;
    cbn; constructor; auto.
Qed.

Lemma rectangle_shape (h w : Z) (img : list (list rgb))
  (x1 y1 x2 y2 : Z) (color : rgb) :
  Np.has_shape h w img ->
  Np.has_shape h w (Cv2.rectangle img x1 y1 x2 y2 color).
Proof.
  intros [Hh Hw]. unfold Cv2.rectangle. split.
  - rewrite imap_length. exact Hh.
  - eapply imap_Forall; [| exact Hw]. cbv beta.
    intros j r Hr. rewrite imap_length. exact Hr.
Qed.

Lemma gray2rgb_shape (h w : Z) (m : list (list Z)) :
  Np.has_shape h w m -> Np.has_shape h w (Cv2.gray2rgb m).
Proof.
  intros [Hh Hw]. unfold Cv2.gray2rgb. split.
  - rewrite length_map. exact Hh.
  - apply Forall_map. eapply Forall_impl; [| exact Hw]. cbv beta.
    intros r Hr. rewrite length_map. exact Hr.
Qed.

Lemma concat_nonempty {A : Type} (h w : Z) (m : list (list A)) :
  Np.has_shape h w m -> 0 < h -> 0 < w -> length (concat m) <> 0%nat.
Proof.
  intros [Hh Hw] H0 H1.
  destruct m as [| r m]; [cbn in Hh; lia |].
  apply Forall_inv in Hw.
  destruct r as [| a r]; [cbn in Hw; lia |]. cbn. discriminate.
Qed.

Lemma cell_slice_shape {A : Type} (h w T row col : Z) (m : list (list A)) :
  0 < T -> 0 <= row < h / T -> 0 <= col < w / T ->
  Np.has_shape h w m ->
  Np.has_shape T T
    (Np.slice2d (row * T) (row * T + T) (col * T) (col * T + T) m).
Proof.
  intros HT Hrow Hcol Hm.
  pose proof (Z.mul_div_le h T HT). pose proof (Z.mul_div_le w T HT).
  apply (slice2d_shape h w); auto; nia.
Qed.

Lemma true_div_nonneg (np : NumPy) (a b : nat) :
  b <> 0%nat -> exists q, true_div np a b = Ok (Finite q) /\ (0 <= q)%Q.
Proof.
  intros Hb. destruct b as [| b]; [contradiction |].
  eexists. split; [reflexivity |].
  apply round64_nonneg. unfold Qle. cbn [Qnum Qden]. lia.
Qed.

Section KeepAll.

Variable np : NumPy.
Variable input_mask : list (list Z).
Variable tile_size : Z.
Variable min_coverage : Q.
Variable level : Z.

Hypothesis HT : 0 < tile_size.
Hypothesis Hmin : (min_coverage <= 0)%Q.
Hypothesis Hshape :
  Np.has_shape (shape0 input_mask) (shape1 input_mask) input_mask.
Hypothesis Hpixels : Np.size input_mask <> 0%nat.

Let rows := shape0 input_mask / tile_size.
Let cols := shape1 input_mask / tile_size.
Let desc := cell_descriptor tile_size level.
Let in_grid (c : Z * Z) : Prop := 0 <= fst c < rows /\ 0 <= snd c < cols.
Let good (st : TilerState) : Prop :=
  Np.has_shape (shape0 input_mask) (shape1 input_mask) (colored st).

Lemma coverage_defined (st : TilerState) (c : Z * Z) :
  in_grid c -> good st ->
  exists cov,
    tissue_coverage np input_mask tile_size st (fst c) (snd c)
    = Ok (Finite cov)
    /\ (0 <= cov)%Q.
Proof.
  intros [Hr Hc] Hgood. unfold tissue_coverage.
  destruct (tissue_mask_ref st); apply true_div_nonneg.
  - apply (concat_nonempty tile_size tile_size); [| lia | lia].
    apply (cell_slice_shape (shape0 input_mask) (shape1 input_mask)); auto.
  - unfold Cv2.size.
    assert (length (concat
              (Np.slice2d (fst c * tile_size) (fst c * tile_size + tile_size)
                 (snd c * tile_size) (snd c * tile_size + tile_size)
                 (colored st))) <> 0%nat).
    { apply (concat_nonempty tile_size tile_size); [| lia | lia].
      apply (cell_slice_shape (shape0 input_mask) (shape1 input_mask)); auto. }
    lia.
Qed.

Lemma tiler_body_keeps (st : TilerState) (c : Z * Z) :
  in_grid c -> good st ->
  exists st',
    tiler_body np input_mask tile_size min_coverage level (fst c) (snd c)
      st
    = Ok st'
    /\ good st'
    /\ relevant_tiles_dict st'
       = relevant_tiles_dict st ++ [(tile_nb st, desc c)]
    /\ tile_nb st' = S (tile_nb st).
Proof.
  intros Hc Hgood. destruct (coverage_defined st c Hc Hgood) as (cov & E & H0).
  unfold tiler_body. rewrite E. cbn [bind float_geb].
  assert (Hle : Qle_bool min_coverage cov = true)
    by (apply Qle_bool_iff; eapply Qle_trans; eauto).
  rewrite Hle. eexists. split; [reflexivity |].
  split; [| split; reflexivity].
  unfold good. cbn [colored]. apply rectangle_shape, Hgood.
Qed.

Lemma tiler_cells_keeps (cells : list (Z * Z)) :
  Forall in_grid cells ->
  forall st, good st ->
  exists st',
    tiler_cells np input_mask tile_size min_coverage level cells st
    = Ok st'
    /\ relevant_tiles_dict st'
       = relevant_tiles_dict st
         ++ combine (seq (tile_nb st) (length cells)) (map desc cells).
Proof.
  induction 1 as [| c cells Hc _ IH]; intros st Hgood.
  - exists st. cbn. rewrite app_nil_r. auto.
  - destruct (tiler_body_keeps st c Hc Hgood) as (st1 & E & Hg1 & Ht & Hn).
    destruct (IH st1 Hg1) as (st' & E' & Ht').
    exists st'. cbn [tiler_cells]. rewrite E. cbn [bind].
    split; [exact E' |].
    rewrite Ht', Ht, Hn, <- app_assoc. reflexivity.
Qed.

Lemma grid_cells_in_grid :
  Forall in_grid (spec_grid_cells input_mask tile_size).
Proof.
  apply Forall_forall. intros [r c] Hin. unfold spec_grid_cells in Hin.
  apply in_prod_iff in Hin as [Hr Hc].
  pose proof (range_bounds rows) as Br. pose proof (range_bounds cols) as Bc.
  rewrite Forall_forall in Br, Bc. split; cbn; [apply Br | apply Bc]; auto.
Qed.

Lemma keep_all_result :
  get_relevant_tiles np input_mask tile_size min_coverage level
  = Ok (combine (seq 0 (length (spec_grid_cells input_mask tile_size)))
          (map desc (spec_grid_cells input_mask tile_size))).
Proof.
  rewrite get_relevant_tiles_flat by (auto; lia).
  destruct (tiler_cells_keeps _ grid_cells_in_grid (tiler_init input_mask))
    as (st & E & Ht).
  - unfold good, tiler_init. cbn [colored]. apply gray2rgb_shape, Hshape.
  - rewrite E. cbn [bind]. rewrite Ht. reflexivity.
Qed.

End KeepAll.

(** X17.  With a positive tile size, a rectangular mask that has pixels
    and a minimum coverage of zero or less, the tiler returns every full
    cell of the grid, in row-major order and numbered from zero,
    [(height // T) * (width // T)] tiles in all: without a coverage
    requirement the outlines drawn for kept tiles have no influence. *)
Theorem zero_min_coverage_keeps_every_cell
  (np : NumPy) (input_mask : list (list Z)) (tile_size : Z)
  (min_coverage : Q) (level : Z) :
  0 < tile_size -> (min_coverage <= 0)%Q ->
  Np.has_shape (shape0 input_mask) (shape1 input_mask) input_mask ->
  Np.size input_mask <> 0%nat ->
  get_relevant_tiles np input_mask tile_size min_coverage level
  = Ok (combine (seq 0 (length (spec_grid_cells input_mask tile_size)))
          (map (cell_descriptor tile_size level)
             (spec_grid_cells input_mask tile_size)))
  /\ Z.of_nat (length (spec_grid_cells input_mask tile_size))
     = (shape0 input_mask / tile_size) * (shape1 input_mask / tile_size).
Proof.
  intros HT Hmin Hshape Hpixels. split.
  - apply keep_all_result; assumption.
  - unfold spec_grid_cells, Np.range.
    rewrite length_prod, !length_map, !length_seq.
    pose proof (Z.div_pos (shape0 input_mask) tile_size
                  (shape0_nonneg input_mask) HT).
    pose proof (Z.div_pos (shape1 input_mask) tile_size
                  (shape1_nonneg input_mask) HT).
    nia.
Qed.

Lemma zero_min_coverage_witness :
  get_relevant_tiles NumPy1 (left_half_mask 2 2) 2 0 7
  = Ok [(0%nat, mkTile 0 0 2 7); (1%nat, mkTile 2 0 2 7)].
Proof.
  apply (zero_min_coverage_keeps_every_cell NumPy1 (left_half_mask 2 2) 2
           0 7).
  - lia.
  - discriminate.
  - split; [reflexivity | repeat constructor].
  - discriminate.
Defined.

(** ** Annotation loading *)

Section AnnotFacts.

Import Annot.

Lemma dict_set_numbered_from (vs : list Json) :
  forall (s k : nat) (v : Json),
    (k <= length vs)%nat ->
    dict_set (s + k) v (combine (seq s (length vs)) vs)
    = combine (seq s (length (put k v vs))) (put k v vs).
Proof.
  induction vs as [| a vs IH]; intros s k v Hk.
  - cbn in Hk. replace k with 0%nat by lia. cbn. rewrite Nat.add_0_r.
    reflexivity.
  - destruct k as [| k].
    + cbn. rewrite Nat.add_0_r, Nat.eqb_refl. reflexivity.
    + cbn [length seq combine dict_set].
      destruct (Nat.eqb_spec s (s + S k)) as [E | _]; [lia |].
      replace (s + S k)%nat with (S s + k)%nat by lia.
      rewrite IH by (cbn in Hk; lia).
      unfold put. cbn [firstn skipn app length seq combine]. reflexivity.
Qed.

Lemma dict_set_numbered (vs : list Json) (k : nat) (v : Json) :
  (k <= length vs)%nat ->
  dict_set k v (numbered vs) = numbered (put k v vs).
Proof. intros Hk. apply (dict_set_numbered_from vs 0 k v Hk). Qed.

Lemma put_length (k : nat) (v : Json) (vs : list Json) :
  (k <= length vs)%nat -> (S k <= length (put k v vs))%nat.
Proof.
  intros Hk. unfold put. rewrite length_app, length_firstn. cbn [length].
  lia.
Qed.

Lemma put_firstn (k : nat) (v : Json) (vs : list Json) :
  (k <= length vs)%nat -> firstn (S k) (put k v vs) = firstn k vs ++ [v].
Proof.
  intros Hk. unfold put.
  rewrite firstn_app, length_firstn, Nat.min_l by exact Hk.
  replace (S k - k)%nat with 1%nat by lia.
  rewrite firstn_firstn, Nat.min_r by lia. reflexivity.
Qed.

Lemma put_skipn (k m : nat) (v : Json) (vs : list Json) :
  (k <= length vs)%nat ->
  skipn (S k + m) (put k v vs) = skipn (S k + m) vs.
Proof.
  intros Hk. unfold put.
  rewrite skipn_app, length_firstn, Nat.min_l by exact Hk.
  rewrite skipn_all2 by (rewrite length_firstn; lia).
  replace (S k + m - k)%nat with (S m) by lia.
  change (skipn (S m) (v :: skipn (S k) vs)) with (skipn m (skipn (S k) vs)).
  rewrite skipn_skipn. cbn [app]. f_equal. lia.
Qed.

Lemma put_at_end (v : Json) (vs : list Json) :
  put (length vs) v vs = vs ++ [v].
Proof.
  unfold put. rewrite firstn_all, skipn_all2 by lia. reflexivity.
Qed.

Lemma overwrite_length (old new : list Json) :
  length (overwrite old new) = Nat.max (length old) (length new).
Proof. unfold overwrite. rewrite length_app, length_skipn. lia. Qed.

Lemma numbered_keys (vs : list Json) :
  map fst (numbered vs) = seq 0 (length vs)
  /\ map snd (numbered vs) = vs
  /\ length (numbered vs) = length vs.
Proof.
  unfold numbered. generalize 0%nat as s.
  induction vs as [| a vs IH]; intros s; [repeat split |].
  cbn [length seq combine map fst snd].
  destruct (IH (S s)) as (H1 & H2 & H3). rewrite H1, H2, H3. auto.
Qed.

Variable parse_float : string -> option Q.

Let plist := polygon_list parse_float.
Let sloop := subelems_loop parse_float.
Let eloop := elems_loop parse_float.
Let epolys := element_polygons parse_float.

(** One top-level element: its polygons, numbered from [k], replace the
    polygons that carry these numbers. *)
Lemma subelems_loop_spec (subelems : list Element) :
  forall (k : nat) (vs : list Json),
    (k <= length vs)%nat ->
    sloop subelems k (numbered vs)
    = and_then (traverse plist (filter (is_polygon) subelems))
        (fun ps =>
           Done ((k + length ps)%nat,
                 numbered (firstn k vs ++ ps ++ skipn (k + length ps) vs))).
Proof.
  induction subelems as [| sub rest IH]; intros k vs Hk.
  - cbn. rewrite Nat.add_0_r, firstn_skipn. reflexivity.
  - unfold sloop. cbn [subelems_loop filter]. fold sloop plist.
    destruct (is_polygon sub); [| apply IH, Hk].
    cbn [traverse]. destruct (plist sub) as [p | e]; cbn [and_then];
      [| reflexivity].
    rewrite (dict_set_numbered vs k p Hk).
    rewrite IH by (apply put_length, Hk).
    destruct (traverse plist (filter is_polygon rest)) as [ps | e];
      cbn [and_then]; [| reflexivity].
    rewrite (put_firstn k p vs Hk), (put_skipn k (length ps) p vs Hk).
    cbn [length]. rewrite <- app_assoc. cbn [app].
    replace (k + S (length ps))%nat with (S k + length ps)%nat by lia.
    reflexivity.
Qed.

Lemma elems_loop_spec (elems : list Element) :
  forall vs : list Json,
    eloop elems (numbered vs)
    = and_then (traverse epolys elems)
        (fun pss => Done (numbered (fold_left overwrite pss vs))).
Proof.
  induction elems as [| elem rest IH]; intros vs; [reflexivity |].
  unfold eloop. cbn [elems_loop traverse]. fold eloop sloop.
  rewrite subelems_loop_spec by lia.
  unfold epolys at 1, element_polygons. fold plist.
  destruct (traverse plist (filter is_polygon (children elem))) as [ps | e];
    cbn [and_then snd]; [| reflexivity].
  cbn [firstn app Nat.add]. fold (overwrite vs ps). rewrite IH.
  destruct (traverse epolys rest) as [pss | e]; reflexivity.
Qed.

Lemma fold_overwrite_length (pss : list (list Json)) :
  forall vs,
    length (fold_left overwrite pss vs)
    = Nat.max (length vs) (list_max (map (@length Json) pss)).
Proof.
  induction pss as [| ps pss IH]; intros vs; cbn [fold_left map].
  - cbn. lia.
  - rewrite IH, overwrite_length. unfold list_max. cbn [fold_right]. lia.
Qed.

Lemma load_xml_spec (root : Element) :
  load_xml parse_float root
  = and_then (traverse epolys (children root))
      (fun pss => Done (numbered (fold_left overwrite pss []))).
Proof. apply (elems_loop_spec (children root) []). Qed.

End AnnotFacts.

(** X18.  Loading an XML annotation file is all or nothing: the first
    coordinate without an [X] or [Y] attribute, or with a non-numeric one,
    fails the whole load.  When it succeeds, polygon numbering has restarted
    at zero for every top-level element: the polygons of an element replace
    those of the same numbers loaded from earlier elements.  The keys are
    dense from zero, and the dictionary holds as many polygons as the
    largest top-level element has, not as many as the file has. *)
Theorem xml_polygon_numbers_restart_per_element
  (parse_float : string -> option Q) (root : Annot.Element)
  (d : Annot.AnnotationDict) :
  Annot.load_xml parse_float root = Annot.Done d ->
  exists pss : list (list Annot.Json),
    Annot.traverse (Annot.element_polygons parse_float) (Annot.children root)
    = Annot.Done pss
    /\ d = Annot.numbered (fold_left Annot.overwrite pss [])
    /\ map fst d = seq 0 (length d)
    /\ length d = list_max (map (@length Annot.Json) pss).
Proof.
  rewrite load_xml_spec.
  destruct (Annot.traverse _ _) as [pss | e]; cbn; [| discriminate].
  intros E. injection E as <-. exists pss.
  destruct (numbered_keys (fold_left Annot.overwrite pss []))
    as (Hk & _ & Hl).
  split; [reflexivity |]. split; [reflexivity |].
  rewrite Hk, Hl. split; [reflexivity |].
  rewrite fold_overwrite_length. cbn. reflexivity.
Qed.

Lemma xml_numbers_restart_witness :
  exists pss : list (list Annot.Json),
    Annot.traverse (Annot.element_polygons AnnotExample.digit_float)
      (Annot.children AnnotExample.two_groups)
    = Annot.Done pss
    /\ [(0%nat, Annot.JList [AnnotExample.point 3 3]);
        (1%nat, Annot.JList [AnnotExample.point 2 2])]
       = Annot.numbered (fold_left Annot.overwrite pss [])
    /\ map fst [(0%nat, Annot.JList [AnnotExample.point 3 3]);
                (1%nat, Annot.JList [AnnotExample.point 2 2])]
       = seq 0 2
    /\ 2%nat = list_max (map (@length Annot.Json) pss).
Proof.
  apply (xml_polygon_numbers_restart_per_element AnnotExample.digit_float
           AnnotExample.two_groups
           [(0%nat, Annot.JList [AnnotExample.point 3 3]);
            (1%nat, Annot.JList [AnnotExample.point 2 2])]).
  reflexivity.
Defined.

Lemma overwrite_nil (ps : list Annot.Json) : Annot.overwrite [] ps = ps.
Proof. unfold Annot.overwrite. rewrite skipn_nil, app_nil_r. reflexivity. Qed.

(** X19.  With two top-level elements of which the second holds at least as
    many polygons as the first, the polygons of the first are lost: the
    file loads to exactly what the second element alone loads to. *)
Theorem xml_later_element_replaces_earlier
  (parse_float : string -> option Q)
  (a a1 a2 : list (string * string)) (e1 e2 : Annot.Element)
  (d1 d2 : Annot.AnnotationDict) :
  Annot.load_xml parse_float (Annot.Elem a1 [e1]) = Annot.Done d1 ->
  Annot.load_xml parse_float (Annot.Elem a2 [e2]) = Annot.Done d2 ->
  (length d1 <= length d2)%nat ->
  Annot.load_xml parse_float (Annot.Elem a [e1; e2]) = Annot.Done d2.
Proof.
  rewrite !load_xml_spec. cbn [Annot.children Annot.traverse].
  destruct (Annot.element_polygons parse_float e1) as [ps1 |];
    cbn [Annot.and_then]; [| discriminate].
  destruct (Annot.element_polygons parse_float e2) as [ps2 |];
    cbn [Annot.and_then]; [| discriminate].
  cbn [fold_left]. rewrite !overwrite_nil.
  intros E1 E2. injection E1 as <-. injection E2 as <-.
  destruct (numbered_keys ps1) as (_ & _ & L1).
  destruct (numbered_keys ps2) as (_ & _ & L2).
  rewrite L1, L2. intros Hle. unfold Annot.overwrite.
  rewrite skipn_all2, app_nil_r by exact Hle. reflexivity.
Qed.

Lemma xml_later_element_witness :
  Annot.load_xml AnnotExample.digit_float
    (Annot.Elem []
       [Annot.Elem [] [AnnotExample.polygon [AnnotExample.vertex "1" "1"]];
        Annot.Elem [] [AnnotExample.polygon [AnnotExample.vertex "3" "3"]]])
  = Annot.Done [(0%nat, Annot.JList [AnnotExample.point 3 3])].
Proof.
  apply (xml_later_element_replaces_earlier AnnotExample.digit_float
           [] [] []
           (Annot.Elem [] [AnnotExample.polygon [AnnotExample.vertex "1" "1"]])
           (Annot.Elem [] [AnnotExample.polygon [AnnotExample.vertex "3" "3"]])
           [(0%nat, Annot.JList [AnnotExample.point 1 1])]
           [(0%nat, Annot.JList [AnnotExample.point 3 3])]);
    [reflexivity | reflexivity | cbn; lia].
Defined.

(** The loop over feature numbers, once the features before [todo] are
    loaded. *)
Lemma features_loop_spec (obj : list (string * Annot.Json))
  (todo : list Annot.Json) :
  forall (loaded : list Annot.Json) (vs : list Annot.Json),
    Annot.assoc_get "features" obj = Some (Annot.JList (loaded ++ todo)) ->
    length vs = length loaded ->
    Annot.features_loop (Annot.JDict obj)
      (seq (length loaded) (length todo)) (Annot.numbered vs)
    = Annot.and_then (Annot.traverse Annot.outer_ring todo)
        (fun rings => Annot.Done (Annot.numbered (vs ++ rings))).
Proof.
  induction todo as [| f todo IH]; intros loaded vs Hf Hlen.
  - cbn. rewrite app_nil_r. reflexivity.
  - assert (Hring : Annot.feature_ring (Annot.JDict obj) (length loaded)
                    = Annot.outer_ring f).
    { unfold Annot.feature_ring. cbn [Annot.get_key]. rewrite Hf.
      cbn [Annot.and_then Annot.get_index].
      rewrite nth_error_app2, Nat.sub_diag by lia. reflexivity. }
    cbn [length seq Annot.features_loop Annot.traverse]. rewrite Hring.
    destruct (Annot.outer_ring f) as [ring |]; cbn [Annot.and_then];
      [| reflexivity].
    rewrite <- Hlen, dict_set_numbered, put_at_end by lia.
    replace (S (length vs)) with (length (loaded ++ [f]))
      by (rewrite length_app; cbn; lia).
    rewrite (IH (loaded ++ [f]) (vs ++ [ring])).
    + destruct (Annot.traverse Annot.outer_ring todo) as [rings |];
        cbn [Annot.and_then]; [| reflexivity].
      rewrite <- app_assoc. reflexivity.
    + rewrite <- app_assoc. exact Hf.
    + rewrite !length_app. cbn. lia.
Qed.

(** X20.  For a GeoJSON object whose ["features"] member is a list, the
    loader keeps of every feature the first ring of its geometry (later
    rings, the holes, are dropped), numbers the rings from zero in the order
    of the features, and fails as a whole with the error of the first
    feature that has no ["geometry"], no ["coordinates"] or no first
    ring. *)
Theorem geojson_loads_first_ring_of_each_feature
  (obj : list (string * Annot.Json)) (features : list Annot.Json) :
  Annot.assoc_get "features" obj = Some (Annot.JList features) ->
  Annot.load_geojson (Annot.JDict obj)
  = Annot.and_then (Annot.traverse Annot.outer_ring features)
      (fun rings => Annot.Done (Annot.numbered rings)).
Proof.
  intros Hf. unfold Annot.load_geojson. cbn [Annot.get_key]. rewrite Hf.
  cbn [Annot.and_then Annot.json_len].
  apply (features_loop_spec obj features [] []); [exact Hf | reflexivity].
Qed.

Lemma geojson_first_ring_witness :
  Annot.load_geojson (Annot.JDict AnnotExample.two_features)
  = Annot.Done
      [(0%nat, Annot.JList [AnnotExample.point 1 1]);
       (1%nat, Annot.JList [AnnotExample.point 2 2])].
Proof.
  rewrite (geojson_loads_first_ring_of_each_feature
             AnnotExample.two_features _ eq_refl).
  reflexivity.
Defined.

(** ** One slide: from the tissue mask to the patch dictionary *)

Lemma scaled_regions_disjoint (f : Z) (a b : TileDescriptor) :
  0 < f -> tiles_disjoint a b ->
  regions_disjoint (scale_tile f a) (scale_tile f b).
Proof.
  intros Hf. unfold tiles_disjoint, regions_disjoint, scale_tile.
  intros [H | [H | [H | H]]]; nia.
Qed.

Lemma scaled_region_inside (f T level h w : Z) (td : TileDescriptor) :
  0 < f -> tile_in_mask T level h w td ->
  region_inside (h * f) (w * f) (scale_tile f td)
  /\ snd (scale_tile f td) = T * f.
Proof.
  intros Hf (Hs & _ & HT & Hx0 & Hx1 & Hy0 & Hy1 & _).
  unfold region_inside, scale_tile. cbn [snd]. rewrite Hs.
  repeat split; nia.
Qed.

Lemma tiles_pairwise_disjoint
  (np : NumPy) (input_mask : list (list Z)) (tile_size : Z)
  (min_coverage : Q) (level : Z) (tiles : list (nat * TileDescriptor)) :
  get_relevant_tiles np input_mask tile_size min_coverage level = Ok tiles ->
  ForallOrdPairs (fun a b => tiles_disjoint (snd a) (snd b)) tiles.
Proof.
  intros H.
  destruct (get_relevant_tiles_ok _ _ _ _ _ _ H) as [HT Hs].
  destruct (Z.lt_ge_cases tile_size 0) as [Hn | Hp].
  - rewrite get_relevant_tiles_degenerate in H by auto.
    injection H as <-. constructor.
  - rewrite get_relevant_tiles_flat in H by assumption.
    destruct (tiler_cells _ _ _ _ _ _ _) as [st |] eqn:Hc; [| discriminate].
    cbn [bind] in H. injection H as <-.
    destruct (tiler_cells_extra np input_mask tile_size min_coverage level
                cell_before tiles_disjoint
                (fun c1 c2 Hb =>
                   proj2 (cell_before_tiles tile_size level c1 c2
                            ltac:(lia) Hb))
                _ _ _ Hc) as (extra & He & _ & Hord).
    cbn [tiler_init relevant_tiles_dict app] in He. rewrite He.
    apply Hord, list_prod_row_major; apply range_increasing.
Qed.

(** X21.  When the processing of a slide returns: the patch dictionary has
    one entry per tile the tiler kept, numbered from zero in the tiler's
    order, each storing its tile's position and size multiplied by the
    truncated downsample factor; and for a positive factor every entry is a
    square of side [tile_size * factor] inside the mask's extent scaled by
    the factor, and no two entries overlap. *)
Theorem slide_entries_are_scaled_disjoint_tiles
  (np : NumPy) (level_downsample : Q)
  (read_region : Z -> Z -> Z -> list (list rgb))
  (fillPoly : list (list Z) -> list (Q * Q) -> list (list Z))
  (mask : list (list Z)) (tile_size : Z) (tissue_coverage : Q) (level : Z)
  (annotations : list (list (Q * Q))) (label_dict : LabelDict)
  (overlap : Q) (patch_size : Z) (output_path : option string)
  (slide_name : string)
  (patch_dict : list (nat * TileEntry)) (sv : list SavedPatch) :
  slide_patches np level_downsample read_region fillPoly mask tile_size
    tissue_coverage level annotations label_dict overlap patch_size
    output_path slide_name = Ok (patch_dict, sv) ->
  exists tiles : list (nat * TileDescriptor),
    get_relevant_tiles np mask tile_size tissue_coverage level = Ok tiles
    /\ map fst patch_dict = seq 0 (length tiles)
    /\ map (fun ie => entry_header (snd ie)) patch_dict
       = map (fun kt => scale_tile (scaling_factor level_downsample)
                          (snd kt)) tiles
    /\ (0 < scaling_factor level_downsample ->
        Forall (fun ie =>
                  region_inside
                    (shape0 mask * scaling_factor level_downsample)
                    (shape1 mask * scaling_factor level_downsample)
                    (entry_header (snd ie))
                  /\ te_size (snd ie)
                     = tile_size * scaling_factor level_downsample)
               patch_dict
        /\ ForallOrdPairs regions_disjoint
             (map (fun ie => entry_header (snd ie)) patch_dict)).
Proof.
  unfold slide_patches, extract_patches.
  destruct (get_relevant_tiles np mask tile_size tissue_coverage level)
    as [tiles |] eqn:Ht; cbn [bind]; [| discriminate].
  intros Hx. exists tiles. split; [reflexivity |].
  destruct (tiles_loop_entries _ _ _ _ _ _ _ _ _ _ _ _ _ _ _ _ Hx)
    as (pd1 & -> & Hk & Hh & _).
  cbn [app]. split; [exact Hk |]. split; [exact Hh |].
  intros Hf. set (f := scaling_factor level_downsample) in *.
  destruct (get_relevant_tiles_cells _ _ _ _ _ _ Ht) as [_ Hcells].
  pose proof (tiles_pairwise_disjoint _ _ _ _ _ _ Ht) as Hord.
  split.
  - assert (Hall : Forall (fun h => region_inside (shape0 mask * f)
                                      (shape1 mask * f) h
                                    /\ snd h = tile_size * f)
                     (map (fun ie => entry_header (snd ie)) pd1)).
    { rewrite Hh. apply Forall_map. eapply Forall_impl; [| exact Hcells].
      cbv beta. intros kt Hc.
      apply (scaled_region_inside f tile_size level); [exact Hf |].
      apply grid_cell_in_mask;
        [apply shape0_nonneg | apply shape1_nonneg | exact Hc]. }
    apply Forall_map in Hall. exact Hall.
  - rewrite Hh.
    apply (FOP_map (fun kt => scale_tile f (snd kt))
             (fun a b => tiles_disjoint (snd a) (snd b)));
      [| exact Hord].
    intros a b Hd. apply scaled_regions_disjoint; assumption.
Qed.

Lemma slide_entries_witness :
  exists tiles : list (nat * TileDescriptor),
    get_relevant_tiles NumPy1 (left_half_mask 2 2) 2 (1 # 8) 0 = Ok tiles
    /\ map fst [(0%nat, mkEntry 0 0 6 []); (1%nat, mkEntry 6 0 6 [])]
       = seq 0 (length tiles)
    /\ map (fun ie => entry_header (snd ie))
         [(0%nat, mkEntry 0 0 6 []); (1%nat, mkEntry 6 0 6 [])]
       = map (fun kt => scale_tile (scaling_factor 3) (snd kt)) tiles
    /\ (0 < scaling_factor 3 ->
        Forall (fun ie =>
                  region_inside
                    (shape0 (left_half_mask 2 2) * scaling_factor 3)
                    (shape1 (left_half_mask 2 2) * scaling_factor 3)
                    (entry_header (snd ie))
                  /\ te_size (snd ie) = 2 * scaling_factor 3)
               [(0%nat, mkEntry 0 0 6 []); (1%nat, mkEntry 6 0 6 [])]
        /\ ForallOrdPairs regions_disjoint
             (map (fun ie => entry_header (snd ie))
                [(0%nat, mkEntry 0 0 6 []); (1%nat, mkEntry 6 0 6 [])])).
Proof.
  apply (slide_entries_are_scaled_disjoint_tiles NumPy1 3 (fun _ _ _ => [])
           (fun m _ => m) (left_half_mask 2 2) 2 (1 # 8) 0 [] [] 0 4 None
           "slide" [(0%nat, mkEntry 0 0 6 []); (1%nat, mkEntry 6 0 6 [])]
           []).
  vm_compute. reflexivity.
Defined.

(** ** Patch walk: records stay on the grid *)

Lemma visit_list_on_positions (np : NumPy) (P : Z) (tile : list (list rgb))
  (mask : list (list Z)) (label_dict : LabelDict)
  (file_dir slide_name : option string) (tile_nb : nat)
  (pos : list (Z * Z)) :
  forall e e',
    visit_list np P tile mask label_dict file_dir slide_name tile_nb pos e
    = Ok e' ->
    (e_patch_nb e' <= e_patch_nb e + length pos)%nat
    /\ exists extra,
         e_patches e' = e_patches e ++ extra
         /\ Forall (fun ir => In (pr_x_pos (snd ir), pr_y_pos (snd ir)) pos)
                   extra.
Proof.
  induction pos as [| xy pos IH]; intros e e'.
  - cbn. intros E. injection E as <-. split; [lia |].
    exists []. rewrite app_nil_r. split; [reflexivity | constructor].
  - cbn [visit_list].
    destruct (visit _ _ _ _ _ _ _ _ _ _ e) as [e1 |] eqn:Hv; cbn [bind];
      [| discriminate].
    intros Hrest. destruct (IH _ _ Hrest) as (Hnb & extra & He & Hin).
    assert (Hin' : Forall (fun ir => In (pr_x_pos (snd ir),
                                         pr_y_pos (snd ir)) (xy :: pos))
                     extra).
    { eapply Forall_impl; [| exact Hin]. cbv beta. intros ir H. right.
      exact H. }
    unfold visit in Hv.
    destruct (check_for_label _ _ _) as [[l |] |]; cbn [bind] in Hv;
      try discriminate; injection Hv as <-;
      cbn [e_patch_nb e_patches length] in *.
    + split; [lia |].
      eexists (_ :: extra). rewrite He, <- app_assoc.
      split; [reflexivity |].
      constructor; [| exact Hin'].
      cbn [snd pr_x_pos pr_y_pos]. left. destruct xy; reflexivity.
    + split; [lia |]. exists extra. split; [exact He | exact Hin'].
Qed.

(** X22.  For a patch size that fits the tile, any stride [step > 0] and
    any number [n] of candidates per axis, whatever the mask and the rules:
    a completed walk has recorded at most [min(n, k + 1)^2] patches, where
    [k] is the index of the clamped candidate, and every record sits on the
    visited grid: its [x] and its [y] are each either [c * step] for a
    candidate [c] below [k] and [n], with [c * step + P < S], or, if [n]
    exceeds [k], exactly [S - P]. *)
Theorem records_sit_on_the_clamped_grid
  (np : NumPy) (S P step n : Z) (tile : list (list rgb))
  (mask : list (list Z)) (label_dict : LabelDict)
  (file_dir slide_name : option string) (tile_nb : nat) (st : WalkState) :
  0 < P <= S -> 0 < step ->
  rows_loop np S P step tile mask label_dict file_dir slide_name
    tile_nb (Np.range n) (Np.range n) (walk_init []) = Ok st ->
  Z.of_nat (patch_nb st)
  <= Z.min (Z.max n 0) (clamp_index S P step + 1)
     * Z.min (Z.max n 0) (clamp_index S P step + 1)
  /\ Forall (fun ir =>
               forall x, x = pr_x_pos (snd ir) \/ x = pr_y_pos (snd ir) ->
               (exists c, 0 <= c < clamp_index S P step /\ c < n
                          /\ x = c * step /\ x + P < S)
               \/ (clamp_index S P step < n /\ x = S - P))
            (patches st).
Proof.
  intros HP Hstep Hwalk.
  rewrite (walk_visits_grid np S P step HP Hstep) in Hwalk.
  destruct (visit_list _ _ _ _ _ _ _ _ _ _) as [e |] eqn:Hv;
    cbn [bind] in Hwalk; [| discriminate].
  injection Hwalk as <-. cbn [with_flags patch_nb patches].
  destruct (visit_list_on_positions _ _ _ _ _ _ _ _ _ _ _ Hv)
    as (Hnb & extra & He & Hin).
  cbn [e_patch_nb e_patches app] in *. split.
  - rewrite grid_positions_length in Hnb.
    pose proof (visited_coords_length S P step HP Hstep n). nia.
  - rewrite He. eapply Forall_impl; [| exact Hin]. cbv beta.
    intros ir Hir. unfold grid_positions in Hir.
    apply in_flat_map in Hir as (y & Hy & Hx).
    apply in_map_iff in Hx as (x & E & Hx). injection E as E1 E2.
    pose proof (visited_coords_spec S P step Hstep n) as Hspec.
    rewrite Forall_forall in Hspec.
    intros z [-> | ->]; [rewrite <- E1 | rewrite <- E2]; auto.
Qed.

Lemma records_on_grid_witness :
  Z.of_nat (patch_nb example_walk_state) <= 2 * 2
  /\ Forall (fun ir =>
               forall x, x = pr_x_pos (snd ir) \/ x = pr_y_pos (snd ir) ->
               (exists c, 0 <= c < 1 /\ c < 2 /\ x = c * 3 /\ x + 3 < 5)
               \/ (1 < 2 /\ x = 5 - 3))
            (patches example_walk_state).
Proof.
  apply (records_sit_on_the_clamped_grid NumPy1 5 3 (grid_step 3 0) 2
           (Cv2.gray2rgb (Np.zeros 5 5)) (Np.zeros 5 5) accept_all
           (Some "out"%string) None 0 example_walk_state).
  - lia.
  - vm_compute. reflexivity.
  - vm_compute. reflexivity.
Defined.
